(** * superque: the wait-time / leave-time / notification estimation engine

    A shallow embedding of [packages/shared/src/utils/{queue,time,
    notifications,geo}.ts] and the properties stated about them.

    Modelling conventions.
    - In the queue, time and notification utilities a JavaScript [number]
      is a double: a rational ([Q]), and [+], [-], [*] and [/] round
      their exact result to the nearest double, ties to even ([num_add],
      [num_sub], [num_mul], [num_div]).  [Math.round], [Math.floor],
      [Math.ceil], [Math.max], [Math.min] and the comparisons are exact
      on doubles.  A rational stands for no [NaN] and no infinity: a
      statement whose truth depends on a result being finite says so
      with [isFinite], and [parseDuration], whose results can be
      [Infinity], returns an [option].  Zero has no sign.
    - The functions that take whole numbers (a duration in
      milliseconds, a year, a position to print) are given on [Z]:
      below 2^53 the quotients of whole numbers are rounded, but their
      [Math.floor] is that of the exact quotient ([num_div_Z]).
    - In the geodesic utilities, which need [Math.sin], [Math.atan2] and
      [Math.PI], a [number] is an exact real ([R]): what is stated about
      them is stated of exact real arithmetic, where no rounding makes
      an argument of [Math.asin] or [Math.sqrt] leave its domain.  Every
      division there is by a non-zero constant, but for the division by
      [Math.cos(lat)] in [getBoundingBox], which what is stated about
      its longitudes keeps away from the poles.
    - [Math.random()] and [new Date()] read ambient state.  The functions
      that call them take that state as an explicit [World] argument.
    - A [throw] is a [Throw] outcome of type [result]. *)

From Stdlib Require Import ZArith QArith Qround Qabs Qminmax Qpower Lia Lqa.
From Stdlib Require Import List Bool String Ascii Permutation Sorted.
From Stdlib Require Import Reals Lra.
From Equations Require Import Equations.
Import ListNotations.

Close Scope Q_scope.
Close Scope R_scope.
Close Scope string_scope.

(** ** JavaScript numbers *)

Module JS.
Local Open Scope Q_scope.

Definition number := Q.

(** [a < b], [a <= b], [a > b] and [a === b] on numbers. *)
Definition num_lt (a b : Q) : bool := negb (Qle_bool b a).
Definition num_le (a b : Q) : bool := Qle_bool a b.
Definition num_gt (a b : Q) : bool := num_lt b a.
Definition strict_eq (a b : Q) : bool := Qeq_bool a b.

(** [Math.round]: the nearest integer, a tie going towards +infinity. *)
Definition Math_round (x : Q) : Q := inject_Z (Qfloor (x + (1 # 2))).
Definition Math_floor (x : Q) : Q := inject_Z (Qfloor x).
Definition Math_ceil (x : Q) : Q := inject_Z (Qceiling x).
Definition Math_max (a b : Q) : Q := if num_lt a b then b else a.
Definition Math_min (a b : Q) : Q := if num_lt b a then b else a.

(** The integer part of a number (ToIntegerOrInfinity): towards zero. *)
Definition truncate (x : Q) : Z :=
  if num_lt x 0 then Qceiling x else Qfloor x.

Definition is_integer (x : Q) : Prop := exists z : Z, x == inject_Z z.

(** *** Double precision

    A [number] is a double.  The finite doubles are rationals, and the
    arithmetic operators return the double nearest to the exact result,
    a tie going to the even significand (IEEE 754 binary64, subnormal
    numbers included): [double] is that rounding, and it returns the
    fraction in lowest terms, so that equal doubles are the same term.
    A literal such as [0.2] denotes [double (2 # 10)]. *)
Definition pow2 (e : Z) : Q := 2 ^ e.

(** The integer part of the binary logarithm of a positive number. *)
Definition ilog2 (x : Q) : Z :=
  let k := (Z.log2 (Qnum x) - Z.log2 (Zpos (Qden x)))%Z in
  if Qle_bool (pow2 k) x then k else (k - 1)%Z.

(** The nearest integer, a tie going to the even one. *)
Definition round_half_even (q : Q) : Z :=
  let f := Qfloor q in
  match Qcompare (q - inject_Z f) (1 # 2) with
  | Lt => f
  | Gt => (f + 1)%Z
  | Eq => if Z.even f then f else (f + 1)%Z
  end.

(** The exponent of the last bit of the significand of 53 bits that
    holds [x]; it is -1074 for a subnormal number. *)
Definition exponent (x : Q) : Z := (Z.max (ilog2 (Qabs x)) (-1022) - 52)%Z.

Definition double (x : Q) : Q :=
  if Qeq_bool x 0 then 0
  else
    Qred (inject_Z (round_half_even (x / pow2 (exponent x)))
          * pow2 (exponent x)).

Definition is_double (x : Q) : Prop := double x == x.

(** [Number.MAX_VALUE].  An exact result beyond it rounds to an
    infinity, which no rational stands for: what is stated below of an
    operation is stated of exact results [isFinite]. *)
Definition MAX_VALUE : Q := (pow2 53 - 1) * pow2 971.

Definition isFinite (x : Q) : Prop := Qabs x <= MAX_VALUE.

(** [a + b], [a - b], [a * b] and [a / b] on numbers, [b] not 0. *)
Definition num_add (a b : Q) : Q := double (a + b).
Definition num_sub (a b : Q) : Q := double (a - b).
Definition num_mul (a b : Q) : Q := double (a * b).
Definition num_div (a b : Q) : Q := double (a / b).

(** A parameter with a default value: [undefined] selects the default. *)
Definition orDefault {A : Type} (o : option A) (d : A) : A :=
  match o with Some a => a | None => d end.

(** Exceptions. *)
Inductive Error : Type :=
| GenericError (message : string)
| RangeError (message : string).

Inductive result (A : Type) : Type :=
| Ok (value : A)
| Throw (e : Error).
Arguments Ok {A} value.
Arguments Throw {A} e.

Definition throws {A : Type} (r : result A) : Prop :=
  match r with Throw _ => True | Ok _ => False end.

Definition returns {A : Type} (r : result A) : Prop :=
  match r with Ok _ => True | Throw _ => False end.

(** The ambient state a call may read: the next value of [Math.random()],
    a number in [0, 1), and the system clock in milliseconds since the
    epoch, which is what [new Date()] captures. *)
Record World : Type := mkWorld {
  random : Q;
  clock : Z
}.

Definition random_in_range (w : World) : Prop :=
  0 <= random w /\ random w < 1.

(** A [Date], as its time value: whole milliseconds since the epoch, at
    most [MAX_TIME] = 8.64e15 in absolute value.  [new Date(tv)] keeps
    the integer part of [tv] (TimeClip); for a [tv] beyond [MAX_TIME] it
    is an Invalid Date, which [Date] does not represent: what is stated
    of [new_Date tv] is stated for [valid_time tv]. *)
Definition Date := Z.
Definition MAX_TIME : Z := 8640000000000000.
Definition new_Date (tv : Q) : Date := truncate tv.
Definition getTime (d : Date) : Q := inject_Z d.

End JS.

(** ** Numbers in template literals *)

Module Text.
Local Open Scope Z_scope.

Definition digit_char (d : Z) : ascii := ascii_of_nat (48 + Z.to_nat d).

(** The decimal digits of a non-negative integer, most significant
    first. *)
Equations? digits (n : Z) : list ascii by wf (Z.to_nat n) Peano.lt :=
  digits n with Z_lt_dec n 10 := {
    | left _ := [digit_char n]
    | right _ := digits (n / 10) ++ [digit_char (n mod 10)] }.
Proof.
  assert (0 <= n / 10 < n) by (split; [apply Z.div_pos | apply Z.div_lt]; lia).
  lia.
Qed.

(** [`${n}`] on a whole number [n]: its decimal digits, after a minus
    sign when it is negative.  This is what an engine prints below
    10^21 in magnitude; from there on it prints exponent notation
    ([1e+21]), which is not modelled. *)
Definition Number_toString (n : Z) : string :=
  if n <? 0 then String "-" (string_of_list_ascii (digits (- n)))
  else string_of_list_ascii (digits n).

(** [parts.join(sep)] *)
Fixpoint join (sep : string) (parts : list string) : string :=
  match parts with
  | [] => EmptyString
  | [p] => p
  | p :: rest => (p ++ sep ++ join sep rest)%string
  end.

End Text.

(** ** utils/time.ts *)

Module TimeUtils.
Import JS.
Local Open Scope Q_scope.
Local Open Scope string_scope.

Definition MS_IN_SECOND : Q := 1000.
Definition MS_IN_MINUTE : Q := num_mul 60 MS_IN_SECOND.
Definition MS_IN_HOUR : Q := num_mul 60 MS_IN_MINUTE.
Definition MS_IN_DAY : Q := num_mul 24 MS_IN_HOUR.
Definition MS_IN_WEEK : Q := num_mul 7 MS_IN_DAY.

(** [type TimeUnit]; at run time a unit is whatever string the caller
    passed. *)
Definition TimeUnit : list string :=
  ["milliseconds"; "seconds"; "minutes"; "hours"; "days"; "weeks"].

(** The period names [startOf] and [endOf] accept. *)
Definition CalendarUnit : list string :=
  ["year"; "month"; "week"; "day"; "hour"; "minute"; "second"].

(** [toMilliseconds(value, unit)] *)
Definition toMilliseconds (value : Q) (unit : string) : result Q :=
  if unit =? "milliseconds" then Ok value
  else if unit =? "seconds" then Ok (num_mul value MS_IN_SECOND)
  else if unit =? "minutes" then Ok (num_mul value MS_IN_MINUTE)
  else if unit =? "hours" then Ok (num_mul value MS_IN_HOUR)
  else if unit =? "days" then Ok (num_mul value MS_IN_DAY)
  else if unit =? "weeks" then Ok (num_mul value MS_IN_WEEK)
  else Throw (GenericError ("Unsupported time unit: " ++ unit)).

(** [dateDiff(date1, date2 = new Date(), unit = 'milliseconds')] *)
Definition dateDiff (w : World) (date1 : Date) (date2 : option Date)
    (unit : option string) : result Q :=
  let date2 := orDefault date2 (clock w) in
  let unit := orDefault unit "milliseconds" in
  let d1 := date1 in
  let d2 := date2 in
  let diffMs := Qabs (num_sub (getTime d2) (getTime d1)) in
  if unit =? "milliseconds" then Ok diffMs
  else if unit =? "seconds" then Ok (num_div diffMs MS_IN_SECOND)
  else if unit =? "minutes" then Ok (num_div diffMs MS_IN_MINUTE)
  else if unit =? "hours" then Ok (num_div diffMs MS_IN_HOUR)
  else if unit =? "days" then Ok (num_div diffMs MS_IN_DAY)
  else if unit =? "weeks" then Ok (num_div diffMs MS_IN_WEEK)
  else Throw (GenericError ("Unsupported time unit: " ++ unit)).

(** [addTime] and [subtractTime] *)
Definition addTime (date : Date) (amount : Q) (unit : string) : result Date :=
  let d := date in
  match toMilliseconds amount unit with
  | Throw e => Throw e
  | Ok ms => Ok (new_Date (num_add (getTime d) ms))
  end.

Definition subtractTime (date : Date) (amount : Q) (unit : string)
    : result Date :=
  addTime date (- amount) unit.

(** The local-time calendar of the host: the getters of [Date], its
    component constructor [new Date(y, m, d, h, min, s, ms)] and
    [setDate], which yields the new time value.  None of them throws. *)
Class LocalCalendar : Type := {
  getFullYear : Date -> Z;
  getMonth : Date -> Z;
  getDate : Date -> Z;
  getDay : Date -> Z;
  getHours : Date -> Z;
  getMinutes : Date -> Z;
  getSeconds : Date -> Z;
  Date_of : Z -> Z -> Z -> Z -> Z -> Z -> Z -> Date;
  setDate : Date -> Z -> Q
}.

Section Calendar.
Context `{LocalCalendar}.
Local Open Scope Z_scope.

(** [startOf(date, unit)] *)
Definition startOf (date : Date) (unit : string) : result Date :=
  let d := date in
  if (unit =? "year")%string then
    Ok (Date_of (getFullYear d) 0 1 0 0 0 0)
  else if (unit =? "month")%string then
    Ok (Date_of (getFullYear d) (getMonth d) 1 0 0 0 0)
  else if (unit =? "week")%string then
    let day := getDay d in
    let diff := getDate d - day + (if day =? 0 then -6 else 1) in
    Ok (new_Date (setDate d diff))
  else if (unit =? "day")%string then
    Ok (Date_of (getFullYear d) (getMonth d) (getDate d) 0 0 0 0)
  else if (unit =? "hour")%string then
    Ok (Date_of (getFullYear d) (getMonth d) (getDate d) (getHours d) 0 0 0)
  else if (unit =? "minute")%string then
    Ok (Date_of (getFullYear d) (getMonth d) (getDate d) (getHours d)
          (getMinutes d) 0 0)
  else if (unit =? "second")%string then
    Ok (Date_of (getFullYear d) (getMonth d) (getDate d) (getHours d)
          (getMinutes d) (getSeconds d) 0)
  else Throw (GenericError ("Unsupported unit: " ++ unit)).

(** [endOf(date, unit)] *)
Definition endOf (date : Date) (unit : string) : result Date :=
  let d := date in
  if (unit =? "year")%string then
    Ok (Date_of (getFullYear d + 1) 0 0 23 59 59 999)
  else if (unit =? "month")%string then
    Ok (Date_of (getFullYear d) (getMonth d + 1) 0 23 59 59 999)
  else if (unit =? "week")%string then
    let day := getDay d in
    let diff := getDate d - day + (if day =? 0 then -6 else 1) + 6 in
    Ok (Date_of (getFullYear d) (getMonth d) diff 23 59 59 999)
  else if (unit =? "day")%string then
    Ok (Date_of (getFullYear d) (getMonth d) (getDate d + 1) 0 0 0 0)
  else if (unit =? "hour")%string then
    Ok (Date_of (getFullYear d) (getMonth d) (getDate d) (getHours d + 1) 0 0 0)
  else if (unit =? "minute")%string then
    Ok (Date_of (getFullYear d) (getMonth d) (getDate d) (getHours d)
          (getMinutes d + 1) 0 0)
  else if (unit =? "second")%string then
    Ok (Date_of (getFullYear d) (getMonth d) (getDate d) (getHours d)
          (getMinutes d) (getSeconds d + 1) 0)
  else Throw (GenericError ("Unsupported unit: " ++ unit)).

End Calendar.

(** *** parseDuration *)

Local Open Scope char_scope.

(** The character classes of [/(\d+)([smhdw])/g]. *)
Definition is_digit (c : ascii) : bool :=
  (48 <=? nat_of_ascii c)%nat && (nat_of_ascii c <=? 57)%nat.

Definition is_unit (c : ascii) : bool :=
  existsb (Ascii.eqb c) ["s"; "m"; "h"; "d"; "w"].

(** One match: the digits captured by group 1, the letter captured by
    group 2, and the input left after the match. *)
Definition Match : Type := (list ascii * ascii * list ascii)%type.

(** The pattern tried at the head of the input.  [\d+] is greedy: a
    longer run of digits is tried first, and the matcher backtracks to a
    shorter one when no unit letter follows. *)
Fixpoint match_here (input : list ascii) : option Match :=
  match input with
  | [] => None
  | c :: rest =>
      if is_digit c then
        match match_here rest with
        | Some (digits, unit, after) => Some (c :: digits, unit, after)
        | None =>
            match rest with
            | u :: after => if is_unit u then Some ([c], u, after) else None
            | [] => None
            end
        end
      else None
  end.

(** [timeRegex.exec]: the leftmost match at or after [lastIndex]. *)
Fixpoint exec (input : list ascii) : option Match :=
  match match_here input with
  | Some m => Some m
  | None =>
      match input with
      | [] => None
      | _ :: rest => exec rest
      end
  end.

(** The whole number a run of decimal digits writes. *)
Definition digit_value (c : ascii) : Z := Z.of_nat (nat_of_ascii c) - 48.

Definition decimal (digits : list ascii) : Z :=
  fold_left (fun acc c => acc * 10 + digit_value c)%Z digits 0%Z.

(** The numbers of [parseDuration] are never negative, and they may
    overflow: a sum or a product whose double is beyond [MAX_VALUE] is
    [Infinity], here [None]. *)
Definition overflow (x : Q) : option Q :=
  if Qle_bool x MAX_VALUE then Some x else None.

Definition times (value : option Q) (k : Q) : option Q :=
  match value with
  | Some v => overflow (num_mul v k)
  | None => None
  end.

Definition plus (a b : option Q) : option Q :=
  match a, b with
  | Some x, Some y => overflow (num_add x y)
  | _, _ => None
  end.

(** [parseInt(digits, 10)] on a run of decimal digits: the double
    nearest to the number they write.  (Past 20 significant digits the
    language lets an engine read the following ones as zeros; engines
    read them all.) *)
Definition parseInt (digits : list ascii) : option Q :=
  overflow (double (inject_Z (decimal digits))).

(** The [switch] on the unit letter: [totalMs += value * ...]. *)
Definition add_unit (totalMs : option Q) (unit : ascii) (value : option Q)
    : option Q :=
  if Ascii.eqb unit "s" then plus totalMs (times value 1000)
  else if Ascii.eqb unit "m" then plus totalMs (times (times value 60) 1000)
  else if Ascii.eqb unit "h" then
    plus totalMs (times (times (times value 60) 60) 1000)
  else if Ascii.eqb unit "d" then
    plus totalMs (times (times (times (times value 24) 60) 60) 1000)
  else if Ascii.eqb unit "w" then
    plus totalMs
      (times (times (times (times (times value 7) 24) 60) 60) 1000)
  else totalMs.

(** The [while ((match = timeRegex.exec(timeString)) !== null)] loop.
    [input] is what follows [lastIndex]; a match leaves strictly less,
    so the loop ends. *)
Equations? scan (input : list ascii) (totalMs : option Q) : option Q
    by wf (List.length input) lt :=
  scan input totalMs with exist (fun r => exec input = r) (exec input) eq_refl := {
    | exist _ None finished := totalMs
    | exist _ (Some (digits, unit, after)) found :=
        scan after (add_unit totalMs unit (parseInt digits)) }.
Proof.
  assert (here : forall l ds u a,
             match_here l = Some (ds, u, a) -> (List.length a < List.length l)%nat).
  { induction l as [|c l IH]; simpl; intros ds u a E; [discriminate|].
    destruct (is_digit c); [|discriminate].
    destruct (match_here l) as [[[ds' u'] a']|] eqn:E'.
    - inversion E; subst. specialize (IH _ _ _ eq_refl). lia.
    - destruct l as [|x l']; [discriminate|].
      destruct (is_unit x); [|discriminate].
      inversion E; subst. simpl. lia. }
  revert found. clear scan. induction input as [|c l IH]; simpl.
  - discriminate.
  - destruct (is_digit c) eqn:D.
    + destruct (match_here l) as [[[ds' u'] a']|] eqn:E'.
      * intros E; inversion E; subst. apply here in E'. lia.
      * destruct l as [|x l']; [discriminate|].
        destruct (is_unit x) eqn:U.
        -- intros E; inversion E; subst. simpl. lia.
        -- intros E. specialize (IH E). lia.
    + intros E. specialize (IH E). lia.
Qed.

(** [totalMs || 0] *)
Definition or_zero (totalMs : option Q) : option Q :=
  match totalMs with
  | Some t => if strict_eq t 0 then Some 0 else Some t
  | None => None
  end.

(** [parseDuration(timeString)] *)
Definition parseDuration (timeString : string) : option Q :=
  or_zero (scan (list_ascii_of_string timeString) (Some 0)).

(** The remaining functions take whole numbers: a duration in whole
    milliseconds, a year.  [%] is the remainder whose sign is that of the
    dividend ([Z.rem]); [Math.floor(a / b)] on whole numbers with [b > 0]
    is [a / b]. *)

(** [formatDuration(ms, precision = 2)]; [precision] is never used. *)
Definition formatDuration (ms : Z) : string :=
  let str := Text.Number_toString in
  (if ms <? 1000 then str ms ++ "ms"
   else
     let seconds := ms / 1000 in
     if seconds <? 60 then str seconds ++ "s"
     else
       let minutes := seconds / 60 in
       if minutes <? 60 then
         let remainingSeconds := Z.rem seconds 60 in
         if 0 <? remainingSeconds
         then str minutes ++ "m " ++ str remainingSeconds ++ "s"
         else str minutes ++ "m"
       else
         let hours := minutes / 60 in
         if hours <? 24 then
           let remainingMinutes := Z.rem minutes 60 in
           if 0 <? remainingMinutes
           then str hours ++ "h " ++ str remainingMinutes ++ "m"
           else str hours ++ "h"
         else
           let days := hours / 24 in
           let remainingHours := Z.rem hours 24 in
           if days <? 7 then
             if 0 <? remainingHours
             then str days ++ "d " ++ str remainingHours ++ "h"
             else str days ++ "d"
           else
             let weeks := days / 7 in
             let remainingDays := Z.rem days 7 in
             let parts : list string := [] in
             let parts :=
               if 0 <? weeks then (parts ++ [(str weeks ++ "w")%string])%list else parts in
             let parts :=
               if 0 <? remainingDays
               then (parts ++ [(str remainingDays ++ "d")%string])%list
               else parts in
             Text.join " " parts)%Z%string.

(** [timeAgo(date)] *)
Definition timeAgo (w : World) (date : Date) : string :=
  let str := Text.Number_toString in
  let now := clock w in
  let then_ := date in
  (let diffMs := now - then_ in
   let seconds := diffMs / 1000 in
   let minutes := seconds / 60 in
   let hours := minutes / 60 in
   let days := hours / 24 in
   let months := days / 30 in
   let years := days / 365 in
   if 0 <? years then
     str years ++ " year" ++ (if 1 <? years then "s" else "") ++ " ago"
   else if 0 <? months then
     str months ++ " month" ++ (if 1 <? months then "s" else "") ++ " ago"
   else if 0 <? days then
     str days ++ " day" ++ (if 1 <? days then "s" else "") ++ " ago"
   else if 0 <? hours then
     str hours ++ " hour" ++ (if 1 <? hours then "s" else "") ++ " ago"
   else if 0 <? minutes then
     str minutes ++ " minute" ++ (if 1 <? minutes then "s" else "") ++ " ago"
   else if seconds <=? 0 then "just now"
   else str seconds ++ " second" ++ (if seconds =? 1 then "" else "s") ++ " ago"
  )%Z%string.

(** [isBetween(date, start, end)] *)
Definition isBetween (date start end_ : Date) : bool :=
  let d := date in
  let s := start in
  let e := end_ in
  ((s <=? d) && (d <=? e))%Z.

(** [isLeapYear(year)] *)
Definition isLeapYear (year : Z) : bool :=
  ((Z.rem year 4 =? 0) && negb (Z.rem year 100 =? 0) || (Z.rem year 400 =? 0))%Z.

End TimeUtils.

(** ** utils/queue.ts *)

Module QueueUtils.
Import JS.
Local Open Scope Q_scope.

(** [calculateWaitTime(position, averageServiceTime, varianceServiceTime = 0.2)] *)
Definition calculateWaitTime (w : World)
    (position averageServiceTime : Q) (varianceServiceTime : option Q) : Q :=
  let varianceServiceTime := orDefault varianceServiceTime (double (2 # 10)) in
  let waitTime := num_mul position averageServiceTime in
  let waitTime :=
    if num_gt varianceServiceTime 0 then
      let varianceFactor :=
        num_add 1 (num_mul (num_sub (num_mul (random w) 2) 1)
                     varianceServiceTime) in
      num_mul waitTime varianceFactor
    else waitTime in
  Math_max 0 (Math_round waitTime).

(** [estimateTimeUntilPosition] *)
Definition estimateTimeUntilPosition
    (currentPosition targetPosition averageServiceTime : Q) : Q :=
  if num_le currentPosition 0 || num_le targetPosition 0
     || num_gt targetPosition currentPosition
  then 0
  else
    let positionsAhead := num_sub currentPosition targetPosition in
    Math_round (num_mul positionsAhead averageServiceTime).

(** [calculateNotificationTime(..., notificationOffset = 5 * 60)] *)
Definition calculateNotificationTime
    (currentPosition averageServiceTime travelTime : Q)
    (notificationOffset : option Q) : Q :=
  let notificationOffset := orDefault notificationOffset (5 * 60) in
  let estimatedTime := num_mul currentPosition averageServiceTime in
  Math_max 0 (num_sub (num_sub estimatedTime travelTime) notificationOffset).

(** [estimateServedInTime(timePeriod, averageServiceTime, numServers = 1)] *)
Definition estimateServedInTime
    (timePeriod averageServiceTime : Q) (numServers : option Q) : Q :=
  let numServers := orDefault numServers 1 in
  if num_le averageServiceTime 0 then 0
  else Math_floor (num_div (num_mul timePeriod numServers) averageServiceTime).

(** [calculateOptimalServers] *)
Definition calculateOptimalServers
    (queueLength averageServiceTime targetWaitTime : Q) : Q :=
  if num_le averageServiceTime 0 || num_le targetWaitTime 0 then 1
  else
    let servers :=
      Math_ceil (num_div (num_mul queueLength averageServiceTime)
                   targetWaitTime) in
    Math_max 1 servers.

(** [calculateNoShowProbability] and [adjustForNoShowProbability], with
    the exact operators: what is stated of them below are the guards and
    bounds, which do not depend on the rounding. *)
Definition calculateNoShowProbability (totalNoShows totalEntries : Q) : Q :=
  if num_le totalEntries 0 then 0
  else Math_min 1 (Math_max 0 (totalNoShows / totalEntries)).

(** [Math.exp] is taken as given. *)
Section NoShowAdjustment.
Variable Math_exp : Q -> Q.

Definition adjustForNoShowProbability
    (estimatedWaitTime noShowProbability position : Q) : Q :=
  if num_le noShowProbability 0 || num_le position 0 then estimatedWaitTime
  else
    let adjustmentFactor :=
      1 - (noShowProbability * (1 - Math_exp (- position / 10))) in
    Math_round (estimatedWaitTime * adjustmentFactor).

End NoShowAdjustment.

(** The queue-entry status enumeration
    ['WAITING' | 'CALLED' | 'SERVED' | 'NOSHOW' | 'CANCELLED']. *)
Inductive QueueEntryStatus : Type :=
| WAITING | CALLED | SERVED | NOSHOW | CANCELLED.

Definition status_eqb (a b : QueueEntryStatus) : bool :=
  match a, b with
  | WAITING, WAITING | CALLED, CALLED | SERVED, SERVED
  | NOSHOW, NOSHOW | CANCELLED, CANCELLED => true
  | _, _ => false
  end.

(** [Array.prototype.includes] on an array of statuses. *)
Definition includes (l : list QueueEntryStatus) (s : QueueEntryStatus) : bool :=
  existsb (fun x => status_eqb x s) l.

Definition isActiveStatus (status : QueueEntryStatus) : bool :=
  includes [WAITING; CALLED] status.

Definition isCompletedStatus (status : QueueEntryStatus) : bool :=
  includes [SERVED; NOSHOW; CANCELLED] status.

(** The [options] argument of [calculateRecommendedLeaveTime]: every
    field may be absent. *)
Module Options.
Record t : Type := mk {
  varianceServiceTime : option Q;
  bufferTime : option Q;
  minBufferTime : option Q;
  maxBufferTime : option Q;
  currentTime : option Date
}.
Definition empty : t := mk None None None None None.
End Options.

Inductive Confidence : Type := high | medium | low.

(** The object [calculateRecommendedLeaveTime] returns. *)
Module Recommendation.
Record t : Type := mk {
  position : Q;
  estimatedWaitTime : Q;
  travelTime : Q;
  bufferTime : Q;
  recommendedLeaveIn : Q;
  leaveAt : Date;
  confidence : Confidence
}.
End Recommendation.

Definition calculateRecommendedLeaveTime (w : World)
    (position averageServiceTime travelTime : Q) (options : Options.t)
    : Recommendation.t :=
  let varianceServiceTime :=
    orDefault (Options.varianceServiceTime options) (double (2 # 10)) in
  let bufferTime := orDefault (Options.bufferTime options) (double (2 # 10)) in
  let minBufferTime := orDefault (Options.minBufferTime options) (5 * 60) in
  let maxBufferTime := orDefault (Options.maxBufferTime options) (30 * 60) in
  let currentTime := orDefault (Options.currentTime options) (clock w) in
  let estimatedWaitTime :=
    calculateWaitTime w position averageServiceTime (Some varianceServiceTime) in
  let calculatedBuffer :=
    Math_min
      (Math_max (Math_round (num_mul estimatedWaitTime bufferTime))
         minBufferTime)
      maxBufferTime in
  let recommendedLeaveIn :=
    Math_max 0 (num_sub (num_sub estimatedWaitTime travelTime)
                  calculatedBuffer) in
  let leaveAt :=
    new_Date (num_add (getTime currentTime) (num_mul recommendedLeaveIn 1000)) in
  let confidence := high in
  let confidence := if num_gt position 10 then medium else confidence in
  let confidence := if num_gt position 20 then low else confidence in
  Recommendation.mk position estimatedWaitTime travelTime calculatedBuffer
    recommendedLeaveIn leaveAt confidence.

(** *** calculateCompletionTimes *)

(** [T extends { serviceTime: number }]; an item may also carry a numeric
    [position] property, which the sort looks for. *)
Class QueueItem (T : Type) : Type := {
  serviceTime : T -> Q;
  position : T -> option Q
}.

Module Assignment.
Record t (T : Type) : Type := mk {
  item : T;
  startTime : Q;
  endTime : Q
}.
Arguments mk {T} item startTime endTime.
Arguments item {T} _.
Arguments startTime {T} _.
Arguments endTime {T} _.
End Assignment.

(** What a call produces when it does not throw.  With an empty server
    pool every [startTime] is [undefined] or [NaN] and every [endTime] is
    [NaN]; that outcome is [NotANumber], carrying the processed queue. *)
Inductive Completion (T : Type) : Type :=
| Assignments (l : list (Assignment.t T))
| NotANumber (queue : list T).
Arguments Assignments {T} l.
Arguments NotANumber {T} queue.

(** [Array(n).fill(v)]: a RangeError unless [n] is an array length, a
    whole number from 0 to 2^32 - 1.  Below 2^32 an engine has limits of
    its own, on the memory of an array and on the number of arguments
    of a spread call such as [Math.min(...serverEndTimes)] (some tens of
    thousands at least); they are not modelled, and what is stated of a
    call that returns is stated of at most [MAX_SERVERS] servers, which
    is below them. *)
Definition is_array_length (n : Q) : bool :=
  strict_eq n (inject_Z (Qfloor n)) && num_le 0 n && num_lt n 4294967296.

Definition MAX_SERVERS : Z := 10000.

Definition Array_fill (n v : Q) : result (list Q) :=
  if is_array_length n then Ok (repeat v (Z.to_nat (Qfloor n)))
  else Throw (RangeError "Invalid array length").

(** [Math.min(...xs)]; [None] stands for [Infinity], the value on no
    argument. *)
Definition Math_min_spread (xs : list Q) : option Q :=
  match xs with
  | [] => None
  | x :: rest => Some (fold_left Math_min rest x)
  end.

(** [xs.indexOf(x)]; [None] stands for -1. *)
Fixpoint indexOf (x : Q) (xs : list Q) : option nat :=
  match xs with
  | [] => None
  | y :: rest =>
      if strict_eq y x then Some O else option_map S (indexOf x rest)
  end.

(** [xs[i] = v] for [i] within the array. *)
Fixpoint assign_at (i : nat) (v : Q) (xs : list Q) : list Q :=
  match xs, i with
  | [], _ => []
  | _ :: rest, O => v :: rest
  | y :: rest, S j => y :: assign_at j v rest
  end.

Section CompletionTimes.
Context {T : Type} `{QueueItem T}.

(** The comparator handed to [sort]. *)
Definition compare_items (a b : T) : Q :=
  match position a, position b with
  | Some pa, Some pb => num_sub pa pb
  | _, _ => 0
  end.

(** [Array.prototype.sort] is stable; it is modelled by a stable
    insertion sort.  [insert_sorted a l] puts [a] in front of the first
    element it does not have to follow.  When every item has a
    [position], or none has, the comparator is a consistent ordering and
    every stable sort returns this array; on a mix of both the engine's
    order is its own, and only the fact that the result is a permutation
    of the input is relied on. *)
Fixpoint insert_sorted (a : T) (l : list T) : list T :=
  match l with
  | [] => [a]
  | b :: rest =>
      if num_gt (compare_items a b) 0 then b :: insert_sorted a rest
      else a :: b :: rest
  end.

Fixpoint sort_items (l : list T) : list T :=
  match l with
  | [] => []
  | a :: rest => insert_sorted a (sort_items rest)
  end.

(** [serverEndTimes.indexOf(Math.min(...serverEndTimes))] *)
Definition soonest_server (serverEndTimes : list Q) : option nat :=
  match Math_min_spread serverEndTimes with
  | None => None
  | Some m => indexOf m serverEndTimes
  end.

(** The body of the [map] callback, threading [serverEndTimes]; each
    assignment is paired with the [serverIndex] that was chosen, which
    the returned objects do not carry. *)
Fixpoint assign_servers (serverEndTimes : list Q) (queue : list T)
    : option (list (nat * Assignment.t T)) :=
  match queue with
  | [] => Some []
  | item :: rest =>
      match soonest_server serverEndTimes with
      | None => None
      | Some serverIndex =>
          let startTime := nth serverIndex serverEndTimes 0 in
          let endTime := num_add startTime (serviceTime item) in
          let serverEndTimes := assign_at serverIndex endTime serverEndTimes in
          match assign_servers serverEndTimes rest with
          | None => None
          | Some tail =>
              Some ((serverIndex, Assignment.mk item startTime endTime) :: tail)
          end
      end
  end.

(** [calculateCompletionTimes(queueData, numServers = 1)] *)
Definition calculateCompletionTimes (queueData : list T) (numServers : option Q)
    : result (Completion T) :=
  let numServers := orDefault numServers 1 in
  match queueData with
  | [] => Ok (Assignments [])
  | _ :: _ =>
      let sortedQueue := sort_items queueData in
      match Array_fill numServers 0 with
      | Throw e => Throw e
      | Ok serverEndTimes =>
          match assign_servers serverEndTimes sortedQueue with
          | Some trace => Ok (Assignments (map snd trace))
          | None => Ok (NotANumber sortedQueue)
          end
      end
  end.

End CompletionTimes.

(** The items of the examples: objects [{ serviceTime: s }]. *)
Record PlainItem : Type := plain { plain_serviceTime : Q }.

#[export] Instance PlainItem_QueueItem : QueueItem PlainItem := {
  serviceTime := plain_serviceTime;
  position := fun _ => None
}.

(** Items that also have a [position]: [{ serviceTime: s, position: p }]. *)
Record PositionedItem : Type := positioned {
  positioned_serviceTime : Q;
  positioned_position : Q
}.

#[export] Instance PositionedItem_QueueItem : QueueItem PositionedItem := {
  serviceTime := positioned_serviceTime;
  position := fun i => Some (positioned_position i)
}.

(** [formatPosition(position)], on a whole position. *)
Definition formatPosition (position : Z) : string :=
  (if position <=? 0 then "Next"
   else
     let lastDigit := Z.rem position 10 in
     let lastTwoDigits := Z.rem position 100 in
     if (11 <=? lastTwoDigits) && (lastTwoDigits <=? 13)
     then Text.Number_toString position ++ "th"
     else if lastDigit =? 1 then Text.Number_toString position ++ "st"
     else if lastDigit =? 2 then Text.Number_toString position ++ "nd"
     else if lastDigit =? 3 then Text.Number_toString position ++ "rd"
     else Text.Number_toString position ++ "th")%Z%string.

End QueueUtils.

(** ** utils/notifications.ts *)

Module NotificationUtils.
Import JS.
Local Open Scope string_scope.

(** [Date.prototype.toISOString]: the UTC calendar reading of a time
    value, [YYYY-MM-DDTHH:mm:ss.sssZ] (a sign and six digits for a year
    outside 0..9999). *)
Module ISO.
Local Open Scope Z_scope.

Definition msPerDay : Z := 86400000.

(** Zero-padded decimal digits of a non-negative integer. *)
Fixpoint pad (width : nat) (n : Z) : string :=
  match width with
  | O => EmptyString
  | S k => pad k (n / 10) ++ String (ascii_of_nat (48 + Z.to_nat (n mod 10))) EmptyString
  end.

(** Year, month (1..12) and day of the month of a day number counted
    from 1970-01-01, in the proleptic Gregorian calendar. *)
Definition civil (day : Z) : Z * Z * Z :=
  let z := day + 719468 in
  let era := z / 146097 in
  let doe := z - era * 146097 in
  let yoe := (doe - doe / 1460 + doe / 36524 - doe / 146096) / 365 in
  let doy := doe - (365 * yoe + yoe / 4 - yoe / 100) in
  let mp := (5 * doy + 2) / 153 in
  let d := doy - (153 * mp + 2) / 5 + 1 in
  let m := if mp <? 10 then mp + 3 else mp - 9 in
  let y := yoe + era * 400 + (if m <=? 2 then 1 else 0) in
  (y, m, d).

Definition year_string (y : Z) : string :=
  if (0 <=? y) && (y <=? 9999) then pad 4 y
  else if y <? 0 then "-" ++ pad 6 (- y)
  else "+" ++ pad 6 y.

Definition toISOString (d : Date) : string :=
  let day := d / msPerDay in
  let ms := d mod msPerDay in
  let '(y, m, dd) := civil day in
  year_string y ++ "-" ++ pad 2 m ++ "-" ++ pad 2 dd ++ "T"
    ++ pad 2 (ms / 3600000) ++ ":" ++ pad 2 ((ms / 60000) mod 60) ++ ":"
    ++ pad 2 ((ms / 1000) mod 60) ++ "." ++ pad 3 (ms mod 1000) ++ "Z".

End ISO.

Inductive NotificationType : Type :=
| QUEUE_UPDATE | POSITION_CHANGED | YOUR_TURN_SOON | YOUR_TURN_NOW
| QUEUE_PAUSED | QUEUE_RESUMED | QUEUE_CLOSED
| APPOINTMENT_REMINDER | CUSTOM_MESSAGE.

Inductive Priority : Type := priority_default | priority_high | priority_max.

(** The values stored in [data: Record<string, any>]. *)
Inductive JSValue : Type :=
| VUndefined
| VBoolean (b : bool)
| VNumber (n : Q)
| VString (s : string).

(** An object: its own properties, in insertion order (the place an
    engine gives to integer-like keys is not modelled; no statement
    below observes the order). *)
Definition Object : Type := list (string * JSValue).

(** [o[k] = v]: an existing property keeps its place and takes the new
    value; a new one goes last. *)
Fixpoint set_property (k : string) (v : JSValue) (o : Object) : Object :=
  match o with
  | [] => [(k, v)]
  | (k', v') :: rest =>
      if k' =? k then (k, v) :: rest else (k', v') :: set_property k v rest
  end.

(** The object literal [{ k1: v1, ..., kn: vn, ...data }]. *)
Definition literal (props : list (string * JSValue)) (data : Object) : Object :=
  fold_left (fun o kv => set_property (fst kv) (snd kv) o) (props ++ data) [].

(** The names every object inherits from [Object.prototype]. *)
Definition Object_prototype_keys : list string :=
  ["constructor"; "__defineGetter__"; "__defineSetter__"; "hasOwnProperty";
   "__lookupGetter__"; "__lookupSetter__"; "isPrototypeOf";
   "propertyIsEnumerable"; "toString"; "valueOf"; "__proto__";
   "toLocaleString"].

(** [o[k]], for a key [k] that is not one of [Object_prototype_keys]: the
    value of the own property, [undefined] when there is none.  (For an
    inherited name that [o] does not define itself, [o[k]] is the method
    of the prototype, which is not a [JSValue].) *)
Fixpoint get_property (k : string) (o : Object) : JSValue :=
  match o with
  | [] => VUndefined
  | (k', v) :: rest => if k' =? k then v else get_property k rest
  end.

Module Payload.
Record t : Type := mk {
  type : NotificationType;
  title : string;
  message : string;
  data : Object;
  priority : Priority;
  sound : option bool
}.
End Payload.

(** [createYourTurnNowNotification(queueName, data = {})] *)
Definition createYourTurnNowNotification (w : World)
    (queueName : string) (data : option Object) : Payload.t :=
  let data := orDefault data [] in
  Payload.mk YOUR_TURN_NOW
    "It's Your Turn!"
    ("Please proceed to " ++ queueName ++ ".")
    (literal [("queueName", VString queueName);
              ("timestamp", VString (ISO.toISOString (clock w)))] data)
    priority_max
    (Some true).

(** The [status] argument of [createQueueStatusNotification]. *)
Inductive QueueStatus : Type := PAUSED | RESUMED | CLOSED.

Definition status_name (s : QueueStatus) : string :=
  match s with PAUSED => "PAUSED" | RESUMED => "RESUMED" | CLOSED => "CLOSED" end.

(** [`QUEUE_${status}` as NotificationType] *)
Definition status_type (s : QueueStatus) : NotificationType :=
  match s with
  | PAUSED => QUEUE_PAUSED | RESUMED => QUEUE_RESUMED | CLOSED => QUEUE_CLOSED
  end.

(** Truthiness of an optional string: absent or empty is falsy. *)
Definition truthy (s : option string) : bool :=
  match s with
  | None => false
  | Some EmptyString => false
  | Some _ => true
  end.

Definition optional_string (s : option string) : JSValue :=
  match s with None => VUndefined | Some x => VString x end.

(** [createQueueStatusNotification(status, queueName, reason?, data = {})];
    the initial [message], built with [status.toLowerCase()], is
    overwritten on each of the three statuses. *)
Definition createQueueStatusNotification (w : World)
    (status : QueueStatus) (queueName : string) (reason : option string)
    (data : option Object) : Payload.t :=
  let data := orDefault data [] in
  let type := status_type status in
  let '(title, message) :=
    match status with
    | PAUSED =>
        ("Queue Paused",
         if truthy reason
         then "The queue for " ++ queueName ++ " has been paused: "
                ++ orDefault reason ""
         else "The queue for " ++ queueName ++ " has been paused.")
    | RESUMED =>
        ("Queue Resumed", "The queue for " ++ queueName ++ " has been resumed.")
    | CLOSED =>
        ("Queue Closed", "The queue for " ++ queueName ++ " has been closed.")
    end in
  Payload.mk type title message
    (literal [("queueName", VString queueName);
              ("status", VString (status_name status));
              ("reason", optional_string reason);
              ("timestamp", VString (ISO.toISOString (clock w)))] data)
    priority_high
    None.

(** [createCustomNotification(title, message, data = {})] *)
Definition createCustomNotification (w : World)
    (title message : string) (data : option Object) : Payload.t :=
  let data := orDefault data [] in
  Payload.mk CUSTOM_MESSAGE title message
    (literal [("timestamp", VString (ISO.toISOString (clock w)))] data)
    priority_default
    None.

(** [getStatusDisplayText(status)] and [getStatusColor(status)]; the
    [default] branches are out of reach of the five statuses. *)
Definition getStatusDisplayText (status : QueueUtils.QueueEntryStatus) : string :=
  match status with
  | QueueUtils.WAITING => "Waiting"
  | QueueUtils.CALLED => "Called"
  | QueueUtils.SERVED => "Served"
  | QueueUtils.NOSHOW => "No Show"
  | QueueUtils.CANCELLED => "Cancelled"
  end.

Definition getStatusColor (status : QueueUtils.QueueEntryStatus) : string :=
  match status with
  | QueueUtils.WAITING => "#3498db"
  | QueueUtils.CALLED => "#f39c12"
  | QueueUtils.SERVED => "#2ecc71"
  | QueueUtils.NOSHOW => "#e74c3c"
  | QueueUtils.CANCELLED => "#95a5a6"
  end.

Definition type_eqb (a b : NotificationType) : bool :=
  match a, b with
  | QUEUE_UPDATE, QUEUE_UPDATE | POSITION_CHANGED, POSITION_CHANGED
  | YOUR_TURN_SOON, YOUR_TURN_SOON | YOUR_TURN_NOW, YOUR_TURN_NOW
  | QUEUE_PAUSED, QUEUE_PAUSED | QUEUE_RESUMED, QUEUE_RESUMED
  | QUEUE_CLOSED, QUEUE_CLOSED | APPOINTMENT_REMINDER, APPOINTMENT_REMINDER
  | CUSTOM_MESSAGE, CUSTOM_MESSAGE => true
  | _, _ => false
  end.

(** The accumulator of [groupNotifications], a
    [Record<string, NotificationPayload[]>]: one entry per type met so
    far, in the order the types were first met. *)
Definition Groups : Type := list (NotificationType * list Payload.t).

(** [groups[type]], [undefined] when the type has no entry. *)
Fixpoint group_of (type : NotificationType) (groups : Groups)
    : option (list Payload.t) :=
  match groups with
  | [] => None
  | (t, g) :: rest => if type_eqb t type then Some g else group_of type rest
  end.

(** [groups[type] = group] *)
Fixpoint set_group (type : NotificationType) (group : list Payload.t)
    (groups : Groups) : Groups :=
  match groups with
  | [] => [(type, group)]
  | (t, g) :: rest =>
      if type_eqb t type then (t, group) :: rest
      else (t, g) :: set_group type group rest
  end.

(** [groupNotifications(notifications)]: the [reduce] over the list. *)
Definition groupNotifications (notifications : list Payload.t) : Groups :=
  fold_left
    (fun groups notification =>
       let group := orDefault (group_of (Payload.type notification) groups) [] in
       let group := (group ++ [notification])%list in
       set_group (Payload.type notification) group groups)
    notifications [].

(** [Array.prototype.sort] with a comparator, as a stable insertion
    sort: see [QueueUtils.sort_items].  A comparator may return [NaN],
    here [None], which [sort] reads as 0. *)
Section Sort.
Context {A : Type} (compare : A -> A -> option Q).

Definition comes_after (a b : A) : bool :=
  match compare a b with
  | Some v => num_gt v 0
  | None => false
  end.

Fixpoint insert_by (a : A) (l : list A) : list A :=
  match l with
  | [] => [a]
  | b :: rest =>
      if comes_after a b then b :: insert_by a rest
      else a :: b :: rest
  end.

Fixpoint Array_sort (l : list A) : list A :=
  match l with
  | [] => []
  | a :: rest => insert_by a (Array_sort rest)
  end.

End Sort.

(** [priorityOrder] *)
Definition priorityOrder (p : Priority) : Q :=
  match p with
  | priority_max => 0
  | priority_high => 1
  | priority_default => 2
  end.

(** Truthiness of a value. *)
Definition truthy_value (v : JSValue) : bool :=
  match v with
  | VUndefined => false
  | VBoolean b => b
  | VNumber n => negb (Qeq_bool n 0)
  | VString EmptyString => false
  | VString _ => true
  end.

(** [sortNotifications(notifications)].  [new Date(value).getTime()],
    the parser of timestamps, is taken as given: it returns a time
    value, a whole number of milliseconds, or the [NaN] of an Invalid
    Date, here [None].  Every payload here has a [priority]; one without
    would be ranked as [default]. *)
Section SortNotifications.
Variable Date_parse : JSValue -> option Z.

Definition timestamp_of (a : Payload.t) : option Q :=
  let timestamp := get_property "timestamp" (Payload.data a) in
  if truthy_value timestamp then option_map inject_Z (Date_parse timestamp)
  else Some 0%Q.

(** The comparator; a difference with [NaN] is [NaN]. *)
Definition compare_notifications (a b : Payload.t) : option Q :=
  let priorityA := priorityOrder (Payload.priority a) in
  let priorityB := priorityOrder (Payload.priority b) in
  if negb (strict_eq priorityA priorityB) then Some (num_sub priorityA priorityB)
  else
    let timeA := timestamp_of a in
    let timeB := timestamp_of b in
    match timeB, timeA with
    | Some timeB, Some timeA => Some (num_sub timeB timeA)
    | _, _ => None
    end.

Definition sortNotifications (notifications : list Payload.t)
    : list Payload.t :=
  Array_sort compare_notifications notifications.

End SortNotifications.

End NotificationUtils.

(** ** utils/geo.ts *)

Module GeoUtils.
Local Open Scope R_scope.

Record Coordinates : Type := mkCoordinates { lat : R; lng : R }.

(** What the validation layer guarantees of a coordinate pair. *)
Definition valid (c : Coordinates) : Prop :=
  -90 <= lat c <= 90 /\ -180 <= lng c <= 180.

Definition EARTH_RADIUS_KM : R := 6371.

Inductive DistanceUnit : Type := km | m | mi | ft.

(** [Math.atan2(y, x)], by quadrant. *)
Definition Math_atan2 (y x : R) : R :=
  if Rlt_dec 0 x then atan (y / x)
  else if Rlt_dec x 0 then
    if Rle_dec 0 y then atan (y / x) + PI else atan (y / x) - PI
  else if Rlt_dec 0 y then PI / 2
  else if Rlt_dec y 0 then - (PI / 2)
  else 0.

(** The integer part towards zero, and the remainder [a % b], whose sign
    is that of [a]. *)
Definition Rtrunc (x : R) : Z :=
  if Rle_dec 0 x then Int_part x else (- Int_part (- x))%Z.

Definition rem (a b : R) : R := a - b * IZR (Rtrunc (a / b)).

Definition toRad (degrees : R) : R := (degrees * PI) / 180.

(** [calculateDestination(start, distance, bearing, unit = 'km')] *)
Definition calculateDestination (start : Coordinates) (distance bearing : R)
    (unit : option DistanceUnit) : Coordinates :=
  let unit := match unit with Some u => u | None => km end in
  let distanceKm :=
    match unit with
    | km => distance
    | m => distance / 1000
    | _ => distance * 1.60934
    end in
  let lat1 := toRad (lat start) in
  let lng1 := toRad (lng start) in
  let bearingRad := toRad bearing in
  let angularDistance := distanceKm / EARTH_RADIUS_KM in
  let lat2 :=
    asin (sin lat1 * cos angularDistance
          + cos lat1 * sin angularDistance * cos bearingRad) in
  let lng2 :=
    lng1
    + Math_atan2 (sin bearingRad * sin angularDistance * cos lat1)
                 (cos angularDistance - sin lat1 * sin lat2) in
  {| lat := (lat2 * 180) / PI;
     lng := rem ((lng2 * 180) / PI + 540) 360 - 180 |}.


(** [calculateDistance(coord1, coord2, unit = 'km')] *)
Definition calculateDistance (coord1 coord2 : Coordinates)
    (unit : option DistanceUnit) : R :=
  let unit := match unit with Some u => u | None => km end in
  let dLat := toRad (lat coord2 - lat coord1) in
  let dLon := toRad (lng coord2 - lng coord1) in
  let a :=
    sin (dLat / 2) * sin (dLat / 2)
    + cos (toRad (lat coord1)) * cos (toRad (lat coord2))
      * sin (dLon / 2) * sin (dLon / 2) in
  let c := 2 * Math_atan2 (sqrt a) (sqrt (1 - a)) in
  let distance := EARTH_RADIUS_KM * c in
  match unit with
  | m => distance * 1000
  | mi => distance * 0.621371
  | ft => distance * 3280.84
  | km => distance
  end.

(** [isWithinRadius(point, center, radius, unit = 'km')] *)
Definition isWithinRadius (point center : Coordinates) (radius : R)
    (unit : option DistanceUnit) : bool :=
  let distance := calculateDistance point center unit in
  if Rle_dec distance radius then true else false.

Module BoundingBox.
Record t : Type := mk { minLat : R; maxLat : R; minLng : R; maxLng : R }.
End BoundingBox.

(** [getBoundingBox(center, radius, unit = 'km')] *)
Definition getBoundingBox (center : Coordinates) (radius : R)
    (unit : option DistanceUnit) : BoundingBox.t :=
  let unit := match unit with Some u => u | None => km end in
  let radiusKm :=
    match unit with
    | km => radius
    | m => radius / 1000
    | _ => radius * 1.60934
    end in
  let R_ := 6371 in
  let lat_ := toRad (lat center) in
  let lng_ := toRad (lng center) in
  let d := radiusKm / R_ in
  let minLat := lat_ - d in
  let maxLat := lat_ + d in
  let minLng := lng_ - d / cos lat_ in
  let maxLng := lng_ + d / cos lat_ in
  BoundingBox.mk ((minLat * 180) / PI) ((maxLat * 180) / PI)
    ((minLng * 180) / PI) ((maxLng * 180) / PI).




End GeoUtils.

(** * Properties *)

(** Linear arithmetic over the rationals. *)
Ltac lqa := Lqa.lra.

(** ** Numbers *)

Module NumberFacts.
Import JS.
Local Open Scope Q_scope.

Lemma num_le_iff (a b : Q) : num_le a b = true <-> a <= b.
Proof. apply Qle_bool_iff. Qed.

Lemma num_lt_iff (a b : Q) : num_lt a b = true <-> a < b.
Proof.
  unfold num_lt. rewrite negb_true_iff. split.
  - intros E. apply Qnot_le_lt. intros L.
    apply Qle_bool_iff in L. congruence.
  - intros L. destruct (Qle_bool b a) eqn:E; [|reflexivity].
    apply Qle_bool_iff in E. exfalso. exact (Qlt_not_le _ _ L E).
Qed.

Lemma num_lt_false_iff (a b : Q) : num_lt a b = false <-> b <= a.
Proof.
  unfold num_lt. rewrite negb_false_iff. apply Qle_bool_iff.
Qed.

Lemma num_le_false_iff (a b : Q) : num_le a b = false <-> b < a.
Proof.
  split.
  - intros E. apply Qnot_le_lt. intros L. apply num_le_iff in L. congruence.
  - intros L. destruct (num_le a b) eqn:E; [|reflexivity].
    apply num_le_iff in E. exfalso. exact (Qlt_not_le _ _ L E).
Qed.

Lemma num_gt_iff (a b : Q) : num_gt a b = true <-> b < a.
Proof. apply num_lt_iff. Qed.

Lemma num_gt_false_iff (a b : Q) : num_gt a b = false <-> a <= b.
Proof. apply num_lt_false_iff. Qed.

(** The case analysis every use of [Math.max] and [Math.min] needs. *)
Lemma Math_max_cases (a b : Q) :
  (a < b /\ Math_max a b = b) \/ (b <= a /\ Math_max a b = a).
Proof.
  unfold Math_max. destruct (num_lt a b) eqn:E.
  - left. split; [apply num_lt_iff; exact E | reflexivity].
  - right. split; [apply num_lt_false_iff; exact E | reflexivity].
Qed.

Lemma Math_min_cases (a b : Q) :
  (b < a /\ Math_min a b = b) \/ (a <= b /\ Math_min a b = a).
Proof.
  unfold Math_min. destruct (num_lt b a) eqn:E.
  - left. split; [apply num_lt_iff; exact E | reflexivity].
  - right. split; [apply num_lt_false_iff; exact E | reflexivity].
Qed.

Lemma Math_max_Qmax (a b : Q) : Math_max a b == Qmax a b.
Proof.
  destruct (Math_max_cases a b) as [[L ->]|[L ->]].
  - symmetry. apply Q.max_r. apply Qlt_le_weak. exact L.
  - symmetry. apply Q.max_l. exact L.
Qed.


Lemma Math_max_lower (a b : Q) : a <= Math_max a b.
Proof.
  destruct (Math_max_cases a b) as [[L ->]|[L ->]];
    [apply Qlt_le_weak; exact L | apply Qle_refl].
Qed.

Lemma Math_round_is_integer (x : Q) : is_integer (Math_round x).
Proof. exists (Qfloor (x + (1 # 2))). reflexivity. Qed.

Lemma Math_round_bounds (x : Q) :
  x - (1 # 2) < Math_round x /\ Math_round x <= x + (1 # 2).
Proof.
  unfold Math_round.
  pose proof (Qfloor_le (x + (1 # 2))) as Hle.
  pose proof (Qlt_floor (x + (1 # 2))) as Hlt.
  rewrite inject_Z_plus in Hlt. change (inject_Z 1) with 1 in Hlt.
  split; lqa.
Qed.

Lemma Math_round_eq (x y : Q) : x == y -> Math_round x = Math_round y.
Proof.
  intros E. unfold Math_round. f_equal. apply Qfloor_comp.
  rewrite E. reflexivity.
Qed.

Lemma Math_round_inject_Z (z : Z) : Math_round (inject_Z z) = inject_Z z.
Proof.
  unfold Math_round. f_equal.
  pose proof (Qfloor_le (inject_Z z + (1 # 2))) as Hle.
  pose proof (Qlt_floor (inject_Z z + (1 # 2))) as Hlt.
  set (f := Qfloor (inject_Z z + (1 # 2))) in *.
  rewrite inject_Z_plus in Hlt. change (inject_Z 1) with 1 in Hlt.
  assert (L1 : inject_Z f < inject_Z (z + 1)).
  { rewrite inject_Z_plus. change (inject_Z 1) with 1.
    lqa. }
  assert (L2 : inject_Z z < inject_Z (f + 1)).
  { rewrite inject_Z_plus. change (inject_Z 1) with 1.
    lqa. }
  rewrite <- Zlt_Qlt in L1, L2. lia.
Qed.

(** Rounding leaves a number alone exactly when it is an integer. *)
Lemma Math_round_fixed_iff (x : Q) : Math_round x == x <-> is_integer x.
Proof.
  split.
  - intros E. exists (Qfloor (x + (1 # 2))). symmetry. exact E.
  - intros [z E]. rewrite (Math_round_eq _ _ E), Math_round_inject_Z.
    symmetry. exact E.
Qed.

Lemma Math_round_monotone (x y : Q) : x <= y -> Math_round x <= Math_round y.
Proof.
  intros L. unfold Math_round. rewrite <- Zle_Qle.
  apply Qfloor_resp_le. lqa.
Qed.

Lemma Math_round_0 : Math_round 0 = 0.
Proof. reflexivity. Qed.

Lemma Math_round_nonneg (x : Q) : 0 <= x -> 0 <= Math_round x.
Proof.
  intros L. rewrite <- Math_round_0. apply Math_round_monotone. exact L.
Qed.

Lemma Math_round_nonpos (x : Q) : x <= 0 -> Math_round x <= 0.
Proof.
  intros L. rewrite <- Math_round_0. apply Math_round_monotone. exact L.
Qed.

Lemma is_integer_inject_Z (z : Z) : is_integer (inject_Z z).
Proof. exists z. reflexivity. Qed.

Lemma is_integer_mult (x y : Q) : is_integer x -> is_integer y -> is_integer (x * y).
Proof.
  intros [a Ea] [b Eb]. exists (a * b)%Z.
  rewrite Ea, Eb, inject_Z_mult. reflexivity.
Qed.

End NumberFacts.

(** ** Double precision *)

Module DoubleFacts.
Import JS.
Local Open Scope Q_scope.

Lemma pow2_pos (e : Z) : 0 < pow2 e.
Proof. apply Qpower_0_lt. reflexivity. Qed.

Lemma pow2_plus (a b : Z) : pow2 (a + b) == pow2 a * pow2 b.
Proof. apply Qpower_plus. discriminate. Qed.

Lemma pow2_minus (a b : Z) : pow2 (a - b) == pow2 a / pow2 b.
Proof. apply Qpower_minus. discriminate. Qed.

Lemma pow2_le (a b : Z) : (a <= b)%Z -> pow2 a <= pow2 b.
Proof. intros L. apply Qpower_le_compat_l; [exact L | discriminate]. Qed.

Lemma pow2_lt (a b : Z) : (a < b)%Z -> pow2 a < pow2 b.
Proof. intros L. apply Qpower_lt_compat_l; [exact L | reflexivity]. Qed.

Lemma pow2_lt_inv (a b : Z) : pow2 a < pow2 b -> (a < b)%Z.
Proof. intros L. apply (Qpower_lt_compat_l_inv 2); [exact L | reflexivity]. Qed.

Lemma pow2_Z (k : Z) : (0 <= k)%Z -> pow2 k == inject_Z (2 ^ k).
Proof. intros K. unfold pow2. rewrite Zpower_Qpower by exact K. reflexivity. Qed.

(** Fractions of integers, compared by cross multiplication. *)
Lemma frac_lt (n d a b : Z) :
  (0 < d)%Z -> (0 < b)%Z -> (n * b < a * d)%Z ->
  inject_Z n / inject_Z d < inject_Z a / inject_Z b.
Proof.
  intros D B L.
  assert (D' : 0 < inject_Z d) by (rewrite <- (Zlt_Qlt 0); exact D).
  assert (B' : 0 < inject_Z b) by (rewrite <- (Zlt_Qlt 0); exact B).
  apply Qlt_shift_div_l; [exact B'|].
  setoid_replace (inject_Z n / inject_Z d * inject_Z b)
    with (inject_Z (n * b) / inject_Z d)
    by (rewrite inject_Z_mult; field; lqa).
  apply Qlt_shift_div_r; [exact D'|].
  rewrite <- inject_Z_mult, <- Zlt_Qlt. exact L.
Qed.

Lemma Q_as_fraction (x : Q) : x == inject_Z (Qnum x) / inject_Z (Zpos (Qden x)).
Proof. destruct x as [n d]. simpl. apply Qmake_Qdiv. Qed.

Lemma ilog2_spec (x : Q) :
  0 < x -> pow2 (ilog2 x) <= x /\ x < pow2 (ilog2 x + 1).
Proof.
  intros X. unfold ilog2.
  set (n := Qnum x). set (d := Zpos (Qden x)).
  assert (N : (0 < n)%Z).
  { unfold n. destruct x as [a b]. unfold Qlt in X. simpl in *. lia. }
  assert (D : (0 < d)%Z) by (unfold d; lia).
  destruct (Z.log2_spec n N) as [A1 A2].
  destruct (Z.log2_spec d D) as [B1 B2].
  pose proof (Z.log2_nonneg n) as An. pose proof (Z.log2_nonneg d) as Bn.
  set (a := Z.log2 n) in *. set (b := Z.log2 d) in *.
  assert (Pa : (0 < 2 ^ a)%Z) by (apply Z.pow_pos_nonneg; lia).
  assert (Pb : (0 < 2 ^ b)%Z) by (apply Z.pow_pos_nonneg; lia).
  assert (Sa : (2 ^ Z.succ a = 2 * 2 ^ a)%Z) by (apply Z.pow_succ_r; lia).
  assert (Sb : (2 ^ Z.succ b = 2 * 2 ^ b)%Z) by (apply Z.pow_succ_r; lia).
  assert (lower : pow2 (a - b - 1) < x).
  { rewrite (Q_as_fraction x). fold n d.
    replace (a - b - 1)%Z with (a - (b + 1))%Z by lia.
    rewrite pow2_minus, !pow2_Z by lia.
    apply frac_lt;
      [apply Z.pow_pos_nonneg; lia | lia
      | replace (b + 1)%Z with (Z.succ b) by lia; nia]. }
  assert (upper : x < pow2 (a - b + 1)).
  { rewrite (Q_as_fraction x). fold n d.
    replace (a - b + 1)%Z with (a + 1 - b)%Z by lia.
    rewrite pow2_minus, !pow2_Z by lia.
    apply frac_lt;
      [lia | lia | replace (a + 1)%Z with (Z.succ a) by lia; nia]. }
  destruct (Qle_bool (pow2 (a - b)) x) eqn:E.
  - apply Qle_bool_iff in E. split; [exact E | exact upper].
  - split; [apply Qlt_le_weak; exact lower|].
    replace (a - b - 1 + 1)%Z with (a - b)%Z by lia.
    apply Qnot_le_lt. intros L. apply Qle_bool_iff in L. congruence.
Qed.

Lemma ilog2_unique (x : Q) (k : Z) :
  pow2 k <= x -> x < pow2 (k + 1) -> ilog2 x = k.
Proof.
  intros L U.
  assert (X : 0 < x) by (pose proof (pow2_pos k); lqa).
  destruct (ilog2_spec x X) as [L' U'].
  assert (A : (k < ilog2 x + 1)%Z) by (apply pow2_lt_inv; lqa).
  assert (B : (ilog2 x < k + 1)%Z) by (apply pow2_lt_inv; lqa).
  lia.
Qed.

Lemma ilog2_comp (x y : Q) : 0 < x -> x == y -> ilog2 x = ilog2 y.
Proof.
  intros X E. destruct (ilog2_spec x X) as [L U].
  symmetry. apply ilog2_unique; rewrite <- E; assumption.
Qed.

Lemma ilog2_le (x y : Q) : 0 < x -> x <= y -> (ilog2 x <= ilog2 y)%Z.
Proof.
  intros X L. destruct (ilog2_spec x X) as [L1 U1].
  destruct (ilog2_spec y) as [L2 U2]; [lqa|].
  assert (A : (ilog2 x < ilog2 y + 1)%Z) by (apply pow2_lt_inv; lqa).
  lia.
Qed.

(** *** Rounding to the nearest integer, ties to even *)

Lemma round_half_even_comp (p q : Q) :
  p == q -> round_half_even p = round_half_even q.
Proof.
  intros E. unfold round_half_even.
  rewrite (Qfloor_comp _ _ E).
  replace (Qcompare (p - inject_Z (Qfloor q)) (1 # 2))
    with (Qcompare (q - inject_Z (Qfloor q)) (1 # 2)); [reflexivity|].
  apply Qcompare_comp; [rewrite E; reflexivity | reflexivity].
Qed.

Lemma round_half_even_cases (q : Q) :
  let f := Qfloor q in
  let r := q - inject_Z f in
  0 <= r /\ r < 1
  /\ ((r < 1 # 2 /\ round_half_even q = f)
      \/ (1 # 2 < r /\ round_half_even q = (f + 1)%Z)
      \/ (r == 1 # 2 /\ Z.even f = true /\ round_half_even q = f)
      \/ (r == 1 # 2 /\ Z.even f = false /\ round_half_even q = (f + 1)%Z)).
Proof.
  intros f r. pose proof (Qfloor_le q) as F1. pose proof (Qlt_floor q) as F2.
  fold f in F1, F2. rewrite inject_Z_plus in F2.
  change (inject_Z 1) with 1 in F2.
  split; [unfold r; lqa|]. split; [unfold r; lqa|].
  unfold round_half_even. fold f. fold r.
  destruct (Qcompare r (1 # 2)) eqn:E.
  - apply Qeq_alt in E. destruct (Z.even f) eqn:P; tauto.
  - apply Qlt_alt in E. tauto.
  - apply Qgt_alt in E. tauto.
Qed.

Lemma round_half_even_Z (z : Z) : round_half_even (inject_Z z) = z.
Proof.
  pose proof (round_half_even_cases (inject_Z z)) as [_ [_ C]].
  rewrite Qfloor_Z in C. cbv zeta in C.
  assert (R : inject_Z z - inject_Z z == 0) by ring.
  destruct C as [[_ E]|[[L _]|[[L _]|[L _]]]]; try exact E;
    rewrite R in L; exfalso; revert L; unfold Qlt, Qeq; simpl; lia.
Qed.

Lemma round_half_even_near (q : Q) :
  q - (1 # 2) <= inject_Z (round_half_even q)
  /\ inject_Z (round_half_even q) <= q + (1 # 2).
Proof.
  pose proof (round_half_even_cases q) as [R0 [R1 C]]. cbv zeta in *.
  destruct C as [[L ->]|[[L ->]|[[L [_ ->]]|[L [_ ->]]]]];
    rewrite ?inject_Z_plus; change (inject_Z 1) with 1; split; lqa.
Qed.

Lemma round_half_even_le (p q : Q) :
  p <= q -> (round_half_even p <= round_half_even q)%Z.
Proof.
  intros L.
  pose proof (round_half_even_cases p) as [P0 [P1 CP]].
  pose proof (round_half_even_cases q) as [Q0 [Q1 CQ]]. cbv zeta in *.
  pose proof (Qfloor_resp_le _ _ L) as F.
  destruct (Z.eq_dec (Qfloor p) (Qfloor q)) as [E|N].
  - rewrite E in *.
    destruct CP as [[A ->]|[[A ->]|[[A [Ep ->]]|[A [Ep ->]]]]];
    destruct CQ as [[B ->]|[[B ->]|[[B [Eq ->]]|[B [Eq ->]]]]];
      try lia; try congruence; exfalso; lqa.
  - assert (S : (Qfloor p + 1 <= Qfloor q)%Z) by lia.
    destruct CP as [[A ->]|[[A ->]|[[A [Ep ->]]|[A [Ep ->]]]]];
    destruct CQ as [[B ->]|[[B ->]|[[B [Eq ->]]|[B [Eq ->]]]]]; lia.
Qed.

Lemma round_half_even_opp (q : Q) :
  round_half_even (- q) = (- round_half_even q)%Z.
Proof.
  pose proof (round_half_even_cases q) as [Q0 [Q1 CQ]].
  pose proof (round_half_even_cases (- q)) as [P0 [P1 CP]]. cbv zeta in *.
  pose proof (Qfloor_le q) as F1. pose proof (Qlt_floor q) as F2.
  pose proof (Qfloor_le (- q)) as G1. pose proof (Qlt_floor (- q)) as G2.
  rewrite inject_Z_plus in F2, G2. change (inject_Z 1) with 1 in F2, G2.
  set (f := Qfloor q) in *. set (g := Qfloor (- q)) in *.
  assert (K : (g = - f \/ g = - f - 1)%Z).
  { assert (A : inject_Z (- f - 2) < inject_Z g).
    { unfold Z.sub. rewrite inject_Z_plus, inject_Z_opp.
      change (inject_Z (- (2))) with (-2). lqa. }
    assert (B : inject_Z g < inject_Z (- f + 1)).
    { rewrite inject_Z_plus, inject_Z_opp. change (inject_Z 1) with 1. lqa. }
    rewrite <- Zlt_Qlt in A, B. lia. }
  destruct K as [K|K].
  - (* q is an integer *)
    assert (Eq : q == inject_Z f).
    { rewrite K, inject_Z_opp in G1. lqa. }
    rewrite (round_half_even_comp q (inject_Z f)) by exact Eq.
    rewrite (round_half_even_comp (- q) (inject_Z (- f)))
      by (rewrite Eq, inject_Z_opp; reflexivity).
    rewrite !round_half_even_Z. reflexivity.
  - assert (Rg : - q - inject_Z g == 1 - (q - inject_Z f)).
    { rewrite K. unfold Z.sub. rewrite inject_Z_plus, !inject_Z_opp.
      change (inject_Z 1) with 1. ring. }
    rewrite Rg in CP.
    assert (Ev : Z.even g = negb (Z.even f)).
    { rewrite K. replace (- f - 1)%Z with (- (f + 1))%Z by lia.
      rewrite Z.even_opp, Z.even_add. simpl. destruct (Z.even f); reflexivity. }
    destruct CQ as [[B ->]|[[B ->]|[[B [Eq ->]]|[B [Eq ->]]]]];
    destruct CP as [[A ->]|[[A ->]|[[A [Ep ->]]|[A [Ep ->]]]]];
      try lia; try (exfalso; lqa);
      rewrite Ev, Eq in Ep; simpl in Ep; congruence.
Qed.

(** *** Rounding to a double *)

Lemma Qabs_pos_iff (x : Q) : ~ x == 0 -> 0 < Qabs x.
Proof.
  intros N. destruct (Qlt_le_dec 0 (Qabs x)) as [L|L]; [exact L|].
  exfalso. apply N. pose proof (Qabs_nonneg x) as A.
  pose proof (Qle_Qabs x) as B. pose proof (Qle_Qabs (- x)) as C.
  rewrite Qabs_opp in C. lqa.
Qed.

Lemma exponent_comp (x y : Q) :
  ~ x == 0 -> x == y -> exponent x = exponent y.
Proof.
  intros N E. unfold exponent.
  rewrite (ilog2_comp (Qabs x) (Qabs y));
    [reflexivity | apply Qabs_pos_iff; exact N | rewrite E; reflexivity].
Qed.

Lemma double_zero (x : Q) : x == 0 -> double x = 0.
Proof.
  intros E. unfold double. rewrite (proj2 (Qeq_bool_iff x 0) E). reflexivity.
Qed.

Lemma double_formula (x : Q) :
  double x
  == inject_Z (round_half_even (x / pow2 (exponent x))) * pow2 (exponent x).
Proof.
  unfold double. destruct (Qeq_bool x 0) eqn:E; [|apply Qred_correct].
  apply Qeq_bool_iff in E. generalize (exponent x). intros e.
  rewrite (round_half_even_comp (x / pow2 e) (inject_Z 0)).
  - rewrite round_half_even_Z. ring.
  - rewrite E. unfold Qdiv. ring.
Qed.

#[export] Instance double_comp : Proper (Qeq ==> Qeq) double.
Proof.
  intros x y E. destruct (Qeq_dec x 0) as [Z|N].
  - rewrite (double_zero x Z), (double_zero y); [reflexivity|].
    rewrite <- E. exact Z.
  - rewrite !double_formula, (exponent_comp x y N E).
    rewrite (round_half_even_comp (x / pow2 (exponent y))
               (y / pow2 (exponent y))) by (rewrite E; reflexivity).
    reflexivity.
Qed.

Lemma exponent_opp (x : Q) : exponent (- x) = exponent x.
Proof.
  unfold exponent. destruct (Qeq_dec x 0) as [Z|N].
  - destruct x as [n d]. unfold Qeq in Z. simpl in Z.
    assert (n = 0%Z) by lia. subst n. reflexivity.
  - rewrite (ilog2_comp (Qabs (- x)) (Qabs x)); [reflexivity | |apply Qabs_opp].
    rewrite Qabs_opp. apply Qabs_pos_iff. exact N.
Qed.

Lemma double_opp (x : Q) : double (- x) == - double x.
Proof.
  rewrite !double_formula, exponent_opp.
  rewrite (round_half_even_comp (- x / pow2 (exponent x))
             (- (x / pow2 (exponent x)))) by (unfold Qdiv; ring).
  rewrite round_half_even_opp, inject_Z_opp. ring.
Qed.

Lemma double_nonneg (x : Q) : 0 <= x -> 0 <= double x.
Proof.
  intros X. rewrite double_formula.
  apply Qmult_le_0_compat; [|apply Qlt_le_weak, pow2_pos].
  change 0 with (inject_Z 0). rewrite <- Zle_Qle.
  rewrite <- (round_half_even_Z 0) at 1.
  apply round_half_even_le. change (inject_Z 0) with 0.
  apply Qle_shift_div_l; [apply pow2_pos | lqa].
Qed.

Lemma double_nonpos (x : Q) : x <= 0 -> double x <= 0.
Proof.
  intros X. assert (N : 0 <= double (- x)) by (apply double_nonneg; lqa).
  rewrite double_opp in N. lqa.
Qed.

Lemma exponent_min (x : Q) : (-1074 <= exponent x)%Z.
Proof. unfold exponent. lia. Qed.

(** A positive number, scaled by its exponent, is below 2^53; a normal
    one is at least 2^52. *)
Lemma scaled_upper (x : Q) : 0 < x -> x / pow2 (exponent x) < pow2 53.
Proof.
  intros X. destruct (ilog2_spec x X) as [_ U].
  apply Qlt_shift_div_r; [apply pow2_pos|].
  rewrite <- pow2_plus.
  assert (A : ilog2 (Qabs x) = ilog2 x).
  { apply ilog2_comp; [apply Qabs_pos_iff; lqa | apply Qabs_pos; lqa]. }
  assert (B : pow2 (ilog2 x + 1) <= pow2 (53 + exponent x)).
  { apply pow2_le. unfold exponent. rewrite A. lia. }
  lqa.
Qed.

Lemma scaled_lower (x : Q) :
  0 < x -> (-1074 < exponent x)%Z -> pow2 52 <= x / pow2 (exponent x).
Proof.
  intros X N. destruct (ilog2_spec x X) as [L _].
  apply Qle_shift_div_l; [apply pow2_pos|].
  rewrite <- pow2_plus.
  assert (A : ilog2 (Qabs x) = ilog2 x).
  { apply ilog2_comp; [apply Qabs_pos_iff; lqa | apply Qabs_pos; lqa]. }
  assert (B : pow2 (52 + exponent x) <= pow2 (ilog2 x)).
  { apply pow2_le. unfold exponent in *. rewrite A in *. lia. }
  lqa.
Qed.

Lemma round_half_even_pow2 (k : Z) :
  (0 <= k)%Z -> inject_Z (round_half_even (pow2 k)) == pow2 k.
Proof.
  intros K. rewrite (round_half_even_comp _ _ (pow2_Z k K)).
  rewrite round_half_even_Z. symmetry. apply pow2_Z. exact K.
Qed.

Lemma significand_upper (x : Q) :
  0 < x -> inject_Z (round_half_even (x / pow2 (exponent x))) <= pow2 53.
Proof.
  intros X. rewrite <- (round_half_even_pow2 53) by lia.
  rewrite <- Zle_Qle. apply round_half_even_le.
  apply Qlt_le_weak, scaled_upper. exact X.
Qed.

Lemma significand_lower (x : Q) :
  0 < x -> (-1074 < exponent x)%Z ->
  pow2 52 <= inject_Z (round_half_even (x / pow2 (exponent x))).
Proof.
  intros X N. rewrite <- (round_half_even_pow2 52) by lia.
  rewrite <- Zle_Qle. apply round_half_even_le.
  apply scaled_lower; assumption.
Qed.

Lemma exponent_le (x y : Q) : 0 < x -> x <= y -> (exponent x <= exponent y)%Z.
Proof.
  intros X L. unfold exponent.
  assert (A : ilog2 (Qabs x) = ilog2 x).
  { apply ilog2_comp; [apply Qabs_pos_iff; lqa | apply Qabs_pos; lqa]. }
  assert (B : ilog2 (Qabs y) = ilog2 y).
  { apply ilog2_comp; [apply Qabs_pos_iff; lqa | apply Qabs_pos; lqa]. }
  rewrite A, B. pose proof (ilog2_le x y X L). lia.
Qed.

Lemma double_le_pos (x y : Q) : 0 < x -> x <= y -> double x <= double y.
Proof.
  intros X L. assert (Y : 0 < y) by lqa.
  rewrite !double_formula.
  pose proof (exponent_le x y X L) as E.
  destruct (Z.eq_dec (exponent x) (exponent y)) as [Q|N].
  - rewrite Q. apply Qmult_le_compat_r; [|apply Qlt_le_weak, pow2_pos].
    rewrite <- Zle_Qle. apply round_half_even_le.
    apply Qmult_le_compat_r; [exact L|].
    apply Qlt_le_weak, Qinv_lt_0_compat, pow2_pos.
  - assert (S : (exponent x < exponent y)%Z) by lia.
    pose proof (exponent_min x) as M.
    pose proof (significand_upper x X) as U.
    assert (Ny : (-1074 < exponent y)%Z) by lia.
    pose proof (significand_lower y Y Ny) as Lo.
    pose proof (pow2_pos (exponent x)) as Px.
    pose proof (pow2_pos (exponent y)) as Py.
    apply Qle_trans with (pow2 53 * pow2 (exponent x)).
    { apply Qmult_le_compat_r; [exact U | lqa]. }
    apply Qle_trans with (pow2 52 * pow2 (exponent y)).
    { rewrite <- !pow2_plus. apply pow2_le. lia. }
    apply Qmult_le_compat_r; [exact Lo | lqa].
Qed.

(** Rounding to a double is monotone. *)
Lemma double_le (x y : Q) : x <= y -> double x <= double y.
Proof.
  intros L. destruct (Qlt_le_dec 0 x) as [X|X].
  - apply double_le_pos; assumption.
  - destruct (Qlt_le_dec y 0) as [Y|Y].
    + assert (A : double (- y) <= double (- x)) by (apply double_le_pos; lqa).
      rewrite !double_opp in A. lqa.
    + pose proof (double_nonpos x X). pose proof (double_nonneg y Y). lqa.
Qed.

Lemma Qdiv_assoc (a q p : Q) : ~ p == 0 -> a * q / p == a * (q / p).
Proof. intros P. field. exact P. Qed.

Lemma Qhalf_cancel (a q : Q) : ~ q == 0 -> 2 * a * q / (q * 2) == a.
Proof. intros P. field. exact P. Qed.

Lemma Qdiv_mult_cancel (x p : Q) : ~ p == 0 -> x / p * p == x.
Proof. intros P. field. exact P. Qed.

(** An integer of at most 53 bits times a power of two that a double
    can hold is a double. *)
Lemma double_representable (z e : Z) :
  (Z.abs z <= 2 ^ 53)%Z -> (-1074 <= e)%Z ->
  double (inject_Z z * pow2 e) == inject_Z z * pow2 e.
Proof.
  intros B E.
  assert (pos : forall z, (0 < z <= 2 ^ 53)%Z ->
            double (inject_Z z * pow2 e) == inject_Z z * pow2 e).
  { clear z B. intros z [Z0 B].
    set (x := inject_Z z * pow2 e).
    pose proof (pow2_pos e) as Pe.
    assert (Zq : 0 < inject_Z z) by (rewrite <- (Zlt_Qlt 0); exact Z0).
    assert (X : 0 < x) by (unfold x; apply Qmult_lt_0_compat; assumption).
    destruct (Z.log2_spec z Z0) as [L1 L2].
    pose proof (Z.log2_nonneg z) as L0.
    set (l := Z.log2 z) in *.
    assert (Lx : ilog2 (Qabs x) = (l + e)%Z).
    { rewrite (ilog2_comp (Qabs x) x);
        [|apply Qabs_pos_iff; lqa | apply Qabs_pos; lqa].
      apply ilog2_unique; unfold x.
      - rewrite pow2_plus. apply Qmult_le_compat_r; [|lqa].
        rewrite pow2_Z by lia. rewrite <- Zle_Qle. exact L1.
      - replace (l + e + 1)%Z with (Z.succ l + e)%Z by lia.
        rewrite pow2_plus. apply Qmult_lt_compat_r; [exact Pe|].
        rewrite pow2_Z by lia. rewrite <- Zlt_Qlt. exact L2. }
    assert (L53 : (l <= 53)%Z).
    { assert (A : (2 ^ l < 2 ^ 54)%Z) by lia.
      apply Z.pow_lt_mono_r_iff in A; lia. }
    rewrite double_formula. fold x.
    assert (Ex : exponent x = (Z.max (l + e) (-1022) - 52)%Z).
    { unfold exponent. rewrite Lx. reflexivity. }
    destruct (Z_le_dec (exponent x) e) as [Le|Gt].
    - (* the scaled value is z shifted left *)
      set (k := (e - exponent x)%Z).
      assert (S : x / pow2 (exponent x) == inject_Z (z * 2 ^ k)).
      { unfold x. rewrite inject_Z_mult, <- pow2_Z by (unfold k; lia).
        unfold k. rewrite pow2_minus. apply Qdiv_assoc.
        pose proof (pow2_pos (exponent x)). lqa. }
      rewrite (round_half_even_comp _ _ S), round_half_even_Z.
      rewrite <- S. apply Qdiv_mult_cancel.
      pose proof (pow2_pos (exponent x)). lqa.
    - (* z is 2^53 and loses one bit *)
      assert (l53 : l = 53%Z) by lia.
      assert (Zv : z = (2 ^ 53)%Z) by (rewrite l53 in L1; lia).
      assert (Ev : exponent x = (e + 1)%Z) by lia.
      assert (S : x / pow2 (exponent x) == inject_Z (2 ^ 52)).
      { rewrite Ev. unfold x. rewrite Zv, pow2_plus.
        apply (Qhalf_cancel (inject_Z (2 ^ 52))). lqa. }
      rewrite (round_half_even_comp _ _ S), round_half_even_Z.
      rewrite Ev. unfold x. rewrite Zv, pow2_plus.
      change (pow2 1) with 2.
      change (inject_Z (2 ^ 53)) with (2 * inject_Z (2 ^ 52)). ring. }
  destruct (Z.lt_trichotomy z 0) as [N|[Z|P]].
  - assert (A : double (inject_Z (- z) * pow2 e) == inject_Z (- z) * pow2 e)
      by (apply pos; lia).
    rewrite inject_Z_opp in A.
    setoid_replace (- inject_Z z * pow2 e) with (- (inject_Z z * pow2 e)) in A
      by ring.
    rewrite double_opp in A. lqa.
  - subst z. rewrite (double_comp _ 0) by ring.
    change (double 0) with 0. ring.
  - apply pos. lia.
Qed.

Lemma double_Z (z : Z) :
  (Z.abs z <= 2 ^ 53)%Z -> double (inject_Z z) == inject_Z z.
Proof.
  intros B. pose proof (double_representable z 0 B) as R.
  change (pow2 0) with 1 in R.
  rewrite (double_comp (inject_Z z) (inject_Z z * 1)) by ring.
  rewrite R by lia. ring.
Qed.

(** The result of a rounding is a double. *)
Lemma double_idempotent (x : Q) : double (double x) == double x.
Proof.
  assert (pos : forall x, 0 < x -> double (double x) == double x).
  { clear x. intros x X. rewrite (double_formula x) at 2.
    rewrite (double_comp (double x) _ (double_formula x)).
    apply double_representable; [|apply exponent_min].
    pose proof (significand_upper x X) as U.
    assert (L : 0 <= inject_Z (round_half_even (x / pow2 (exponent x)))).
    { change 0 with (inject_Z 0). rewrite <- Zle_Qle.
      rewrite <- (round_half_even_Z 0) at 1.
      apply round_half_even_le. change (inject_Z 0) with 0.
      apply Qle_shift_div_l; [apply pow2_pos | lqa]. }
    assert (U' : inject_Z (round_half_even (x / pow2 (exponent x)))
                 <= inject_Z (2 ^ 53))
      by (rewrite <- pow2_Z by lia; exact U).
    rewrite <- Zle_Qle in U'. change 0 with (inject_Z 0) in L.
    rewrite <- Zle_Qle in L. lia. }
  destruct (Qlt_le_dec 0 x) as [P|P]; [apply pos; exact P|].
  destruct (Qeq_dec x 0) as [Z|N].
  - rewrite (double_comp x 0 Z). reflexivity.
  - assert (A : double (double (- x)) == double (- x)) by (apply pos; lqa).
    rewrite (double_comp (double (- x)) _ (double_opp x)) in A.
    rewrite !double_opp in A. lqa.
Qed.

(** A normal number is rounded with a relative error of at most
    2^-53. *)
Lemma double_error (x : Q) :
  pow2 (-1022) <= Qabs x ->
  Qabs (double x - x) <= Qabs x * pow2 (-53).
Proof.
  assert (pos : forall x, pow2 (-1022) <= x ->
            Qabs (double x - x) <= x * pow2 (-53)).
  { clear x. intros x N.
    assert (X : 0 < x) by (pose proof (pow2_pos (-1022)); lqa).
    destruct (ilog2_spec x X) as [L U].
    assert (A : ilog2 (Qabs x) = ilog2 x).
    { apply ilog2_comp; [apply Qabs_pos_iff; lqa | apply Qabs_pos; lqa]. }
    assert (I : (-1022 <= ilog2 x)%Z).
    { assert (B : (-1022 < ilog2 x + 1)%Z) by (apply pow2_lt_inv; lqa). lia. }
    assert (Ex : exponent x = (ilog2 x - 52)%Z).
    { unfold exponent. rewrite A. lia. }
    pose proof (pow2_pos (exponent x)) as Pe.
    pose proof (round_half_even_near (x / pow2 (exponent x))) as [N1 N2].
    set (m := inject_Z (round_half_even (x / pow2 (exponent x)))) in *.
    assert (D : double x - x == (m - x / pow2 (exponent x)) * pow2 (exponent x)).
    { rewrite double_formula. fold m. field. lqa. }
    rewrite D, Qabs_Qmult, (Qabs_pos (pow2 (exponent x))) by lqa.
    assert (H : Qabs (m - x / pow2 (exponent x)) <= 1 # 2).
    { apply Qabs_Qle_condition. split; lqa. }
    apply Qle_trans with ((1 # 2) * pow2 (exponent x)).
    { apply Qmult_le_compat_r; [exact H | lqa]. }
    apply Qle_trans with (pow2 (ilog2 x) * pow2 (-53)).
    { rewrite <- pow2_plus, Ex.
      replace (ilog2 x - 52)%Z with (1 + (ilog2 x + -53))%Z by lia.
      rewrite (pow2_plus 1). change (pow2 1) with 2. lqa. }
    apply Qmult_le_compat_r; [exact L | apply Qlt_le_weak, pow2_pos]. }
  intros N. destruct (Qlt_le_dec x 0) as [Lt|Ge].
  - rewrite (Qabs_neg x) in * by lqa.
    pose proof (pos (- x) N) as P.
    rewrite double_opp in P.
    setoid_replace (- double x - - x) with (- (double x - x)) in P by ring.
    rewrite Qabs_opp in P. exact P.
  - rewrite (Qabs_pos x) in * by exact Ge. apply pos. exact N.
Qed.

(** Equal numbers have the same double, and a double in lowest terms is
    its own. *)
Lemma double_eq (x y : Q) : x == y -> double x = double y.
Proof.
  intros E. destruct (Qeq_dec x 0) as [Z|N].
  - rewrite (double_zero x Z), (double_zero y); [reflexivity|].
    rewrite <- E. exact Z.
  - unfold double.
    assert (Nx : Qeq_bool x 0 = false).
    { destruct (Qeq_bool x 0) eqn:B; [|reflexivity].
      apply Qeq_bool_iff in B. contradiction. }
    assert (Ny : Qeq_bool y 0 = false).
    { destruct (Qeq_bool y 0) eqn:B; [|reflexivity].
      apply Qeq_bool_iff in B. rewrite <- E in B. contradiction. }
    rewrite Nx, Ny. apply Qred_complete.
    rewrite (exponent_comp x y N E).
    rewrite (round_half_even_comp (x / pow2 (exponent y))
               (y / pow2 (exponent y))) by (rewrite E; reflexivity).
    reflexivity.
Qed.

Lemma double_lowest_terms (x : Q) : Qred (double x) = double x.
Proof.
  unfold double. destruct (Qeq_bool x 0); [reflexivity|].
  apply Qred_complete, Qred_correct.
Qed.

Lemma double_fixed (x : Q) : double x == x -> Qred x = x -> double x = x.
Proof.
  intros E R. transitivity (Qred (double x));
    [symmetry; apply double_lowest_terms|].
  transitivity (Qred x); [apply Qred_complete; exact E | exact R].
Qed.

Lemma Qred_inject_Z (z : Z) : Qred (inject_Z z) = inject_Z z.
Proof.
  unfold Qred, inject_Z.
  pose proof (Z.ggcd_gcd z 1) as G.
  pose proof (Z.ggcd_correct_divisors z 1) as D.
  destruct (Z.ggcd z 1) as [g [a b]]. simpl in *.
  rewrite Z.gcd_1_r in G. subst g. destruct D as [D1 D2].
  rewrite Z.mul_1_l in D1, D2. subst. reflexivity.
Qed.

(** Leibniz equality on whole numbers. *)
Lemma double_whole (z : Z) :
  (Z.abs z <= 2 ^ 53)%Z -> double (inject_Z z) = inject_Z z.
Proof.
  intros B. apply double_fixed; [apply double_Z; exact B|].
  apply Qred_inject_Z.
Qed.

Lemma double_is_double (x : Q) : is_double (double x).
Proof. apply double_idempotent. Qed.

Lemma is_double_Z (z : Z) : (Z.abs z <= 2 ^ 53)%Z -> is_double (inject_Z z).
Proof. apply double_Z. Qed.

Lemma is_double_opp (x : Q) : is_double x -> is_double (- x).
Proof. unfold is_double. intros D. rewrite double_opp, D. reflexivity. Qed.

(** The operators are exact on whole numbers, as long as the result is
    at most 2^53. *)
Lemma num_add_Z (a b : Z) :
  (Z.abs (a + b) <= 2 ^ 53)%Z ->
  num_add (inject_Z a) (inject_Z b) == inject_Z (a + b).
Proof.
  intros B. unfold num_add. rewrite <- inject_Z_plus. apply double_Z. exact B.
Qed.

Lemma num_sub_Z (a b : Z) :
  (Z.abs (a - b) <= 2 ^ 53)%Z ->
  num_sub (inject_Z a) (inject_Z b) == inject_Z (a - b).
Proof.
  intros B. unfold num_sub.
  rewrite (double_comp _ (inject_Z (a - b))); [apply double_Z; exact B|].
  unfold Z.sub. rewrite inject_Z_plus, inject_Z_opp. reflexivity.
Qed.

Lemma num_mul_Z (a b : Z) :
  (Z.abs (a * b) <= 2 ^ 53)%Z ->
  num_mul (inject_Z a) (inject_Z b) == inject_Z (a * b).
Proof.
  intros B. unfold num_mul. rewrite <- inject_Z_mult. apply double_Z. exact B.
Qed.

#[export] Instance num_add_comp : Proper (Qeq ==> Qeq ==> Qeq) num_add.
Proof. intros a b E c d F. unfold num_add. rewrite E, F. reflexivity. Qed.

#[export] Instance num_sub_comp : Proper (Qeq ==> Qeq ==> Qeq) num_sub.
Proof. intros a b E c d F. unfold num_sub. rewrite E, F. reflexivity. Qed.

#[export] Instance num_mul_comp : Proper (Qeq ==> Qeq ==> Qeq) num_mul.
Proof. intros a b E c d F. unfold num_mul. rewrite E, F. reflexivity. Qed.

#[export] Instance num_div_comp : Proper (Qeq ==> Qeq ==> Qeq) num_div.
Proof. intros a b E c d F. unfold num_div. rewrite E, F. reflexivity. Qed.

Lemma Qfloor_unique (y : Q) (f : Z) :
  inject_Z f <= y -> y < inject_Z f + 1 -> Qfloor y = f.
Proof.
  intros L U. pose proof (Qfloor_le y) as F1. pose proof (Qlt_floor y) as F2.
  rewrite inject_Z_plus in F2. change (inject_Z 1) with 1 in F2.
  assert (A : inject_Z (Qfloor y) < inject_Z (f + 1))
    by (rewrite inject_Z_plus; change (inject_Z 1) with 1; lqa).
  assert (B : inject_Z f < inject_Z (Qfloor y + 1))
    by (rewrite inject_Z_plus; change (inject_Z 1) with 1; lqa).
  rewrite <- Zlt_Qlt in A, B. lia.
Qed.

Lemma Qceiling_unique (y : Q) (c : Z) :
  inject_Z c - 1 < y -> y <= inject_Z c -> Qceiling y = c.
Proof.
  intros L U. pose proof (Qle_ceiling y) as C1. pose proof (Qceiling_lt y) as C2.
  unfold Z.sub in C2. rewrite inject_Z_plus, inject_Z_opp in C2.
  change (inject_Z 1) with 1 in C2.
  assert (A : inject_Z (Qceiling y) < inject_Z (c + 1))
    by (rewrite inject_Z_plus; change (inject_Z 1) with 1; lqa).
  assert (B : inject_Z c < inject_Z (Qceiling y + 1))
    by (rewrite inject_Z_plus; change (inject_Z 1) with 1; lqa).
  rewrite <- Zlt_Qlt in A, B. lia.
Qed.

(** The quotient of two whole numbers is rounded to a double that has
    the same integer part and the same ceiling: the rounding error is
    smaller than the distance of a fraction of denominator [t] from a
    whole number. *)
Lemma num_div_Z (x t : Z) :
  (0 <= x < 2 ^ 53)%Z -> (0 < t <= 2 ^ 53)%Z ->
  Qfloor (num_div (inject_Z x) (inject_Z t)) = (x / t)%Z
  /\ Qceiling (num_div (inject_Z x) (inject_Z t)) = ((x + t - 1) / t)%Z.
Proof.
  intros [X0 X1] [T0 T1]. unfold num_div.
  set (q := inject_Z x / inject_Z t).
  assert (Tq : 0 < inject_Z t) by (rewrite <- (Zlt_Qlt 0); exact T0).
  pose proof (Z.div_mod x t ltac:(lia)) as DM.
  pose proof (Z.mod_pos_bound x t T0) as [R0 R1].
  set (f := (x / t)%Z) in *. set (r := (x mod t)%Z) in *.
  assert (F0 : (0 <= f)%Z) by (apply Z.div_pos; lia).
  assert (Eq : q == inject_Z f + inject_Z r / inject_Z t).
  { unfold q. rewrite DM, inject_Z_plus, inject_Z_mult. field. lqa. }
  destruct (Z.eq_dec r 0) as [Rz|Rn].
  - assert (Ef : q == inject_Z f).
    { rewrite Eq, Rz. change (inject_Z 0) with 0. unfold Qdiv. ring. }
    assert (Fb : (Z.abs f <= 2 ^ 53)%Z) by nia.
    rewrite (double_comp q _ Ef), (Qfloor_comp _ _ (double_Z f Fb)),
      (Qceiling_comp _ _ (double_Z f Fb)), Qfloor_Z, Qceiling_Z.
    split; [reflexivity|].
    apply (Z.div_unique _ _ _ (t - 1)); lia.
  - assert (Rq : 1 <= inject_Z r)
      by (change 1 with (inject_Z 1); rewrite <- Zle_Qle; lia).
    assert (Rt : inject_Z r <= inject_Z t - 1).
    { assert (A : inject_Z r <= inject_Z (t - 1)) by (rewrite <- Zle_Qle; lia).
      unfold Z.sub in A. rewrite inject_Z_plus, inject_Z_opp in A.
      exact A. }
    assert (It : 0 < / inject_Z t) by (apply Qinv_lt_0_compat; exact Tq).
    assert (Lo : inject_Z f + / inject_Z t <= q).
    { rewrite Eq. unfold Qdiv.
      assert (1 * / inject_Z t <= inject_Z r * / inject_Z t)
        by (apply Qmult_le_compat_r; lqa).
      lqa. }
    assert (Hi : q <= inject_Z f + 1 - / inject_Z t).
    { rewrite Eq. unfold Qdiv.
      assert (inject_Z r * / inject_Z t <= (inject_Z t - 1) * / inject_Z t)
        by (apply Qmult_le_compat_r; lqa).
      setoid_replace ((inject_Z t - 1) * / inject_Z t) with (1 - / inject_Z t)
        in H by (field; lqa).
      lqa. }
    assert (Fq : 0 <= inject_Z f)
      by (change 0 with (inject_Z 0); rewrite <- Zle_Qle; exact F0).
    assert (Q0 : 0 < q) by lqa.
    assert (Xq : inject_Z x < pow2 53)
      by (rewrite pow2_Z by lia; rewrite <- Zlt_Qlt; exact X1).
    assert (X0q : 0 < inject_Z x).
    { rewrite <- (Zlt_Qlt 0). nia. }
    assert (P53 : pow2 (-53) * pow2 53 == 1)
      by (rewrite <- pow2_plus; reflexivity).
    pose proof (pow2_pos (-53)) as Pn.
    assert (T53 : inject_Z t <= pow2 53)
      by (rewrite pow2_Z by lia; rewrite <- Zle_Qle; exact T1).
    assert (normal : pow2 (-1022) <= Qabs q).
    { rewrite Qabs_pos by lqa.
      apply Qle_trans with (pow2 (-53)); [apply pow2_le; lia|].
      apply Qle_trans with (/ inject_Z t); [|lqa].
      apply Qle_shift_inv_l; [exact Tq|].
      rewrite <- P53. apply Qmult_le_l; assumption. }
    pose proof (double_error q normal) as Er.
    rewrite (Qabs_pos q) in Er by lqa.
    assert (small : q * pow2 (-53) < / inject_Z t).
    { unfold q.
      setoid_replace (inject_Z x / inject_Z t * pow2 (-53))
        with (pow2 (-53) * inject_Z x * / inject_Z t) by (field; lqa).
      rewrite <- (Qmult_1_l (/ inject_Z t)) at 2.
      apply Qmult_lt_compat_r; [exact It|].
      rewrite <- P53. apply Qmult_lt_l; assumption. }
    apply Qabs_Qle_condition in Er. destruct Er as [E1 E2].
    split.
    + apply Qfloor_unique; lqa.
    + replace ((x + t - 1) / t)%Z with (f + 1)%Z.
      * apply Qceiling_unique; rewrite inject_Z_plus;
          change (inject_Z 1) with 1; lqa.
      * apply (Z.div_unique _ _ _ (r - 1)); lia.
Qed.

(** Rounding does not cross a double. *)
Lemma double_below (x y : Q) : is_double y -> x <= y -> double x <= y.
Proof.
  intros D L. unfold is_double in D. rewrite <- D. apply double_le. exact L.
Qed.

Lemma double_above (x y : Q) : is_double y -> y <= x -> y <= double x.
Proof.
  intros D L. unfold is_double in D. rewrite <- D. apply double_le. exact L.
Qed.

Lemma is_double_small (z : Z) : (Z.abs z <= 1000)%Z -> is_double (inject_Z z).
Proof. intros B. apply is_double_Z. lia. Qed.

(** A product of whole numbers is exact up to 2^53. *)
Lemma num_mul_whole (x y : Q) (a b : Z) :
  x == inject_Z a -> y == inject_Z b -> (Z.abs (a * b) <= 2 ^ 53)%Z ->
  num_mul x y = inject_Z (a * b).
Proof.
  intros X Y B. unfold num_mul.
  rewrite (double_eq (x * y) (inject_Z (a * b)));
    [apply double_whole; exact B|].
  rewrite X, Y, inject_Z_mult. reflexivity.
Qed.

Lemma num_sub_whole (x y : Q) (a b : Z) :
  x == inject_Z a -> y == inject_Z b -> (Z.abs (a - b) <= 2 ^ 53)%Z ->
  num_sub x y = inject_Z (a - b).
Proof.
  intros X Y B. unfold num_sub.
  rewrite (double_eq (x - y) (inject_Z (a - b)));
    [apply double_whole; exact B|].
  rewrite X, Y. unfold Z.sub. rewrite inject_Z_plus, inject_Z_opp. reflexivity.
Qed.

Lemma num_add_whole (x y : Q) (a b : Z) :
  x == inject_Z a -> y == inject_Z b -> (Z.abs (a + b) <= 2 ^ 53)%Z ->
  num_add x y = inject_Z (a + b).
Proof.
  intros X Y B. unfold num_add.
  rewrite (double_eq (x + y) (inject_Z (a + b)));
    [apply double_whole; exact B|].
  rewrite X, Y, inject_Z_plus. reflexivity.
Qed.

Lemma is_integer_plus (x y : Q) :
  is_integer x -> is_integer y -> is_integer (x + y).
Proof.
  intros [a A] [b B]. exists (a + b)%Z. rewrite A, B, inject_Z_plus.
  reflexivity.
Qed.

Lemma ilog2_pow2 (k : Z) : ilog2 (pow2 k) = k.
Proof.
  apply ilog2_unique; [apply Qle_refl | apply pow2_lt; lia].
Qed.

(** Rounding a whole number gives a whole number: beyond 2^53 every
    double is one. *)
Lemma double_integer (x : Q) : is_integer x -> is_integer (double x).
Proof.
  intros [z E]. destruct (Z_le_gt_dec (Z.abs z) (2 ^ 53)) as [S|B].
  - exists z. rewrite (double_comp _ _ E). apply double_Z. exact S.
  - assert (A : pow2 53 <= Qabs x).
    { rewrite E, pow2_Z by lia.
      change (Qabs (inject_Z z)) with (inject_Z (Z.abs z)).
      rewrite <- Zle_Qle. lia. }
    assert (X : (0 <= exponent x)%Z).
    { unfold exponent.
      pose proof (ilog2_le (pow2 53) (Qabs x) (pow2_pos 53) A) as L.
      rewrite ilog2_pow2 in L. lia. }
    exists (round_half_even (x / pow2 (exponent x)) * 2 ^ exponent x)%Z.
    rewrite double_formula, inject_Z_mult.
    apply Qmult_comp; [reflexivity | apply pow2_Z; exact X].
Qed.

(** The sign of a difference of whole numbers survives the rounding. *)
Lemma num_sub_sign (a b : Z) :
  num_gt (num_sub (inject_Z a) (inject_Z b)) 0 = true <-> (b < a)%Z.
Proof.
  unfold num_sub, num_gt, num_lt. rewrite negb_true_iff.
  assert (E : inject_Z a - inject_Z b == inject_Z (a - b)).
  { unfold Z.sub. rewrite inject_Z_plus, inject_Z_opp. reflexivity. }
  rewrite (double_eq _ _ E). split.
  - intros G. destruct (Z_lt_le_dec b a) as [L|L]; [exact L|]. exfalso.
    assert (N : double (inject_Z (a - b)) <= 0).
    { apply double_nonpos. change 0 with (inject_Z 0). rewrite <- Zle_Qle.
      lia. }
    apply Qle_bool_iff in N. congruence.
  - intros L.
    assert (N : double 1 <= double (inject_Z (a - b))).
    { apply double_le. change 1 with (inject_Z 1). rewrite <- Zle_Qle. lia. }
    assert (O : double 1 == 1) by (apply (double_Z 1); simpl; lia).
    destruct (Qle_bool (double (inject_Z (a - b))) 0) eqn:B; [|reflexivity].
    apply Qle_bool_iff in B. lqa.
Qed.

Lemma num_sub_sign_whole (x y : Q) :
  is_integer x -> is_integer y ->
  (num_gt (num_sub x y) 0 = true <-> y < x).
Proof.
  intros [a A] [b B].
  assert (E : num_sub x y = num_sub (inject_Z a) (inject_Z b)).
  { unfold num_sub. apply double_eq. rewrite A, B. reflexivity. }
  rewrite E, num_sub_sign, A, B, <- Zlt_Qlt. reflexivity.
Qed.

End DoubleFacts.

(** ** utils/queue.ts: the wait-time estimator *)

Module QueueFacts.
Import JS QueueUtils NumberFacts DoubleFacts.
Local Open Scope Q_scope.

Lemma Math_max_0_round (x : Q) :
  0 <= x -> Math_max 0 (Math_round x) = Math_round x.
Proof.
  intros Hx. destruct (Math_max_cases 0 (Math_round x)) as [[_ E]|[L E]];
    rewrite E; [reflexivity|].
  pose proof (Math_round_nonneg x Hx) as N. unfold Math_round in *.
  rewrite <- (Zle_Qle 0) in N. rewrite <- (Zle_Qle _ 0) in L.
  replace (Qfloor (x + (1 # 2))) with 0%Z by lia. reflexivity.
Qed.

Lemma Math_max_0_integer (x : Q) : is_integer x -> is_integer (Math_max 0 x).
Proof.
  intros I. destruct (Math_max_cases 0 x) as [[_ E]|[_ E]]; rewrite E;
    [exact I | exists 0%Z; reflexivity].
Qed.

(** The variance factor stays between [1 - v] and [1 + v], as doubles
    compute them. *)
Lemma varianceFactor_range (r v : Q) :
  0 <= r -> r < 1 -> 0 < v -> is_double v ->
  let factor := num_add 1 (num_mul (num_sub (num_mul r 2) 1) v) in
  num_sub 1 v <= factor /\ factor <= num_add 1 v.
Proof.
  intros R0 R1 V D factor.
  assert (A : 0 <= num_mul r 2 /\ num_mul r 2 <= 2).
  { unfold num_mul. split; [apply double_nonneg; lqa|].
    apply (double_below _ (inject_Z 2)); [apply is_double_small; lia|].
    change (inject_Z 2) with 2. lqa. }
  destruct A as [A0 A1].
  assert (B : -(1) <= num_sub (num_mul r 2) 1 /\ num_sub (num_mul r 2) 1 <= 1).
  { unfold num_sub. split.
    - apply (double_above _ (inject_Z (-1))); [apply is_double_small; lia|].
      change (inject_Z (-1)) with (-(1)). lqa.
    - apply (double_below _ (inject_Z 1)); [apply is_double_small; lia|].
      change (inject_Z 1) with 1. lqa. }
  destruct B as [B0 B1]. set (b := num_sub (num_mul r 2) 1) in *.
  assert (C : - v <= num_mul b v /\ num_mul b v <= v).
  { unfold num_mul. split.
    - apply double_above; [apply is_double_opp; exact D|].
      assert (0 <= (1 + b) * v) by (apply Qmult_le_0_compat; lqa). lqa.
    - apply double_below; [exact D|].
      assert (0 <= (1 - b) * v) by (apply Qmult_le_0_compat; lqa). lqa. }
  destruct C as [C0 C1]. unfold factor, num_add, num_sub.
  split; apply double_le; lqa.
Qed.

(** C1, as the code has it: with no variance the estimate is the
    product of position and service time rounded to the nearest
    integer, which is that product exactly when, and only when, the
    product is an integer (so for a whole position and a whole number of
    seconds, as long as the product is at most 2^53 and so is computed
    exactly).  With a variance [v > 0] and a draw in [0, 1) the factor
    lies between [1 - v] and [1 + v], the estimate is the rounded,
    varied product floored at 0, and it is the rounding of the product
    by some factor of that interval.  The estimate is always a
    non-negative integer.  The operators are those of doubles, on
    numbers that do not overflow. *)
Theorem calculateWaitTime_rounds (w : World)
    (position averageServiceTime varianceServiceTime : Q) :
  0 <= position -> 0 < averageServiceTime ->
  0 < varianceServiceTime -> is_double varianceServiceTime ->
  random_in_range w ->
  isFinite (num_mul (num_mul position averageServiceTime)
              (num_add 1 varianceServiceTime)) ->
  let product := num_mul position averageServiceTime in
  let factor :=
    num_add 1 (num_mul (num_sub (num_mul (random w) 2) 1)
                 varianceServiceTime) in
  let steady := calculateWaitTime w position averageServiceTime (Some 0) in
  let varied :=
    calculateWaitTime w position averageServiceTime (Some varianceServiceTime) in
  steady = Math_round product
  /\ (steady == product <-> is_integer product)
  /\ (forall p a : Z,
        position == inject_Z p -> averageServiceTime == inject_Z a ->
        (p * a <= 2 ^ 53)%Z ->
        steady == position * averageServiceTime)
  /\ 0 <= steady /\ is_integer steady
  /\ num_sub 1 varianceServiceTime <= factor <= num_add 1 varianceServiceTime
  /\ varied = Math_max 0 (Math_round (num_mul product factor))
  /\ (exists f : Q,
        num_sub 1 varianceServiceTime <= f <= num_add 1 varianceServiceTime
        /\ varied == Math_round (num_mul product f))
  /\ 0 <= varied /\ is_integer varied.
Proof.
  intros P0 Ha Hv Dv [R0 R1] _ product factor steady varied.
  assert (E0 : 0 <= product).
  { unfold product, num_mul. apply double_nonneg.
    apply Qmult_le_0_compat; lqa. }
  assert (Z0 : steady = Math_round product).
  { unfold steady, calculateWaitTime. simpl orDefault.
    change (num_gt 0 0) with false. cbv iota zeta.
    apply Math_max_0_round. exact E0. }
  assert (V : varied = Math_max 0 (Math_round (num_mul product factor))).
  { unfold varied, calculateWaitTime. simpl orDefault.
    rewrite (proj2 (num_gt_iff _ _) Hv). reflexivity. }
  pose proof (varianceFactor_range _ _ R0 R1 Hv Dv) as [F1 F2].
  fold factor in F1, F2.
  split; [exact Z0|]. split.
  { rewrite Z0. apply Math_round_fixed_iff. }
  split.
  { intros p a Ep Ea B. rewrite Z0.
    assert (N : (0 <= p * a)%Z).
    { apply Z.mul_nonneg_nonneg.
      - rewrite Zle_Qle, <- Ep. exact P0.
      - rewrite Zle_Qle, <- Ea. apply Qlt_le_weak. exact Ha. }
    unfold product.
    rewrite (num_mul_whole _ _ p a Ep Ea) by lia.
    rewrite Math_round_inject_Z, Ep, Ea, inject_Z_mult. reflexivity. }
  split; [rewrite Z0; apply Math_round_nonneg; exact E0|].
  split; [rewrite Z0; apply Math_round_is_integer|].
  split; [split; assumption|]. split; [exact V|]. split.
  { destruct (Qlt_le_dec factor 0) as [N|N].
    - exists 0. split.
      + split; [lqa|]. unfold num_add. apply double_nonneg. lqa.
      + rewrite V.
        assert (X : num_mul product factor <= 0).
        { unfold num_mul. apply double_nonpos.
          setoid_replace (product * factor)
            with (- (product * - factor)) by ring.
          assert (0 <= product * - factor)
            by (apply Qmult_le_0_compat; lqa).
          lqa. }
        destruct (Math_max_cases 0 (Math_round (num_mul product factor)))
          as [[L _]|[_ ->]].
        * pose proof (Math_round_nonpos _ X). lqa.
        * unfold num_mul.
          rewrite (double_zero (product * 0)) by ring. reflexivity.
    - exists factor. split; [split; assumption|]. rewrite V.
      rewrite Math_max_0_round; [reflexivity|].
      unfold num_mul. apply double_nonneg.
      apply Qmult_le_0_compat; assumption. }
  rewrite V. split.
  - apply Math_max_lower.
  - apply Math_max_0_integer, Math_round_is_integer.
Qed.

(** The theorem at position 3, 60 s per party, variance 0.25 and the
    draw 1/4. *)
Lemma calculateWaitTime_rounds_witness :
  (0 <= 3 /\ 0 < 60 /\ 0 < 1 # 4 /\ is_double (1 # 4)
   /\ random_in_range (mkWorld (1 # 4) 0)
   /\ isFinite (num_mul (num_mul 3 60) (num_add 1 (1 # 4))))
  /\ calculateWaitTime (mkWorld (1 # 4) 0) 3 60 (Some 0) = 180
  /\ calculateWaitTime (mkWorld (1 # 4) 0) 3 60 (Some (1 # 4))
     = Math_max 0 (Math_round (num_mul (num_mul 3 60) (7 # 8))).
Proof.
  assert (H : 0 <= 3 /\ 0 < 60 /\ 0 < 1 # 4 /\ is_double (1 # 4)
              /\ random_in_range (mkWorld (1 # 4) 0)
              /\ isFinite (num_mul (num_mul 3 60) (num_add 1 (1 # 4)))).
  { split; [discriminate|]. split; [reflexivity|]. split; [reflexivity|].
    split; [vm_compute; reflexivity|].
    split; [split; [discriminate | reflexivity]|].
    vm_compute. discriminate. }
  split; [exact H|].
  destruct H as [H1 [H2 [H3 [H4 [H5 H6]]]]].
  pose proof (calculateWaitTime_rounds (mkWorld (1 # 4) 0) 3 60 (1 # 4)
                H1 H2 H3 H4 H5 H6) as T.
  cbv zeta in T. destruct T as [S [_ [_ [_ [_ [_ [V _]]]]]]].
  split; [rewrite S; vm_compute; reflexivity|].
  rewrite V. vm_compute. reflexivity.
Defined.

(** C1 as stated fails: at position 1 with a quarter of a second per
    party and no variance the estimate is 0, not 1/4. *)
Lemma calculateWaitTime_not_exact_product :
  0 <= 1 /\ 0 < 1 # 4
  /\ calculateWaitTime (mkWorld 0 0) 1 (1 # 4) (Some 0) = 0
  /\ ~ calculateWaitTime (mkWorld 0 0) 1 (1 # 4) (Some 0) == 1 * (1 # 4).
Proof.
  split; [discriminate|]. split; [reflexivity|].
  split; [vm_compute; reflexivity|].
  vm_compute. discriminate.
Qed.

(** Beyond 2^53 a product of whole numbers is no longer exact:
    94906267 * 94906267 = 9007199515875289 is computed as
    9007199515875288; and 5 * 0.3 is computed as 1.5, which rounds to
    2. *)
Example calculateWaitTime_rounded_products :
  calculateWaitTime (mkWorld 0 0) 94906267 94906267 (Some 0)
  = 9007199515875288
  /\ calculateWaitTime (mkWorld 0 0) 5 (double (3 # 10)) (Some 0) = 2.
Proof. split; vm_compute; reflexivity. Qed.

(** C4: [estimateTimeUntilPosition] is the rounded product on a valid
    pair of positions and 0 on every other pair; the operators are those
    of doubles, exact on whole numbers up to 2^53. *)
Theorem estimateTimeUntilPosition_spec
    (currentPosition targetPosition averageServiceTime : Q) :
  (0 < currentPosition /\ 0 < targetPosition
   /\ targetPosition <= currentPosition ->
   estimateTimeUntilPosition currentPosition targetPosition averageServiceTime
   = Math_round (num_mul (num_sub currentPosition targetPosition)
                   averageServiceTime))
  /\ (currentPosition <= 0 \/ targetPosition <= 0
      \/ currentPosition < targetPosition ->
      estimateTimeUntilPosition currentPosition targetPosition averageServiceTime
      = 0)
  /\ (0 <= averageServiceTime ->
      0 <= estimateTimeUntilPosition currentPosition targetPosition
             averageServiceTime)
  /\ (forall c t a : Z,
        currentPosition == inject_Z c -> targetPosition == inject_Z t ->
        averageServiceTime == inject_Z a ->
        (0 < t <= c)%Z -> (c <= 2 ^ 53)%Z -> (Z.abs ((c - t) * a) <= 2 ^ 53)%Z ->
        estimateTimeUntilPosition currentPosition targetPosition
          averageServiceTime
        = inject_Z ((c - t) * a))
  /\ estimateTimeUntilPosition 5 8 60 = 0
  /\ estimateTimeUntilPosition 8 5 60 = 180
  /\ estimateTimeUntilPosition 6 1 (double (723 # 10)) = 362.
Proof.
  assert (valid : 0 < currentPosition /\ 0 < targetPosition
                  /\ targetPosition <= currentPosition ->
                  estimateTimeUntilPosition currentPosition targetPosition
                    averageServiceTime
                  = Math_round (num_mul (num_sub currentPosition targetPosition)
                                  averageServiceTime)).
  { intros [C [T G]]. unfold estimateTimeUntilPosition.
    rewrite (proj2 (num_le_false_iff _ _) C), (proj2 (num_le_false_iff _ _) T),
      (proj2 (num_gt_false_iff _ _) G).
    reflexivity. }
  assert (invalid : currentPosition <= 0 \/ targetPosition <= 0
                    \/ currentPosition < targetPosition ->
                    estimateTimeUntilPosition currentPosition targetPosition
                      averageServiceTime = 0).
  { intros [H|[H|H]]; unfold estimateTimeUntilPosition;
      [rewrite (proj2 (num_le_iff _ _) H)
      |rewrite (proj2 (num_le_iff _ _) H)
      |rewrite (proj2 (num_gt_iff _ _) H)];
      rewrite ?orb_true_r; reflexivity. }
  split; [exact valid|]. split; [exact invalid|]. split.
  { intros A.
    destruct (Qlt_le_dec 0 currentPosition) as [C|C];
      [|rewrite invalid by (left; exact C); apply Qle_refl].
    destruct (Qlt_le_dec 0 targetPosition) as [T|T];
      [|rewrite invalid by (right; left; exact T); apply Qle_refl].
    destruct (Qlt_le_dec currentPosition targetPosition) as [G|G];
      [rewrite invalid by (right; right; exact G); apply Qle_refl|].
    rewrite valid by (repeat split; assumption).
    apply Math_round_nonneg. unfold num_mul. apply double_nonneg.
    apply Qmult_le_0_compat; [|exact A].
    unfold num_sub. apply double_nonneg. lqa. }
  split.
  { intros c t a Ec Et Ea [T0 T1] C B.
    rewrite valid.
    - rewrite (num_sub_whole _ _ c t Ec Et) by lia.
      rewrite (num_mul_whole _ _ (c - t) a (Qeq_refl _) Ea B).
      apply Math_round_inject_Z.
    - rewrite Ec, Et. change 0 with (inject_Z 0).
      rewrite <- !Zlt_Qlt, <- Zle_Qle. lia. }
  repeat split; vm_compute; reflexivity.
Qed.


(** C9: the two status predicates split the five statuses in two. *)
Theorem status_partition (status : QueueEntryStatus) :
  xorb (isActiveStatus status) (isCompletedStatus status) = true
  /\ (isActiveStatus status = true <-> status = WAITING \/ status = CALLED)
  /\ (isCompletedStatus status = true
      <-> status = SERVED \/ status = NOSHOW \/ status = CANCELLED).
Proof.
  destruct status; cbn; (split; [reflexivity|]); split; split;
    try discriminate; intuition discriminate.
Qed.


Lemma new_Date_whole (z : Z) : new_Date (inject_Z z) = z.
Proof.
  unfold new_Date, truncate.
  destruct (num_lt (inject_Z z) 0); [apply Qceiling_Z | apply Qfloor_Z].
Qed.



(** The defaults: a fifth of the wait, at least 5 and at most 30 minutes;
    a recommendation for position 25 has low confidence and asks for no
    negative delay.  At position 67, 15 s per party and a buffer of
    0.3, the wait of 1005 s times 0.3 is computed as 301.5, and the
    buffer is 302 s. *)
Example recommended_leave_time_25 :
  let r := calculateRecommendedLeaveTime (mkWorld 0 0) 25 60 0 Options.empty in
  Recommendation.estimatedWaitTime r = 1200
  /\ Recommendation.bufferTime r = 300
  /\ Recommendation.recommendedLeaveIn r = 900
  /\ Recommendation.leaveAt r = 900000%Z
  /\ Recommendation.confidence r = low.
Proof. vm_compute. repeat split. Qed.

Example recommended_leave_time_67 :
  let options :=
    Options.mk (Some 0) (Some (double (3 # 10))) None None (Some 0%Z) in
  let r := calculateRecommendedLeaveTime (mkWorld 0 0) 67 15 0 options in
  Recommendation.estimatedWaitTime r = 1005
  /\ Recommendation.bufferTime r = 302
  /\ Recommendation.recommendedLeaveIn r = 703
  /\ Recommendation.leaveAt r = 703000%Z
  /\ Recommendation.confidence r = low.
Proof. vm_compute. repeat split. Qed.

End QueueFacts.

(** ** utils/queue.ts: the multi-server scheduler *)

Module SchedulerFacts.
Import JS QueueUtils NumberFacts DoubleFacts.
Local Open Scope Q_scope.

Lemma assign_at_length (i : nat) (v : Q) (xs : list Q) :
  List.length (assign_at i v xs) = List.length xs.
Proof.
  revert i. induction xs as [|y xs IH]; intros [|i]; simpl; auto.
Qed.

Lemma nth_assign_at_same (i : nat) (v : Q) (xs : list Q) :
  (i < List.length xs)%nat -> nth i (assign_at i v xs) 0 = v.
Proof.
  revert i. induction xs as [|y xs IH]; intros [|i] L; simpl in *;
    try lia; [reflexivity | apply IH; lia].
Qed.

Lemma nth_assign_at_other (i j : nat) (v : Q) (xs : list Q) :
  i <> j -> nth j (assign_at i v xs) 0 = nth j xs 0.
Proof.
  revert i j. induction xs as [|y xs IH]; intros [|i] [|j] N; simpl;
    try reflexivity; try congruence. apply IH. congruence.
Qed.

Lemma assign_at_Forall (P : Q -> Prop) (i : nat) (v : Q) (xs : list Q) :
  P v -> Forall P xs -> Forall P (assign_at i v xs).
Proof.
  intros V. revert i. induction xs as [|y xs IH]; intros [|i] F; simpl;
    try constructor; inversion F; subst; auto.
Qed.

Lemma Forall_nth_Q (P : Q -> Prop) (i : nat) (xs : list Q) :
  Forall P xs -> (i < List.length xs)%nat -> P (nth i xs 0).
Proof.
  intros F L. rewrite Forall_forall in F. apply F, nth_In. exact L.
Qed.

(** [Math.min(x, ...rest)] is a lower bound of its arguments, and one of
    them. *)
Lemma fold_Math_min_spec (rest : list Q) (x : Q) :
  let m := fold_left Math_min rest x in
  m <= x /\ Forall (fun y => m <= y) rest /\ (m = x \/ In m rest).
Proof.
  revert x. induction rest as [|y rest IH]; intros x; simpl.
  - split; [apply Qle_refl|]. split; [constructor | left; reflexivity].
  - destruct (IH (Math_min x y)) as [L [F E]].
    destruct (Math_min_cases x y) as [[C M]|[C M]]; rewrite M in *.
    + split; [lqa|]. split; [constructor; assumption|].
      destruct E as [E|E]; [right; left; congruence | right; right; exact E].
    + split; [exact L|]. split; [constructor; [lqa | exact F]|].
      destruct E as [E|E]; [left; exact E | right; right; exact E].
Qed.

Lemma indexOf_spec (x : Q) (xs : list Q) :
  In x xs ->
  exists i, indexOf x xs = Some i /\ (i < List.length xs)%nat
            /\ nth i xs 0 == x
            /\ forall j, (j < i)%nat -> ~ nth j xs 0 == x.
Proof.
  induction xs as [|y xs IH]; intros I; [destruct I|].
  simpl. unfold strict_eq. destruct (Qeq_bool y x) eqn:E.
  - exists O. split; [reflexivity|]. split; [simpl; lia|].
    split; [apply Qeq_bool_iff; exact E | intros j L; lia].
  - destruct I as [I|I].
    + subst y. rewrite (proj2 (Qeq_bool_iff x x) (Qeq_refl x)) in E. discriminate.
    + destruct (IH I) as [i [Hi [L [N M]]]]. exists (S i). rewrite Hi.
      split; [reflexivity|]. split; [simpl; lia|]. split; [exact N|].
      intros [|j] J; simpl.
      * intros Q. apply Qeq_bool_iff in Q. congruence.
      * apply M. lia.
Qed.

(** The server picked: the first one among those that are free soonest. *)
Lemma soonest_server_spec (serverEndTimes : list Q) :
  serverEndTimes <> [] ->
  exists i, soonest_server serverEndTimes = Some i
            /\ (i < List.length serverEndTimes)%nat
            /\ (forall j, (j < List.length serverEndTimes)%nat ->
                  nth i serverEndTimes 0 <= nth j serverEndTimes 0)
            /\ (forall j, (j < i)%nat ->
                  nth i serverEndTimes 0 < nth j serverEndTimes 0).
Proof.
  destruct serverEndTimes as [|x rest]; [congruence|]. intros _.
  unfold soonest_server, Math_min_spread.
  destruct (fold_Math_min_spec rest x) as [L [F E]].
  set (m := fold_left Math_min rest x) in *.
  assert (A : Forall (fun y => m <= y) (x :: rest)) by (constructor; assumption).
  assert (I : In m (x :: rest)) by (destruct E; [left; congruence | right; assumption]).
  destruct (indexOf_spec m (x :: rest) I) as [i [Hi [B [N M]]]].
  exists i. split; [exact Hi|]. split; [exact B|].
  rewrite Forall_forall in A.
  assert (Low : forall j, (j < List.length (x :: rest))%nat ->
                  nth i (x :: rest) 0 <= nth j (x :: rest) 0).
  { intros j J. rewrite N. apply A. apply nth_In. exact J. }
  split; [exact Low|].
  intros j J. specialize (M j J). specialize (Low j ltac:(lia)).
  apply Qle_lteq in Low. destruct Low as [Low|Low]; [exact Low|].
  exfalso. apply M. rewrite <- Low. exact N.
Qed.

(** An array length is a whole number from 0 to 2^32 - 1. *)
Lemma is_array_length_iff (n : Q) :
  is_array_length n = true
  <-> exists k : Z, (0 <= k < 2 ^ 32)%Z /\ n == inject_Z k.
Proof.
  unfold is_array_length, strict_eq.
  rewrite !andb_true_iff, Qeq_bool_iff, num_le_iff, num_lt_iff. split.
  - intros [[E L] U]. exists (Qfloor n). split; [|exact E].
    rewrite E in L, U. change 0 with (inject_Z 0) in L.
    change 4294967296 with (inject_Z 4294967296) in U.
    rewrite <- Zle_Qle in L. rewrite <- Zlt_Qlt in U. lia.
  - intros [k [[L U] E]]. split; [split|].
    + rewrite (Qfloor_comp _ _ E), Qfloor_Z. exact E.
    + rewrite E. change 0 with (inject_Z 0). rewrite <- Zle_Qle. exact L.
    + rewrite E. change 4294967296 with (inject_Z 4294967296).
      rewrite <- Zlt_Qlt. lia.
Qed.

Lemma Array_fill_count (n : Z) (v : Q) :
  (0 <= n < 2 ^ 32)%Z -> Array_fill (inject_Z n) v = Ok (repeat v (Z.to_nat n)).
Proof.
  intros L. unfold Array_fill.
  rewrite (proj2 (is_array_length_iff (inject_Z n)));
    [rewrite Qfloor_Z; reflexivity|].
  exists n. split; [exact L | reflexivity].
Qed.

(** The longest service time for which what follows is stated, 2^900 s:
    no sum of fewer than 2^32 such times overflows. *)
Definition MAX_SERVICE_TIME : Q := pow2 900.

Section Greedy.
Context {T : Type} `{QueueItem T}.

(** An assignment together with the index of the server it went to. *)
Definition entry : Type := (nat * Assignment.t T)%type.

(** The assignment the specification describes, server index included:
    each item goes to a server whose next-free time is minimal, the
    lowest index among those; it starts at that next-free time, ends its
    service time later, and that end becomes the server's next-free
    time. *)
Inductive Greedy : list Q -> list entry -> Prop :=
| Greedy_done (servers : list Q) : Greedy servers []
| Greedy_step (servers : list Q) (i : nat) (a : Assignment.t T)
    (trace : list entry) :
    (i < List.length servers)%nat ->
    (forall j, (j < List.length servers)%nat ->
       nth i servers 0 <= nth j servers 0) ->
    (forall j, (j < i)%nat -> nth i servers 0 < nth j servers 0) ->
    Assignment.startTime a = nth i servers 0 ->
    Assignment.endTime a
    = num_add (Assignment.startTime a) (serviceTime (Assignment.item a)) ->
    Greedy (assign_at i (Assignment.endTime a) servers) trace ->
    Greedy servers ((i, a) :: trace).

(** Two assignments on one server: the earlier ends before the later
    starts. *)
Definition disjoint (x y : entry) : Prop :=
  fst x = fst y ->
  Assignment.endTime (snd x) <= Assignment.startTime (snd y).

Definition served_item (e : entry) : T := Assignment.item (snd e).

Lemma assign_servers_Greedy (queue : list T) (servers : list Q) :
  servers <> [] ->
  exists trace,
    assign_servers servers queue = Some trace
    /\ map served_item trace = queue
    /\ Greedy servers trace.
Proof.
  revert servers. induction queue as [|it queue IH]; intros servers N.
  - exists []. split; [reflexivity|]. split; [reflexivity | constructor].
  - destruct (soonest_server_spec servers N) as [i [Hi [B [Low First]]]].
    set (start := nth i servers 0).
    set (servers' := assign_at i (num_add start (serviceTime it)) servers).
    assert (N' : servers' <> []).
    { intros E. apply (f_equal (@List.length Q)) in E.
      unfold servers' in E. rewrite assign_at_length in E.
      destruct servers; [congruence | discriminate]. }
    destruct (IH servers' N') as [trace [A [M G]]].
    exists ((i, Assignment.mk it start (num_add start (serviceTime it)))
              :: trace).
    split; [|split].
    + simpl. rewrite Hi. fold start. fold servers'. rewrite A. reflexivity.
    + simpl. unfold served_item at 1. simpl. rewrite M. reflexivity.
    + apply Greedy_step; try assumption; reflexivity.
Qed.

Definition nonnegative (e : entry) : Prop := 0 <= serviceTime (served_item e).

(** A service ends no earlier than it starts: the sum is rounded, but
    not below the start, which is a double. *)
Lemma ends_later (start service : Q) :
  is_double start -> 0 <= service -> start <= num_add start service.
Proof.
  intros D S. unfold num_add, is_double in *. rewrite <- D at 1.
  apply double_le. lqa.
Qed.

Lemma Greedy_doubles (servers : list Q) (trace : list entry) :
  Greedy servers trace -> Forall is_double servers ->
  Forall (fun e => is_double (Assignment.startTime (snd e))
                   /\ is_double (Assignment.endTime (snd e))) trace.
Proof.
  induction 1 as [|servers i a trace B Low First S E G IH]; intros D.
  - constructor.
  - assert (De : is_double (Assignment.endTime a))
      by (rewrite E; apply double_is_double).
    constructor.
    + simpl. split; [rewrite S; apply Forall_nth_Q; assumption | exact De].
    + apply IH. apply assign_at_Forall; assumption.
Qed.

(** A server's next-free time never decreases, so whatever is assigned
    to it later starts no earlier. *)
Lemma Greedy_starts_later (servers : list Q) (trace : list entry) :
  Greedy servers trace -> Forall is_double servers ->
  Forall nonnegative trace ->
  Forall (fun e => nth (fst e) servers 0 <= Assignment.startTime (snd e)) trace.
Proof.
  induction 1 as [|servers i a trace B Low First S E G IH]; intros D NN.
  - constructor.
  - inversion NN as [|? ? Na Nt]; subst. constructor.
    + simpl. rewrite S. apply Qle_refl.
    + assert (D' : Forall is_double (assign_at i (Assignment.endTime a) servers)).
      { apply assign_at_Forall; [|exact D].
        rewrite E. apply double_is_double. }
      specialize (IH D' Nt). rewrite Forall_forall in *. intros [j x] I.
      specialize (IH _ I). simpl in *.
      destruct (Nat.eq_dec i j) as [->|Dj].
      * rewrite nth_assign_at_same in IH by exact B.
        unfold nonnegative, served_item in Na. simpl in Na.
        apply Qle_trans with (Assignment.endTime a); [|exact IH].
        rewrite E, S. apply ends_later; [|exact Na].
        apply D, nth_In. exact B.
      * rewrite nth_assign_at_other in IH by exact Dj. exact IH.
Qed.

Lemma Greedy_no_overlap (servers : list Q) (trace : list entry) :
  Greedy servers trace -> Forall is_double servers ->
  Forall nonnegative trace ->
  ForallOrdPairs disjoint trace.
Proof.
  induction 1 as [|servers i a trace B Low First S E G IH]; intros D NN.
  - constructor.
  - inversion NN as [|? ? Na Nt]; subst.
    assert (D' : Forall is_double (assign_at i (Assignment.endTime a) servers)).
    { apply assign_at_Forall; [|exact D].
      rewrite E. apply double_is_double. }
    constructor; [|exact (IH D' Nt)].
    pose proof (Greedy_starts_later _ _ G D' Nt) as Later.
    rewrite Forall_forall in *. intros [j x] I Same. simpl in *. subst j.
    specialize (Later _ I). simpl in Later.
    rewrite nth_assign_at_same in Later by exact B. exact Later.
Qed.

Lemma Greedy_ends (servers : list Q) (trace : list entry) :
  Greedy servers trace ->
  Forall (fun e => Assignment.endTime (snd e)
                   = num_add (Assignment.startTime (snd e))
                       (serviceTime (served_item e)))
    trace.
Proof. induction 1; constructor; assumption. Qed.

(** No end time overflows: after [count] services of at most 2^k each,
    no server is busy beyond [count * 2^k], a double. *)
Lemma Greedy_finite (k : Z) (servers : list Q) (trace : list entry) :
  (-1074 <= k)%Z ->
  Greedy servers trace ->
  forall count : Z,
    (0 <= count)%Z -> (count + Z.of_nat (List.length trace) <= 2 ^ 53)%Z ->
    Forall (fun e => 0 <= serviceTime (served_item e) <= pow2 k) trace ->
    Forall (fun x => 0 <= x <= inject_Z count * pow2 k) servers ->
    Forall (fun e => 0 <= Assignment.endTime (snd e)
                     <= inject_Z (count + Z.of_nat (List.length trace))
                        * pow2 k) trace.
Proof.
  intros K.
  induction 1 as [|servers i a trace B Low First S E G IH];
    intros count C0 C1 NN Bd; [constructor|].
  pose proof (pow2_pos k) as P.
  inversion NN as [|? ? Na Nt]; subst.
  unfold served_item in Na. simpl in Na. destruct Na as [Na0 Na1].
  assert (St : 0 <= Assignment.startTime a <= inject_Z count * pow2 k).
  { rewrite S. rewrite Forall_forall in Bd. apply Bd, nth_In. exact B. }
  simpl List.length in C1. rewrite Nat2Z.inj_succ in C1.
  assert (En : 0 <= Assignment.endTime a
               <= inject_Z (count + 1) * pow2 k).
  { rewrite E. unfold num_add. split; [apply double_nonneg; lqa|].
    rewrite <- (double_representable (count + 1) k) by lia.
    apply double_le. rewrite inject_Z_plus. change (inject_Z 1) with 1.
    lqa. }
  assert (M : forall c c' : Z, (c <= c')%Z ->
                inject_Z c * pow2 k <= inject_Z c' * pow2 k).
  { intros c c' L. apply Qmult_le_compat_r; [|lqa].
    rewrite <- Zle_Qle. exact L. }
  constructor.
  - simpl. split; [apply En|].
    apply Qle_trans with (inject_Z (count + 1) * pow2 k); [apply En|].
    apply M. simpl List.length. lia.
  - assert (Bd' : Forall (fun x => 0 <= x <= inject_Z (count + 1) * pow2 k)
                    (assign_at i (Assignment.endTime a) servers)).
    { apply assign_at_Forall; [exact En|].
      apply Forall_impl with (2 := Bd). intros x [X0 X1].
      split; [exact X0|].
      apply Qle_trans with (inject_Z count * pow2 k); [exact X1|].
      apply M. lia. }
    specialize (IH (count + 1)%Z ltac:(lia) ltac:(lia) Nt Bd').
    apply Forall_impl with (2 := IH). intros e [E0 E1].
    split; [exact E0|].
    apply Qle_trans with (1 := E1). apply M. simpl List.length. lia.
Qed.

Lemma insert_sorted_Permutation (a : T) (l : list T) :
  Permutation (insert_sorted a l) (a :: l).
Proof.
  induction l as [|b l IH]; simpl; [reflexivity|].
  destruct (num_gt (compare_items a b) 0); [|reflexivity].
  rewrite IH. apply perm_swap.
Qed.

Lemma sort_items_Permutation (l : list T) : Permutation (sort_items l) l.
Proof.
  induction l as [|a l IH]; simpl; [reflexivity|].
  rewrite insert_sorted_Permutation, IH. reflexivity.
Qed.

(** Without [position] properties the comparator is constantly 0 and
    the sort leaves the input order alone. *)
Lemma sort_items_unpositioned (l : list T) :
  Forall (fun it => position it = None) l -> sort_items l = l.
Proof.
  induction 1 as [|a l Pa Pl IH]; simpl; [reflexivity|].
  rewrite IH. destruct l as [|b l]; [reflexivity|]. simpl.
  unfold compare_items. rewrite Pa. reflexivity.
Qed.

(** What a call does on a pool of at least one server. *)
Lemma calculateCompletionTimes_trace (queueData : list T) (numServers : Z) :
  (1 <= numServers < 2 ^ 32)%Z ->
  exists trace : list entry,
    calculateCompletionTimes queueData (Some (inject_Z numServers))
    = Ok (Assignments (map snd trace))
    /\ map served_item trace = sort_items queueData
    /\ Greedy (repeat 0 (Z.to_nat numServers)) trace.
Proof.
  intros L. destruct queueData as [|it rest] eqn:Q.
  { exists []. simpl. repeat split; constructor. }
  rewrite <- Q.
  assert (S0 : repeat 0 (Z.to_nat numServers) <> []).
  { destruct (Z.to_nat numServers) eqn:E; [lia | discriminate]. }
  destruct (assign_servers_Greedy (sort_items queueData) _ S0)
    as [trace [A [M G]]].
  exists trace. split; [|split; assumption].
  unfold calculateCompletionTimes. simpl orDefault. rewrite Q, <- Q.
  rewrite Array_fill_count by lia. rewrite A. reflexivity.
Qed.

Lemma free_servers_doubles (n : nat) : Forall is_double (repeat 0 n).
Proof.
  induction n as [|n IH]; simpl; constructor; [|exact IH].
  unfold is_double. reflexivity.
Qed.

End Greedy.

(** C3, as the code has it: on items with non-negative service times
    and a pool of 1 to [MAX_SERVERS] servers, [calculateCompletionTimes]
    returns one assignment per item (the items in the order the sort
    leaves them, which is the input order when no item has a
    [position]), each ending its service time after it starts, each on
    the first server that is free soonest, and no two on the same server
    overlap.  The sums are those of doubles, and none overflows.  The
    three examples of the specification are included. *)
Theorem calculateCompletionTimes_greedy {T : Type} `{QueueItem T}
    (queueData : list T) (numServers : Z) :
  Forall (fun it => 0 <= serviceTime it <= MAX_SERVICE_TIME) queueData ->
  (Z.of_nat (List.length queueData) < 2 ^ 32)%Z ->
  (1 <= numServers <= MAX_SERVERS)%Z ->
  (exists trace : list (nat * Assignment.t T),
      calculateCompletionTimes queueData (Some (inject_Z numServers))
      = Ok (Assignments (map snd trace))
      /\ List.length (map snd trace) = List.length queueData
      /\ Permutation (map served_item trace) queueData
      /\ map served_item trace = sort_items queueData
      /\ (Forall (fun it => position it = None) queueData ->
          map served_item trace = queueData)
      /\ Forall (fun e => Assignment.endTime (snd e)
                          = num_add (Assignment.startTime (snd e))
                              (serviceTime (served_item e))) trace
      /\ Forall (fun e => Assignment.startTime (snd e)
                          <= Assignment.endTime (snd e)
                          /\ isFinite (Assignment.endTime (snd e))) trace
      /\ Greedy (repeat 0 (Z.to_nat numServers)) trace
      /\ ForallOrdPairs disjoint trace)
  /\ calculateCompletionTimes [plain 10; plain 20; plain 5] (Some 1)
     = Ok (Assignments [Assignment.mk (plain 10) 0 10;
                        Assignment.mk (plain 20) 10 30;
                        Assignment.mk (plain 5) 30 35])
  /\ calculateCompletionTimes [plain 10; plain 10] (Some 2)
     = Ok (Assignments [Assignment.mk (plain 10) 0 10;
                        Assignment.mk (plain 10) 0 10])
  /\ (forall n : option Q,
        calculateCompletionTimes (@nil T) n = Ok (Assignments [])).
Proof.
  intros NN Len L.
  split; [|split; [vm_compute; reflexivity
                  |split; [vm_compute; reflexivity | reflexivity]]].
  destruct (calculateCompletionTimes_trace queueData numServers)
    as [trace [A [M G]]]; [unfold MAX_SERVERS in L; lia|].
  assert (P : Permutation (map served_item trace) queueData).
  { rewrite M. apply sort_items_Permutation. }
  assert (NB : Forall (fun e => 0 <= serviceTime (served_item e)
                                <= MAX_SERVICE_TIME) trace).
  { apply Forall_map with (f := served_item)
      (P := fun it => 0 <= serviceTime it <= MAX_SERVICE_TIME).
    apply (Permutation_Forall (Permutation_sym P)). exact NN. }
  assert (NT : Forall nonnegative trace).
  { apply Forall_impl with (2 := NB). intros e [N0 _]. exact N0. }
  pose proof (free_servers_doubles (Z.to_nat numServers)) as D0.
  assert (TL : List.length trace = List.length queueData).
  { transitivity (List.length (map served_item trace)).
    - rewrite length_map. reflexivity.
    - apply Permutation_length. exact P. }
  exists trace. split; [exact A|].
  split; [rewrite length_map; exact TL|].
  split; [exact P|]. split; [exact M|]. split.
  { intros U. rewrite M. apply sort_items_unpositioned. exact U. }
  split; [exact (Greedy_ends _ _ G)|]. split.
  { assert (F : Forall (fun x => 0 <= x <= inject_Z 0 * pow2 900)
                  (repeat 0 (Z.to_nat numServers))).
    { apply Forall_forall. intros x I. apply repeat_spec in I. subst x.
      split; [apply Qle_refl | vm_compute; discriminate]. }
    pose proof (Greedy_finite 900 _ _ ltac:(lia) G 0%Z ltac:(lia)
                  ltac:(rewrite TL; lia) NB F) as Fin.
    pose proof (Greedy_doubles _ _ G D0) as Db.
    pose proof (Greedy_ends _ _ G) as En.
    rewrite Forall_forall in *. intros e I.
    destruct (Fin e I) as [E0 E1]. destruct (Db e I) as [Ds _].
    split.
    - rewrite (En e I). apply ends_later; [exact Ds|].
      apply (NT e I).
    - unfold isFinite. rewrite Qabs_pos by exact E0.
      apply Qle_trans with (1 := E1).
      apply Qle_trans with (inject_Z (2 ^ 53) * pow2 900);
        [|vm_compute; discriminate].
      apply Qmult_le_compat_r; [|apply Qlt_le_weak, pow2_pos].
      rewrite <- Zle_Qle. rewrite TL. lia. }
  split; [exact G|].
  exact (Greedy_no_overlap _ _ G D0 NT).
Qed.

(** The theorem on the first example of the specification: one server,
    service times 10, 20 and 5. *)
Lemma calculateCompletionTimes_greedy_witness :
  (Forall (fun it => 0 <= serviceTime it <= MAX_SERVICE_TIME)
     [plain 10; plain 20; plain 5]
   /\ (Z.of_nat (List.length [plain 10; plain 20; plain 5]) < 2 ^ 32)%Z
   /\ (1 <= 1 <= MAX_SERVERS)%Z)
  /\ exists trace : list (nat * Assignment.t PlainItem),
       calculateCompletionTimes [plain 10; plain 20; plain 5] (Some (inject_Z 1))
       = Ok (Assignments (map snd trace))
       /\ ForallOrdPairs disjoint trace.
Proof.
  assert (N : Forall (fun it => 0 <= serviceTime it <= MAX_SERVICE_TIME)
                [plain 10; plain 20; plain 5]).
  { repeat constructor; vm_compute; discriminate. }
  assert (Len : (Z.of_nat (List.length [plain 10; plain 20; plain 5])
                 < 2 ^ 32)%Z) by (simpl; lia).
  assert (L : (1 <= 1 <= MAX_SERVERS)%Z) by (unfold MAX_SERVERS; lia).
  split; [repeat split; try assumption; apply L|].
  destruct (proj1 (calculateCompletionTimes_greedy
                     [plain 10; plain 20; plain 5] 1 N Len L))
    as [trace [A [_ [_ [_ [_ [_ [_ [_ D]]]]]]]]].
  exists trace. split; assumption.
Defined.

(** C3 as stated fails: a pool of 2^32 servers, or of one server and a
    half, makes [Array(numServers)] throw. *)
Lemma calculateCompletionTimes_pool_too_large :
  Forall (fun it => 0 <= serviceTime it) [plain 10]
  /\ 1 <= 4294967296
  /\ calculateCompletionTimes [plain 10] (Some 4294967296)
     = Throw (RangeError "Invalid array length")
  /\ 1 <= 3 # 2
  /\ calculateCompletionTimes [plain 10] (Some (3 # 2))
     = Throw (RangeError "Invalid array length").
Proof.
  split; [repeat constructor; discriminate|].
  split; [discriminate|]. split; [reflexivity|].
  split; [discriminate | reflexivity].
Qed.

End SchedulerFacts.

(** ** utils/time.ts: parseDuration *)

Module DurationFacts.
Import JS TimeUtils NumberFacts DoubleFacts.
Local Open Scope Z_scope.
Local Open Scope char_scope.

(** What the loop does on one pass. *)
Lemma scan_unfold (input : list ascii) (totalMs : option Q) :
  scan input totalMs
  = match exec input with
    | None => totalMs
    | Some (digits, unit, after) =>
        scan after (add_unit totalMs unit (parseInt digits))
    end.
Proof.
  funelim (scan input totalMs).
  - match goal with E : exec input = Some _ |- _ => rewrite E end. reflexivity.
  - match goal with E : exec input = None |- _ => rewrite E end. reflexivity.
Qed.

Lemma unit_not_digit (c : ascii) : is_unit c = true -> is_digit c = false.
Proof.
  unfold is_unit. simpl. rewrite !orb_true_iff, !Ascii.eqb_eq.
  intros [E|[E|[E|[E|[E|E]]]]]; subst; try reflexivity; discriminate.
Qed.

(** A token: a non-empty run of digits and the unit letter after it. *)
Definition Token : Type := (list ascii * ascii)%type.

Definition well_formed (t : Token) : Prop :=
  fst t <> [] /\ forallb is_digit (fst t) = true /\ is_unit (snd t) = true.

Definition token_text (t : Token) : list ascii := fst t ++ [snd t].

Lemma match_here_Some (input : list ascii) (digits : list ascii)
    (unit : ascii) (after : list ascii) :
  match_here input = Some (digits, unit, after) ->
  input = digits ++ unit :: after /\ well_formed (digits, unit).
Proof.
  revert digits. induction input as [|c input IH]; intros digits; simpl;
    [discriminate|].
  destruct (is_digit c) eqn:D; [|discriminate].
  destruct (match_here input) as [[[ds u] a]|] eqn:M.
  - intros E. inversion E; subst. destruct (IH _ eq_refl) as [I [N [F U]]].
    split; [simpl; congruence|]. unfold well_formed in *. simpl in *.
    rewrite D, F. repeat split; [discriminate | exact U].
  - destruct input as [|u a]; [discriminate|].
    destruct (is_unit u) eqn:U; [|discriminate].
    intros E. inversion E; subst. split; [reflexivity|].
    unfold well_formed. simpl. rewrite D. repeat split; [discriminate | exact U].
Qed.

Lemma match_here_token (t : Token) (after : list ascii) :
  well_formed t ->
  match_here (token_text t ++ after) = Some (fst t, snd t, after).
Proof.
  destruct t as [digits unit]. unfold well_formed, token_text. simpl.
  intros [N [F U]]. rewrite <- app_assoc. simpl.
  induction digits as [|c digits IH]; [congruence|].
  simpl in F. apply andb_true_iff in F. destruct F as [D F].
  simpl. rewrite D. destruct digits as [|c' digits].
  - simpl. rewrite (unit_not_digit _ U), U. reflexivity.
  - rewrite IH; [reflexivity | discriminate | exact F].
Qed.

Lemma exec_cons (c : ascii) (input : list ascii) :
  exec (c :: input)
  = match match_here (c :: input) with
    | Some m => Some m
    | None => exec input
    end.
Proof. reflexivity. Qed.

Lemma exec_Some (input : list ascii) (digits : list ascii)
    (unit : ascii) (after : list ascii) :
  exec input = Some (digits, unit, after) ->
  exists before,
    input = before ++ digits ++ unit :: after /\ well_formed (digits, unit).
Proof.
  induction input as [|c input IH]; [discriminate|].
  rewrite exec_cons.
  destruct (match_here (c :: input)) as [[[ds u] a]|] eqn:M.
  - intros E. inversion E; subst. exists [].
    apply match_here_Some in M. exact M.
  - intros E. destruct (IH E) as [before [I W]].
    exists (c :: before). split; [simpl; congruence | exact W].
Qed.

Lemma exec_token (t : Token) (after : list ascii) :
  well_formed t -> exec (token_text t ++ after) = Some (fst t, snd t, after).
Proof.
  intros W. pose proof (match_here_token t after W) as M.
  destruct (token_text t ++ after) as [|c l]; [discriminate|].
  rewrite exec_cons, M. reflexivity.
Qed.

Lemma exec_skip (gap input : list ascii) :
  forallb (fun c => negb (is_digit c)) gap = true ->
  exec (gap ++ input) = exec input.
Proof.
  induction gap as [|c gap IH]; simpl app; [reflexivity|].
  intros F. simpl in F. apply andb_true_iff in F. destruct F as [D F].
  rewrite exec_cons. simpl match_here.
  apply negb_true_iff in D. rewrite D. apply IH. exact F.
Qed.

Lemma exec_no_digit (gap : list ascii) :
  forallb (fun c => negb (is_digit c)) gap = true -> exec gap = None.
Proof.
  intros F. rewrite <- (app_nil_r gap), exec_skip by exact F. reflexivity.
Qed.

Lemma digit_value_nonneg (c : ascii) : is_digit c = true -> 0 <= digit_value c.
Proof.
  unfold is_digit, digit_value. rewrite andb_true_iff, !Nat.leb_le. lia.
Qed.

Lemma decimal_nonneg (digits : list ascii) :
  forallb is_digit digits = true -> 0 <= decimal digits.
Proof.
  unfold decimal.
  assert (G : forall acc, 0 <= acc -> forallb is_digit digits = true ->
                0 <= fold_left (fun a c => a * 10 + digit_value c) digits acc).
  { induction digits as [|c digits IH]; simpl; intros acc A F; [exact A|].
    apply andb_true_iff in F. destruct F as [D F].
    apply IH; [|exact F]. pose proof (digit_value_nonneg c D). lia. }
  apply G. lia.
Qed.

(** *** The result is a whole number, or Infinity *)

Definition whole (value : option Q) : Prop :=
  match value with
  | Some x => (0 <= x)%Q /\ is_integer x
  | None => True
  end.

Lemma overflow_whole (x : Q) :
  (0 <= x)%Q -> is_integer x -> whole (overflow x).
Proof.
  intros N I. unfold overflow. destruct (Qle_bool x MAX_VALUE); simpl; auto.
Qed.

Lemma times_whole (value : option Q) (k : Z) :
  0 <= k -> whole value -> whole (times value (inject_Z k)).
Proof.
  intros K W. destruct value as [v|]; simpl; [|exact I].
  destruct W as [N Iv]. apply overflow_whole.
  - unfold num_mul. apply double_nonneg. apply Qmult_le_0_compat; [exact N|].
    change 0%Q with (inject_Z 0). rewrite <- Zle_Qle. exact K.
  - unfold num_mul. apply double_integer.
    apply is_integer_mult; [exact Iv | apply is_integer_inject_Z].
Qed.

Lemma plus_whole (a b : option Q) : whole a -> whole b -> whole (plus a b).
Proof.
  intros A B. destruct a as [x|], b as [y|]; simpl; try exact I.
  destruct A as [Nx Ix], B as [Ny Iy]. apply overflow_whole.
  - unfold num_add. apply double_nonneg. lqa.
  - unfold num_add. apply double_integer, is_integer_plus; assumption.
Qed.

Lemma parseInt_whole (digits : list ascii) :
  forallb is_digit digits = true -> whole (parseInt digits).
Proof.
  intros F. unfold parseInt. apply overflow_whole.
  - apply double_nonneg. change 0%Q with (inject_Z 0). rewrite <- Zle_Qle.
    apply decimal_nonneg. exact F.
  - apply double_integer, is_integer_inject_Z.
Qed.

Lemma add_unit_whole (totalMs : option Q) (unit : ascii) (value : option Q) :
  whole totalMs -> whole value -> whole (add_unit totalMs unit value).
Proof.
  intros T V. unfold add_unit.
  repeat match goal with
    | |- context [if ?b then _ else _] => destruct b
    end;
    try exact T; apply plus_whole; try exact T;
    repeat (apply (times_whole _ 1000) || apply (times_whole _ 60)
            || apply (times_whole _ 24) || apply (times_whole _ 7); [lia|]);
    exact V.
Qed.

Lemma scan_whole (input : list ascii) (totalMs : option Q) :
  whole totalMs -> whole (scan input totalMs).
Proof.
  funelim (scan input totalMs); intros N; [|exact N].
  match goal with IH : _ -> whole (scan _ _) |- _ => apply IH end.
  match goal with E : exec input = Some _ |- _ =>
    destruct (exec_Some _ _ _ _ E) as [before [_ [_ [F _]]]] end.
  simpl in F. apply add_unit_whole; [exact N | apply parseInt_whole; exact F].
Qed.

Lemma or_zero_whole (value : option Q) : whole value -> whole (or_zero value).
Proof.
  destruct value as [x|]; simpl; [|auto].
  intros W. destruct (strict_eq x 0); simpl;
    [split; [apply Qle_refl | exists 0; reflexivity] | exact W].
Qed.

(** *** The sum of the tokens *)

(** The conversion table of the specification, in milliseconds. *)
Definition milliseconds_per (unit : ascii) : Z :=
  if Ascii.eqb unit "s" then 1000
  else if Ascii.eqb unit "m" then 60000
  else if Ascii.eqb unit "h" then 3600000
  else if Ascii.eqb unit "d" then 86400000
  else if Ascii.eqb unit "w" then 604800000
  else 0.

(** The value of a token in exact arithmetic, and the sum of such
    values. *)
Definition token_ms (t : Token) : Z :=
  decimal (fst t) * milliseconds_per (snd t).

Definition total (values : list Z) : Z := fold_right Z.add 0 values.

(** The value the loop gives to a list of tokens: each number read as a
    double, each product and each sum rounded. *)
Definition rounded_total (tokens : list Token) : option Q :=
  fold_left (fun totalMs t => add_unit totalMs (snd t) (parseInt (fst t)))
    tokens (Some 0%Q).

Definition no_digit (text : list ascii) : Prop :=
  forallb (fun c => negb (is_digit c)) text = true.

(** A text made of tokens, each after a gap without digits (a space, or
    nothing at all), and a tail without digits. *)
Definition render (pieces : list (list ascii * Token)) (tail : list ascii)
    : list ascii :=
  flat_map (fun p => fst p ++ token_text (snd p)) pieces ++ tail.

(** The text has a substring of the form digits, unit letter. *)
Definition has_token (input : list ascii) : Prop :=
  exists before t after,
    well_formed t /\ input = before ++ token_text t ++ after.

(** [parseInt] reads positional decimal notation. *)
Lemma decimal_snoc (digits : list ascii) (c : ascii) :
  decimal (digits ++ [c]) = decimal digits * 10 + digit_value c.
Proof. unfold decimal. rewrite fold_left_app. reflexivity. Qed.

Lemma scan_render_rounded (pieces : list (list ascii * Token))
    (tail : list ascii) (totalMs : option Q) :
  Forall (fun p => no_digit (fst p) /\ well_formed (snd p)) pieces ->
  no_digit tail ->
  scan (render pieces tail) totalMs
  = fold_left (fun totalMs t => add_unit totalMs (snd t) (parseInt (fst t)))
      (map snd pieces) totalMs.
Proof.
  intros F Tl. revert totalMs.
  induction F as [|[gap t] pieces [G W] F IH]; intros totalMs.
  - unfold render. simpl. rewrite scan_unfold, (exec_no_digit _ Tl).
    reflexivity.
  - unfold render in *. simpl in *.
    rewrite scan_unfold, <- !app_assoc, (exec_skip _ _ G), (exec_token _ _ W).
    rewrite IH. reflexivity.
Qed.

(** Up to 2^53 nothing is rounded. *)
Lemma overflow_exact (z : Z) :
  0 <= z <= 2 ^ 53 -> overflow (inject_Z z) = Some (inject_Z z).
Proof.
  intros [L U]. unfold overflow.
  rewrite (proj2 (Qle_bool_iff _ _)); [reflexivity|].
  apply Qle_trans with (inject_Z (2 ^ 53));
    [rewrite <- Zle_Qle; exact U | vm_compute; discriminate].
Qed.

Lemma times_exact (v k : Z) :
  0 <= v -> 0 <= k -> v * k <= 2 ^ 53 ->
  times (Some (inject_Z v)) (inject_Z k) = Some (inject_Z (v * k)).
Proof.
  intros V K B. unfold times.
  rewrite (num_mul_whole _ _ v k (Qeq_refl _) (Qeq_refl _)) by nia.
  apply overflow_exact. nia.
Qed.

Lemma plus_exact (a b : Z) :
  0 <= a -> 0 <= b -> a + b <= 2 ^ 53 ->
  plus (Some (inject_Z a)) (Some (inject_Z b)) = Some (inject_Z (a + b)).
Proof.
  intros A B U. unfold plus.
  rewrite (num_add_whole _ _ a b (Qeq_refl _) (Qeq_refl _)) by lia.
  apply overflow_exact. lia.
Qed.

Lemma parseInt_exact (digits : list ascii) :
  0 <= decimal digits <= 2 ^ 53 ->
  parseInt digits = Some (inject_Z (decimal digits)).
Proof.
  intros B. unfold parseInt. rewrite double_whole by lia.
  apply overflow_exact. exact B.
Qed.

Lemma add_unit_exact (a n : Z) (unit : ascii) :
  is_unit unit = true -> 0 <= a -> 0 <= n ->
  a + n * milliseconds_per unit <= 2 ^ 53 ->
  add_unit (Some (inject_Z a)) unit (Some (inject_Z n))
  = Some (inject_Z (a + n * milliseconds_per unit)).
Proof.
  intros U A N B. unfold is_unit in U. simpl in U.
  rewrite !orb_true_iff, !Ascii.eqb_eq in U.
  unfold add_unit.
  change 1000%Q with (inject_Z 1000). change 60%Q with (inject_Z 60).
  change 24%Q with (inject_Z 24). change 7%Q with (inject_Z 7).
  destruct U as [E|[E|[E|[E|[E|E]]]]]; [| | | | |discriminate];
    subst unit; cbn [Ascii.eqb Bool.eqb andb] in *;
    unfold milliseconds_per in B |- *; cbn [Ascii.eqb Bool.eqb andb] in *;
    repeat (rewrite times_exact by lia);
    rewrite plus_exact by lia; f_equal; f_equal; lia.
Qed.

Lemma scan_render (pieces : list (list ascii * Token)) (tail : list ascii)
    (totalMs : Z) :
  Forall (fun p => no_digit (fst p) /\ well_formed (snd p)) pieces ->
  no_digit tail ->
  0 <= totalMs ->
  totalMs + total (map token_ms (map snd pieces)) <= 2 ^ 53 ->
  scan (render pieces tail) (Some (inject_Z totalMs))
  = Some (inject_Z (totalMs + total (map token_ms (map snd pieces)))).
Proof.
  intros F Tl. revert totalMs.
  induction F as [|[gap t] pieces [G W] F IH]; intros totalMs T0 B.
  - unfold render. simpl. rewrite scan_unfold, (exec_no_digit _ Tl).
    f_equal. f_equal. lia.
  - unfold render in *. simpl in *.
    rewrite scan_unfold, <- !app_assoc, (exec_skip _ _ G), (exec_token _ _ W).
    assert (D : 0 <= decimal (fst t))
      by (apply decimal_nonneg; apply W).
    assert (R : 0 <= total (map token_ms (map snd pieces))).
    { clear - F. induction F as [|[g x] l [_ Wx] F IH]; simpl; [lia|].
      assert (0 <= token_ms x).
      { unfold token_ms. apply Z.mul_nonneg_nonneg;
          [apply decimal_nonneg; apply Wx|].
        unfold milliseconds_per.
        repeat match goal with
          | |- context [if ?b then _ else _] => destruct b
          end; lia. }
      lia. }
    assert (M : 1000 <= milliseconds_per (snd t)).
    { destruct W as [_ [_ U]]. unfold is_unit in U. simpl in U.
      rewrite !orb_true_iff, !Ascii.eqb_eq in U.
      destruct U as [E|[E|[E|[E|[E|E]]]]]; [| | | | |discriminate];
        rewrite E; vm_compute; discriminate. }
    set (rest := total (map token_ms (map snd pieces))) in *.
    unfold token_ms in B.
    set (n := decimal (fst t)) in *. set (per := milliseconds_per (snd t)) in *.
    assert (P : n <= n * per) by nia.
    rewrite parseInt_exact by (fold n; lia). fold n.
    rewrite add_unit_exact; [|apply W | exact T0 | exact D | fold per; lia].
    fold per. rewrite IH by (fold rest; nia).
    f_equal. f_equal. fold rest. unfold token_ms. fold n per. lia.
Qed.

Lemma or_zero_whole_number (z : Z) :
  or_zero (Some (inject_Z z)) = Some (inject_Z z).
Proof.
  unfold or_zero, strict_eq. destruct (Qeq_bool (inject_Z z) 0) eqn:E;
    [|reflexivity].
  apply Qeq_bool_iff in E.
  assert (Z0 : z = 0) by (apply inject_Z_injective; exact E).
  rewrite Z0. reflexivity.
Qed.

(** C10, as the code has it: [parseDuration] returns on every string,
    and what it returns is not negative and is a whole number, unless
    it is [Infinity]; it is 0 on a string without a token; and, on a
    string made of tokens, it is the sum of their values in
    milliseconds as doubles compute it, which is the exact sum whenever
    that sum is at most 2^53. *)
Theorem parseDuration_spec (timeString : string) :
  whole (parseDuration timeString)
  /\ (~ has_token (list_ascii_of_string timeString) ->
      parseDuration timeString = Some 0%Q)
  /\ (forall pieces tail,
        Forall (fun p => no_digit (fst p) /\ well_formed (snd p)) pieces ->
        no_digit tail ->
        list_ascii_of_string timeString = render pieces tail ->
        parseDuration timeString = or_zero (rounded_total (map snd pieces))
        /\ (total (map token_ms (map snd pieces)) <= 2 ^ 53 ->
            parseDuration timeString
            = Some (inject_Z (total (map token_ms (map snd pieces))))))
  /\ milliseconds_per "s" = 1000 /\ milliseconds_per "m" = 60000
  /\ milliseconds_per "h" = 3600000 /\ milliseconds_per "d" = 86400000
  /\ milliseconds_per "w" = 604800000
  /\ parseDuration "2h 30m"%string = Some 9000000%Q
  /\ parseDuration "soon"%string = Some 0%Q.
Proof.
  unfold parseDuration.
  split.
  { apply or_zero_whole, scan_whole. simpl.
    split; [apply Qle_refl | exists 0; reflexivity]. }
  split.
  { intros N. rewrite scan_unfold.
    destruct (exec (list_ascii_of_string timeString)) as [[[ds u] a]|] eqn:E;
      [|reflexivity].
    exfalso. apply N. destruct (exec_Some _ _ _ _ E) as [before [I W]].
    exists before, (ds, u), a. split; [exact W|].
    unfold token_text. simpl. rewrite <- app_assoc. exact I. }
  split.
  { intros pieces tail F Tl E. rewrite E. split.
    - rewrite scan_render_rounded by assumption. reflexivity.
    - intros B. change (Some 0%Q) with (Some (inject_Z 0)).
      rewrite scan_render by (try assumption; lia).
      rewrite or_zero_whole_number. reflexivity. }
  repeat split; vm_compute; reflexivity.
Qed.

(** A run of 309 zeros after a 1. *)
Definition googol_and_more : string :=
  String "1" (string_of_list_ascii (repeat "0" 309 ++ ["s"])).

(** C10 as stated fails.  The seconds of "9007199254740993s" are read
    as 9007199254740992, so that the result is not the value of the
    token in milliseconds; and a number of 310 digits is read as
    [Infinity], which is not an integer. *)
Lemma parseDuration_not_exact_sum :
  parseDuration "9007199254740993s"%string = Some 9007199254740992000%Q
  /\ token_ms (list_ascii_of_string "9007199254740993"%string, "s")
     = 9007199254740993000
  /\ parseDuration "9007199254740993s"%string
     <> Some (inject_Z
                (token_ms
                   (list_ascii_of_string "9007199254740993"%string, "s")))
  /\ parseDuration googol_and_more = None
  /\ ~ (exists ms : Z, parseDuration googol_and_more = Some (inject_Z ms)).
Proof.
  assert (A : parseDuration "9007199254740993s"%string
              = Some 9007199254740992000%Q) by (vm_compute; reflexivity).
  assert (B : parseDuration googol_and_more = None)
    by (vm_compute; reflexivity).
  split; [exact A|]. split; [vm_compute; reflexivity|].
  split; [rewrite A; vm_compute; discriminate|].
  split; [exact B|]. rewrite B. intros [ms E]. discriminate.
Qed.

End DurationFacts.

(** ** utils/geo.ts: the longitude normalisation *)

Module GeoFacts.
Import GeoUtils.
Local Open Scope R_scope.









Lemma Math_atan2_0_positive (x : R) : 0 < x -> Math_atan2 0 x = 0.
Proof.
  intros X. unfold Math_atan2. destruct (Rlt_dec 0 x); [|contradiction].
  unfold Rdiv. rewrite Rmult_0_l. apply atan_0.
Qed.






End GeoFacts.

(** ** Failures: unit arguments, and the degenerate numeric inputs *)

Module FailureFacts.
Import JS TimeUtils QueueUtils NumberFacts DoubleFacts.
Local Open Scope Q_scope.

(** Runs through a chain of [unit === "..."] tests: on a supported unit
    the call returns, past the last test it throws. *)
Ltac unit_cases unit :=
  repeat match goal with
    | |- context [String.eqb unit ?s] =>
        destruct (String.eqb_spec unit s) as [->|?];
        [simpl; split;
         [contradiction | intros N; exfalso; apply N; simpl; tauto]|]
    end;
  simpl; split; [intros _ I; simpl in I; intuition congruence | intros _; exact I].

Lemma toMilliseconds_throws (value : Q) (unit : string) :
  throws (toMilliseconds value unit) <-> ~ In unit TimeUnit.
Proof. unfold toMilliseconds, TimeUnit. unit_cases unit. Qed.

Lemma dateDiff_throws (w : World) (date1 : Date) (date2 : option Date)
    (unit : string) :
  throws (dateDiff w date1 date2 (Some unit)) <-> ~ In unit TimeUnit.
Proof. unfold dateDiff, TimeUnit. simpl orDefault. unit_cases unit. Qed.

Lemma startOf_throws `{LocalCalendar} (date : Date) (unit : string) :
  throws (startOf date unit) <-> ~ In unit CalendarUnit.
Proof. unfold startOf, CalendarUnit. unit_cases unit. Qed.

Lemma endOf_throws `{LocalCalendar} (date : Date) (unit : string) :
  throws (endOf date unit) <-> ~ In unit CalendarUnit.
Proof. unfold endOf, CalendarUnit. unit_cases unit. Qed.

Lemma calculateCompletionTimes_throws {T : Type} `{QueueItem T}
    (queueData : list T) (numServers : option Q) :
  throws (calculateCompletionTimes queueData numServers)
  <-> queueData <> [] /\ is_array_length (orDefault numServers 1) = false.
Proof.
  unfold calculateCompletionTimes, Array_fill.
  destruct queueData as [|it rest]; cbn [orDefault].
  - simpl. split; [contradiction | intros [N _]; congruence].
  - destruct (is_array_length (orDefault numServers 1)).
    + destruct (assign_servers _ _); simpl;
        (split; [contradiction | intros [_ N]; discriminate]).
    + simpl.
      split; [intros _; split; [discriminate | reflexivity] | intros _; exact I].
Qed.

(** The variance factor is never negative when the variance is at most
    1. *)
Lemma varianceFactor_nonneg (r v : Q) :
  0 <= r -> r < 1 -> 0 <= v <= 1 ->
  0 <= num_add 1 (num_mul (num_sub (num_mul r 2) 1) v).
Proof.
  intros R0 R1 [V0 V1].
  assert (A : 0 <= num_mul r 2) by (apply double_nonneg; lqa).
  assert (B : -(1) <= num_sub (num_mul r 2) 1).
  { unfold num_sub.
    apply (double_above _ (inject_Z (-1)));
      [apply is_double_small; lia|].
    change (inject_Z (-1)) with (-(1)). lqa. }
  set (b := num_sub (num_mul r 2) 1) in *.
  assert (C : -(1) <= num_mul b v).
  { unfold num_mul.
    apply (double_above _ (inject_Z (-1)));
      [apply is_double_small; lia|].
    change (inject_Z (-1)) with (-(1)).
    assert (0 <= (1 + b) * v) by (apply Qmult_le_0_compat; lqa).
    assert (0 <= (1 - v)) by lqa.
    lqa. }
  unfold num_add. apply double_nonneg. lqa.
Qed.

Lemma calculateWaitTime_degenerate (w : World)
    (position averageServiceTime varianceServiceTime : Q) :
  0 <= position -> averageServiceTime <= 0 ->
  0 <= varianceServiceTime <= 1 -> random_in_range w ->
  isFinite (num_mul position averageServiceTime) ->
  calculateWaitTime w position averageServiceTime (Some varianceServiceTime) = 0.
Proof.
  intros P A V [R0 R1] _. unfold calculateWaitTime. simpl orDefault.
  assert (X : num_mul position averageServiceTime <= 0).
  { unfold num_mul. apply double_nonpos.
    setoid_replace (position * averageServiceTime)
      with (- (position * - averageServiceTime)) by ring.
    assert (0 <= position * - averageServiceTime)
      by (apply Qmult_le_0_compat; lqa). lqa. }
  assert (low : forall x, x <= 0 -> Math_max 0 (Math_round x) = 0).
  { intros x Lx. unfold Math_max.
    rewrite (proj2 (num_lt_false_iff 0 (Math_round x))); [reflexivity|].
    apply Math_round_nonpos. exact Lx. }
  destruct (num_gt varianceServiceTime 0) eqn:G; [|apply low; exact X].
  apply low.
  pose proof (varianceFactor_nonneg _ _ R0 R1 V) as F.
  set (f := num_add 1 (num_mul (num_sub (num_mul (random w) 2) 1)
                         varianceServiceTime)) in *.
  set (product := num_mul position averageServiceTime) in *.
  unfold num_mul. apply double_nonpos.
  setoid_replace (product * f) with (- ((- product) * f)) by ring.
  assert (0 <= (- product) * f) by (apply Qmult_le_0_compat; lqa).
  lqa.
Qed.

(** C6, as the code has it.  The four time-unit operations throw exactly
    on a unit outside their enumeration.  Among the numeric operations
    only [calculateCompletionTimes] can throw: it does on a non-empty
    list with a [numServers] that is not a whole number from 0 to
    2^32 - 1, and it does not on a whole number from 0 to [MAX_SERVERS]
    (in between, the limits of the engine decide).  The guarded
    degenerate inputs give the defaults 0, 1, the unchanged estimate and
    the empty list. *)
Theorem failures_and_defaults :
  (forall value unit,
      throws (toMilliseconds value unit) <-> ~ In unit TimeUnit)
  /\ (forall w date1 date2 unit,
        throws (dateDiff w date1 date2 (Some unit)) <-> ~ In unit TimeUnit)
  /\ (forall w date1 date2, returns (dateDiff w date1 date2 None))
  /\ (forall (calendar : LocalCalendar) date unit,
        throws (startOf date unit) <-> ~ In unit CalendarUnit)
  /\ (forall (calendar : LocalCalendar) date unit,
        throws (endOf date unit) <-> ~ In unit CalendarUnit)
  /\ (forall (T : Type) (items : QueueItem T) (queueData : list T) numServers,
        queueData <> [] ->
        ~ (exists k : Z,
              (0 <= k < 2 ^ 32)%Z /\ orDefault numServers 1 == inject_Z k) ->
        throws (calculateCompletionTimes queueData numServers))
  /\ (forall (T : Type) (items : QueueItem T) (queueData : list T) numServers
        (k : Z),
        (0 <= k <= MAX_SERVERS)%Z -> orDefault numServers 1 == inject_Z k ->
        returns (calculateCompletionTimes queueData numServers))
  /\ (forall (T : Type) (items : QueueItem T) numServers,
        calculateCompletionTimes (@nil T) numServers = Ok (Assignments []))
  /\ (forall timePeriod averageServiceTime numServers,
        averageServiceTime <= 0 ->
        estimateServedInTime timePeriod averageServiceTime numServers = 0)
  /\ (forall queueLength averageServiceTime targetWaitTime,
        averageServiceTime <= 0 \/ targetWaitTime <= 0 ->
        calculateOptimalServers queueLength averageServiceTime targetWaitTime = 1)
  /\ (forall totalNoShows totalEntries,
        totalEntries <= 0 ->
        calculateNoShowProbability totalNoShows totalEntries = 0)
  /\ (forall Math_exp estimatedWaitTime noShowProbability position,
        noShowProbability <= 0 \/ position <= 0 ->
        adjustForNoShowProbability Math_exp estimatedWaitTime noShowProbability
          position = estimatedWaitTime)
  /\ (forall currentPosition targetPosition averageServiceTime,
        currentPosition <= 0 \/ targetPosition <= 0
        \/ currentPosition < targetPosition ->
        estimateTimeUntilPosition currentPosition targetPosition
          averageServiceTime = 0)
  /\ (forall w position averageServiceTime varianceServiceTime,
        0 <= position -> averageServiceTime <= 0 ->
        0 <= varianceServiceTime <= 1 -> random_in_range w ->
        isFinite (num_mul position averageServiceTime) ->
        calculateWaitTime w position averageServiceTime
          (Some varianceServiceTime) = 0).
Proof.
  split; [exact toMilliseconds_throws|].
  split; [exact dateDiff_throws|].
  split; [intros; exact I|].
  split; [intros; apply startOf_throws|].
  split; [intros; apply endOf_throws|].
  split.
  { intros T items queueData numServers NE NL.
    apply calculateCompletionTimes_throws. split; [exact NE|].
    destruct (is_array_length (orDefault numServers 1)) eqn:E; [|reflexivity].
    exfalso. apply NL, SchedulerFacts.is_array_length_iff. exact E. }
  split.
  { intros T items queueData numServers k K E.
    destruct (calculateCompletionTimes queueData numServers) eqn:R;
      [exact I|].
    exfalso.
    assert (Th : throws (calculateCompletionTimes queueData numServers))
      by (rewrite R; exact I).
    apply calculateCompletionTimes_throws in Th. destruct Th as [_ Th].
    assert (A : is_array_length (orDefault numServers 1) = true).
    { apply SchedulerFacts.is_array_length_iff. exists k.
      split; [unfold MAX_SERVERS in K; lia | exact E]. }
    congruence. }
  split; [reflexivity|].
  split.
  { intros t a n A. unfold estimateServedInTime.
    rewrite (proj2 (num_le_iff _ _) A). reflexivity. }
  split.
  { intros q a t [H|H]; unfold calculateOptimalServers;
      rewrite (proj2 (num_le_iff _ _) H), ?orb_true_r; reflexivity. }
  split.
  { intros n e E. unfold calculateNoShowProbability.
    rewrite (proj2 (num_le_iff _ _) E). reflexivity. }
  split.
  { intros ex e p pos [H|H]; unfold adjustForNoShowProbability;
      rewrite (proj2 (num_le_iff _ _) H), ?orb_true_r; reflexivity. }
  split.
  { intros c t a [H|[H|H]]; unfold estimateTimeUntilPosition;
      [rewrite (proj2 (num_le_iff _ _) H)
      |rewrite (proj2 (num_le_iff _ _) H)
      |rewrite (proj2 (num_gt_iff _ _) H)];
      rewrite ?orb_true_r; reflexivity. }
  exact calculateWaitTime_degenerate.
Qed.

(** C6 as stated fails: a negative server count makes
    [calculateCompletionTimes] throw on a non-empty queue; and an empty
    pool gives times that are not numbers. *)
Lemma calculateCompletionTimes_negative_pool :
  calculateCompletionTimes [plain 10] (Some (-1))
  = Throw (RangeError "Invalid array length")
  /\ throws (calculateCompletionTimes [plain 10] (Some (-1)))
  /\ calculateCompletionTimes [plain 10] (Some 0) = Ok (NotANumber [plain 10]).
Proof. repeat split. Qed.

End FailureFacts.

(** ** Determinism: what each operation reads besides its arguments *)

Module AmbientFacts.
Import JS TimeUtils QueueUtils NotificationUtils NumberFacts.
Local Open Scope Q_scope.

(** Two objects that differ, if at all, in the value of the one property
    [k]. *)
Inductive same_but (k : string) : Object -> Object -> Prop :=
| same_all (o : Object) : same_but k o o
| same_but_here (before after : Object) (v1 v2 : JSValue) :
    ~ In k (map fst before) ->
    same_but k (before ++ (k, v1) :: after) (before ++ (k, v2) :: after).

Lemma set_property_app_in (k : string) (v : JSValue) (o1 o2 : Object) :
  In k (map fst o1) -> set_property k v (o1 ++ o2) = set_property k v o1 ++ o2.
Proof.
  induction o1 as [|[k' v'] o1 IH]; simpl; [contradiction|].
  intros I. destruct (String.eqb_spec k' k) as [E|N]; [reflexivity|].
  destruct I as [I|I]; [congruence|]. rewrite (IH I). reflexivity.
Qed.

Lemma set_property_app_out (k : string) (v : JSValue) (o1 o2 : Object) :
  ~ In k (map fst o1) -> set_property k v (o1 ++ o2) = o1 ++ set_property k v o2.
Proof.
  induction o1 as [|[k' v'] o1 IH]; simpl; [reflexivity|].
  intros I. destruct (String.eqb_spec k' k) as [E|N]; [tauto|].
  rewrite IH by tauto. reflexivity.
Qed.

Lemma set_property_keys_in (k : string) (v : JSValue) (o : Object) :
  In k (map fst o) -> map fst (set_property k v o) = map fst o.
Proof.
  induction o as [|[k' v'] o IH]; simpl; [contradiction|].
  intros I. destruct (String.eqb_spec k' k) as [E|N]; simpl; [congruence|].
  destruct I as [I|I]; [congruence|]. rewrite (IH I). reflexivity.
Qed.

(** Writing the property [k] makes the two objects equal; writing any
    other property keeps them equal but for [k]. *)
Lemma set_property_same_but (k k' : string) (v : JSValue) (o1 o2 : Object) :
  same_but k o1 o2 ->
  same_but k (set_property k' v o1) (set_property k' v o2)
  /\ (k' = k -> set_property k' v o1 = set_property k' v o2).
Proof.
  intros [o|before after v1 v2 N]; [split; [constructor | reflexivity]|].
  destruct (String.eqb_spec k' k) as [->|D].
  - assert (E : forall x, set_property k v (before ++ (k, x) :: after)
                          = before ++ (k, v) :: after).
    { intros x. rewrite set_property_app_out by exact N. simpl.
      rewrite String.eqb_refl. reflexivity. }
    rewrite !E. split; [constructor | reflexivity].
  - split; [|congruence].
    destruct (in_dec string_dec k' (map fst before)) as [I|I].
    + rewrite !set_property_app_in by exact I.
      apply same_but_here. rewrite set_property_keys_in by exact I. exact N.
    + rewrite !set_property_app_out by exact I. simpl.
      destruct (String.eqb_spec k k') as [E|_]; [congruence|].
      apply same_but_here. exact N.
Qed.

Lemma fold_set_property_same_but (k : string) (data o1 o2 : Object) :
  same_but k o1 o2 ->
  let write := fun o (kv : string * JSValue) => set_property (fst kv) (snd kv) o in
  same_but k (fold_left write data o1) (fold_left write data o2)
  /\ (In k (map fst data) -> fold_left write data o1 = fold_left write data o2).
Proof.
  intros S write. revert o1 o2 S.
  induction data as [|[k' v] data IH]; intros o1 o2 S; simpl.
  - split; [exact S | contradiction].
  - destruct (set_property_same_but k k' v o1 o2 S) as [S' E].
    destruct (IH _ _ S') as [S'' E'']. split; [exact S''|].
    intros [I|I]; [|exact (E'' I)].
    unfold write at 2 4. simpl. rewrite (E I). reflexivity.
Qed.

Lemma set_property_twice (k : string) (t1 t2 : JSValue) (o : Object) :
  same_but k (set_property k t1 o) (set_property k t2 o).
Proof.
  induction o as [|[k' v'] o IH]; simpl.
  - apply (same_but_here k [] []). simpl. tauto.
  - destruct (String.eqb_spec k' k) as [->|N].
    + apply (same_but_here k [] o). simpl. tauto.
    + inversion IH as [o' E1 E2|before after v1 v2 NB E1 E2].
      * replace (set_property k t2 o) with (set_property k t1 o) by congruence.
        constructor.
      * apply (same_but_here k ((k', v') :: before) after).
        simpl. intros [X|X]; [congruence | exact (NB X)].
Qed.

(** A [timestamp] supplied in [data] replaces the one read from the
    clock: [...data] comes last in the object literal. *)
Lemma literal_timestamp_override (props : list (string * JSValue))
    (t1 t2 : JSValue) (data : Object) :
  In "timestamp"%string (map fst data) ->
  literal (props ++ [("timestamp"%string, t1)]) data
  = literal (props ++ [("timestamp"%string, t2)]) data.
Proof.
  intros I. unfold literal. rewrite !fold_left_app. simpl.
  apply (fold_set_property_same_but "timestamp"%string data); [|exact I].
  apply set_property_twice.
Qed.

(** C7, as the code has it.  The three notification builders read the
    system clock and nothing else of the ambient state, and not even
    that when [data] supplies its own [timestamp]; [calculateWaitTime]
    reads [Math.random()] when the variance is positive and nothing
    otherwise; [calculateRecommendedLeaveTime] reads both, and neither
    when the variance passed is not positive and [currentTime] is given;
    [dateDiff] reads the clock only for a missing second date.  Two
    calls with the same arguments agree whenever the ambient values
    that are read agree. *)
Theorem ambient_reads (w1 w2 : World) :
  (clock w1 = clock w2 ->
   (forall queueName data,
       createYourTurnNowNotification w1 queueName data
       = createYourTurnNowNotification w2 queueName data)
   /\ (forall status queueName reason data,
         createQueueStatusNotification w1 status queueName reason data
         = createQueueStatusNotification w2 status queueName reason data)
   /\ (forall title message data,
         createCustomNotification w1 title message data
         = createCustomNotification w2 title message data))
  /\ (forall data, In "timestamp"%string (map fst data) ->
      (forall queueName,
          createYourTurnNowNotification w1 queueName (Some data)
          = createYourTurnNowNotification w2 queueName (Some data))
      /\ (forall status queueName reason,
            createQueueStatusNotification w1 status queueName reason (Some data)
            = createQueueStatusNotification w2 status queueName reason (Some data))
      /\ (forall title message,
            createCustomNotification w1 title message (Some data)
            = createCustomNotification w2 title message (Some data)))
  /\ (random w1 = random w2 ->
      forall position averageServiceTime varianceServiceTime,
        calculateWaitTime w1 position averageServiceTime varianceServiceTime
        = calculateWaitTime w2 position averageServiceTime varianceServiceTime)
  /\ (forall position averageServiceTime varianceServiceTime,
        varianceServiceTime <= 0 ->
        calculateWaitTime w1 position averageServiceTime (Some varianceServiceTime)
        = calculateWaitTime w2 position averageServiceTime (Some varianceServiceTime))
  /\ (random w1 = random w2 -> clock w1 = clock w2 ->
      forall position averageServiceTime travelTime options,
        calculateRecommendedLeaveTime w1 position averageServiceTime travelTime options
        = calculateRecommendedLeaveTime w2 position averageServiceTime travelTime options)
  /\ (forall position averageServiceTime travelTime variance buffer minBuffer
        maxBuffer currentTime,
        variance <= 0 ->
        let options :=
          Options.mk (Some variance) buffer minBuffer maxBuffer (Some currentTime) in
        calculateRecommendedLeaveTime w1 position averageServiceTime travelTime options
        = calculateRecommendedLeaveTime w2 position averageServiceTime travelTime options)
  /\ (forall date1 date2 unit,
        dateDiff w1 date1 (Some date2) unit = dateDiff w2 date1 (Some date2) unit).
Proof.
  assert (still : forall position averageServiceTime varianceServiceTime,
             varianceServiceTime <= 0 ->
             calculateWaitTime w1 position averageServiceTime (Some varianceServiceTime)
             = calculateWaitTime w2 position averageServiceTime (Some varianceServiceTime)).
  { intros p a v V. unfold calculateWaitTime. simpl orDefault.
    rewrite (proj2 (num_gt_false_iff _ _) V). reflexivity. }
  split.
  { intros C.
    unfold createYourTurnNowNotification, createQueueStatusNotification,
      createCustomNotification.
    rewrite C. repeat split. }
  split.
  { intros data I.
    unfold createYourTurnNowNotification, createQueueStatusNotification,
      createCustomNotification. simpl orDefault.
    split; [|split]; intros.
    - f_equal.
      apply (literal_timestamp_override [("queueName"%string, VString queueName)]).
      exact I.
    - destruct status; cbv beta iota zeta; f_equal;
      apply (literal_timestamp_override
               [("queueName"%string, VString queueName);
                ("status"%string, VString _);
                ("reason"%string, optional_string reason)]);
      exact I.
    - f_equal. apply (literal_timestamp_override []). exact I. }
  split.
  { intros R p a v. unfold calculateWaitTime. rewrite R. reflexivity. }
  split; [exact still|].
  split.
  { intros R C p a t o. unfold calculateRecommendedLeaveTime, calculateWaitTime.
    rewrite R, C. reflexivity. }
  split.
  { intros p a t v b mn mx ct V options.
    unfold calculateRecommendedLeaveTime. simpl orDefault.
    rewrite (still p a v V). reflexivity. }
  reflexivity.
Qed.

(** C7 as stated fails.  With the same arguments the three builders
    return different payloads at different clock readings, and so does
    [calculateRecommendedLeaveTime]; [calculateWaitTime] returns
    different estimates for different draws of [Math.random()], which no
    argument carries. *)
Lemma hidden_reads :
  createYourTurnNowNotification (mkWorld 0 0) "Main" None
  <> createYourTurnNowNotification (mkWorld 0 1) "Main" None
  /\ createQueueStatusNotification (mkWorld 0 0) PAUSED "Main" None None
     <> createQueueStatusNotification (mkWorld 0 1) PAUSED "Main" None None
  /\ createCustomNotification (mkWorld 0 0) "Hello" "World" None
     <> createCustomNotification (mkWorld 0 1) "Hello" "World" None
  /\ calculateRecommendedLeaveTime (mkWorld 0 0) 25 60 0
       (Options.mk (Some 0) None None None None)
     <> calculateRecommendedLeaveTime (mkWorld 0 1) 25 60 0
          (Options.mk (Some 0) None None None None)
  /\ calculateWaitTime (mkWorld 0 0) 10 60 None = 480
  /\ calculateWaitTime (mkWorld (9 # 10) 0) 10 60 None = 696.
Proof.
  repeat split; try reflexivity; intros E; vm_compute in E; discriminate E.
Qed.

End AmbientFacts.

(** ** Numbers as text, and utils/time.ts: formatDuration, timeAgo *)

Module FormatFacts.
Import JS TimeUtils DurationFacts.
Local Open Scope Z_scope.

Lemma digits_unfold (n : Z) :
  Text.digits n
  = if Z_lt_dec n 10 then [Text.digit_char n]
    else Text.digits (n / 10) ++ [Text.digit_char (n mod 10)].
Proof.
  funelim (Text.digits n);
    match goal with E : Z_lt_dec _ _ = _ |- _ => rewrite E end; reflexivity.
Qed.

Lemma digit_char_facts (d : Z) :
  0 <= d < 10 ->
  is_digit (Text.digit_char d) = true /\ digit_value (Text.digit_char d) = d.
Proof.
  intros H.
  assert (C : d = 0 \/ d = 1 \/ d = 2 \/ d = 3 \/ d = 4 \/ d = 5 \/ d = 6
              \/ d = 7 \/ d = 8 \/ d = 9) by lia.
  repeat (destruct C as [->|C]; [split; reflexivity|]). subst. split; reflexivity.
Qed.

(** Printing a non-negative integer and reading the digits back gives
    the integer; what is printed is a non-empty run of digits. *)
Lemma digits_parseInt (n : Z) :
  0 <= n ->
  decimal (Text.digits n) = n
  /\ forallb is_digit (Text.digits n) = true
  /\ Text.digits n <> [].
Proof.
  revert n.
  assert (G : forall k n, 0 <= n -> Z.to_nat n = k ->
                decimal (Text.digits n) = n
                /\ forallb is_digit (Text.digits n) = true
                /\ Text.digits n <> []).
  { induction k as [k IH] using lt_wf_ind. intros n N K.
    rewrite digits_unfold. destruct (Z_lt_dec n 10) as [S|B].
    - destruct (digit_char_facts n) as [D V]; [lia|].
      change (decimal [Text.digit_char n]) with (0 * 10 + digit_value (Text.digit_char n)).
      change (forallb is_digit [Text.digit_char n])
        with (is_digit (Text.digit_char n) && true)%bool.
      rewrite D, V. repeat split; try lia; discriminate.
    - assert (Q : 0 <= n / 10 < n)
        by (split; [apply Z.div_pos | apply Z.div_lt]; lia).
      destruct (IH (Z.to_nat (n / 10)) ltac:(lia) (n / 10) ltac:(lia) eq_refl)
        as [P [F _]].
      destruct (digit_char_facts (n mod 10)) as [D V];
        [apply Z.mod_pos_bound; lia|].
      rewrite decimal_snoc, P, V, forallb_app, F.
      change (forallb is_digit [Text.digit_char (n mod 10)])
        with (is_digit (Text.digit_char (n mod 10)) && true)%bool.
      rewrite D.
      repeat split.
      + pose proof (Z.div_mod n 10). lia.
      + intros E. apply app_eq_nil in E. destruct E; discriminate. }
  intros n N. exact (G _ n N eq_refl).
Qed.

Lemma list_ascii_of_string_app (a b : string) :
  list_ascii_of_string (a ++ b)%string
  = list_ascii_of_string a ++ list_ascii_of_string b.
Proof. induction a as [|c a IH]; simpl; [reflexivity | rewrite IH; reflexivity]. Qed.

Lemma Number_toString_digits (n : Z) :
  0 <= n -> list_ascii_of_string (Text.Number_toString n) = Text.digits n.
Proof.
  intros N. unfold Text.Number_toString.
  destruct (Z.ltb_spec n 0); [lia|]. apply list_ascii_of_string_of_list_ascii.
Qed.

(** The token a number and a unit letter print as. *)
Definition printed (value : Z) (unit : ascii) : Token :=
  (Text.digits value, unit).

Lemma printed_well_formed (value : Z) (unit : ascii) :
  0 <= value -> is_unit unit = true -> well_formed (printed value unit).
Proof.
  intros V U. destruct (digits_parseInt value V) as [_ [F N]].
  unfold well_formed, printed. simpl. repeat split; assumption.
Qed.

Lemma printed_ms (value : Z) (unit : ascii) :
  0 <= value -> token_ms (printed value unit) = value * milliseconds_per unit.
Proof.
  intros V. unfold token_ms, printed. cbn [fst snd].
  rewrite (proj1 (digits_parseInt value V)). reflexivity.
Qed.

(** [parseDuration] on what [formatDuration] prints: one token between a
    gap and a tail without digits, or two tokens a space apart. *)
Lemma parseDuration_one (text : string) (gap : list ascii) (value : Z)
    (unit : ascii) (tail : list ascii) :
  0 <= value -> is_unit unit = true -> no_digit gap -> no_digit tail ->
  value * milliseconds_per unit <= 2 ^ 53 ->
  list_ascii_of_string text = gap ++ Text.digits value ++ unit :: tail ->
  parseDuration text = Some (inject_Z (value * milliseconds_per unit)).
Proof.
  intros V U G Tl B E. unfold parseDuration. rewrite E.
  replace (gap ++ Text.digits value ++ unit :: tail)
    with (render [(gap, printed value unit)] tail).
  - change (Some 0%Q) with (Some (inject_Z 0)). rewrite scan_render.
    + cbn [map snd total fold_right]. rewrite printed_ms by exact V.
      rewrite or_zero_whole_number. f_equal. f_equal. lia.
    + repeat constructor; try apply printed_well_formed; assumption.
    + exact Tl.
    + lia.
    + cbn [map snd total fold_right]. rewrite printed_ms by exact V. lia.
  - unfold render, token_text, printed. cbn [flat_map fst snd].
    rewrite !app_nil_r, <- !app_assoc. reflexivity.
Qed.

Lemma parseDuration_two (text : string) (v1 v2 : Z) (u1 u2 : ascii) :
  0 <= v1 -> 0 <= v2 -> is_unit u1 = true -> is_unit u2 = true ->
  v1 * milliseconds_per u1 + v2 * milliseconds_per u2 <= 2 ^ 53 ->
  list_ascii_of_string text
  = Text.digits v1 ++ u1 :: " "%char :: Text.digits v2 ++ [u2] ->
  parseDuration text
  = Some (inject_Z (v1 * milliseconds_per u1 + v2 * milliseconds_per u2)).
Proof.
  intros V1 V2 U1 U2 B E. unfold parseDuration. rewrite E.
  replace (Text.digits v1 ++ u1 :: " "%char :: Text.digits v2 ++ [u2])
    with (render [([], printed v1 u1); ([" "%char], printed v2 u2)] []).
  - change (Some 0%Q) with (Some (inject_Z 0)). rewrite scan_render.
    + cbn [map snd total fold_right]. rewrite !printed_ms by assumption.
      rewrite or_zero_whole_number. f_equal. f_equal. lia.
    + repeat constructor; try apply printed_well_formed; assumption.
    + reflexivity.
    + lia.
    + cbn [map snd total fold_right]. rewrite !printed_ms by assumption. lia.
  - unfold render, token_text, printed. cbn [flat_map fst snd].
    rewrite !app_nil_r, <- !app_assoc. reflexivity.
Qed.

(** What [formatDuration] keeps of a duration: whole seconds below an
    hour, whole minutes below a day, whole hours below a week, whole
    days from there on. *)
Definition granularity (ms : Z) : Z :=
  if ms <? 3600000 then 1000
  else if ms <? 86400000 then 60000
  else if ms <? 604800000 then 3600000
  else 86400000.

(** Normalises the text of a formatted duration into digits and unit
    letters. *)
Ltac printed_text :=
  rewrite ?list_ascii_of_string_app;
  rewrite ?Number_toString_digits by (Z.div_mod_to_equations; lia);
  cbn [list_ascii_of_string app]; rewrite <- ?app_assoc;
  cbn [list_ascii_of_string app]; reflexivity.

Lemma milliseconds_per_table :
  milliseconds_per "s" = 1000 /\ milliseconds_per "m" = 60000
  /\ milliseconds_per "h" = 3600000 /\ milliseconds_per "d" = 86400000
  /\ milliseconds_per "w" = 604800000.
Proof. repeat split. Qed.

(** The side conditions of [parseDuration_one] and [parseDuration_two] on
    what [formatDuration] prints. *)
Ltac printed_side :=
  first
    [ reflexivity
    | printed_text
    | cbn [Text.join]; printed_text
    | destruct milliseconds_per_table as [Ps [Pm [Ph [Pd Pw]]]];
      rewrite ?Ps, ?Pm, ?Ph, ?Pd, ?Pw; Z.div_mod_to_equations; lia ].

(** X1.  Formatting a duration and parsing it back, for a whole number
    of milliseconds up to 2^53.  From one second on the result is the
    duration rounded down to what the text keeps.  Below one second the
    text ends in [ms], which is read as minutes: the result is 60000
    times the duration (down to -150119987579 ms, where that product
    reaches 2^53). *)
Theorem formatDuration_parseDuration (ms : Z) :
  (- 150119987579 <= ms < 1000 ->
   parseDuration (formatDuration ms) = Some (inject_Z (Z.abs ms * 60000)))
  /\ (1000 <= ms <= 2 ^ 53 ->
      let kept := granularity ms * (ms / granularity ms) in
      parseDuration (formatDuration ms) = Some (inject_Z kept)
      /\ 0 <= ms - kept < granularity ms).
Proof.
  split.
  - intros L. unfold formatDuration. cbv zeta.
    destruct (Z.ltb_spec ms 1000); [|lia].
    destruct (Z_lt_le_dec ms 0) as [N|N].
    + rewrite (parseDuration_one _ ["-"%char] (- ms) "m"%char ["s"%char]);
        try printed_side; [f_equal; f_equal; printed_side|].
      rewrite list_ascii_of_string_app. unfold Text.Number_toString.
      destruct (Z.ltb_spec ms 0); [|lia]. cbn [list_ascii_of_string app].
      rewrite list_ascii_of_string_of_list_ascii. reflexivity.
    + rewrite (parseDuration_one _ [] ms "m"%char ["s"%char]);
        try printed_side. f_equal; f_equal; printed_side.
  - intros L kept.
    assert (G : parseDuration (formatDuration ms) = Some (inject_Z kept)).
    { unfold kept, formatDuration, granularity. cbv zeta.
      destruct (Z.ltb_spec ms 1000); [lia|].
      destruct (Z.ltb_spec (ms / 1000) 60).
      { rewrite (parseDuration_one _ [] (ms / 1000) "s"%char []);
          try printed_side.
        destruct (Z.ltb_spec ms 3600000); [|Z.div_mod_to_equations; lia].
        f_equal; f_equal; printed_side. }
      destruct (Z.ltb_spec (ms / 1000 / 60) 60).
      { destruct (Z.ltb_spec ms 3600000); [|Z.div_mod_to_equations; lia].
        rewrite Z.rem_mod_nonneg by (try apply Z.div_pos; lia).
        destruct (Z.ltb_spec 0 ((ms / 1000) mod 60)).
        - rewrite (parseDuration_two _ (ms / 1000 / 60) ((ms / 1000) mod 60)
                     "m"%char "s"%char);
            try printed_side.
          f_equal; f_equal; printed_side.
        - rewrite (parseDuration_one _ [] (ms / 1000 / 60) "m"%char []);
            try printed_side.
          f_equal; f_equal; printed_side. }
      destruct (Z.ltb_spec (ms / 1000 / 60 / 60) 24).
      { destruct (Z.ltb_spec ms 3600000); [Z.div_mod_to_equations; lia|].
        destruct (Z.ltb_spec ms 86400000); [|Z.div_mod_to_equations; lia].
        rewrite Z.rem_mod_nonneg by (Z.div_mod_to_equations; lia).
        destruct (Z.ltb_spec 0 ((ms / 1000 / 60) mod 60)).
        - rewrite (parseDuration_two _ (ms / 1000 / 60 / 60)
                     ((ms / 1000 / 60) mod 60) "h"%char "m"%char);
            try printed_side.
          f_equal; f_equal; printed_side.
        - rewrite (parseDuration_one _ [] (ms / 1000 / 60 / 60) "h"%char []);
            try printed_side.
          f_equal; f_equal; printed_side. }
      destruct (Z.ltb_spec ms 3600000); [Z.div_mod_to_equations; lia|].
      destruct (Z.ltb_spec ms 86400000); [Z.div_mod_to_equations; lia|].
      rewrite !Z.rem_mod_nonneg by (Z.div_mod_to_equations; lia).
      destruct (Z.ltb_spec (ms / 1000 / 60 / 60 / 24) 7).
      { destruct (Z.ltb_spec ms 604800000); [|Z.div_mod_to_equations; lia].
        destruct (Z.ltb_spec 0 ((ms / 1000 / 60 / 60) mod 24)).
        - rewrite (parseDuration_two _ (ms / 1000 / 60 / 60 / 24)
                     ((ms / 1000 / 60 / 60) mod 24) "d"%char "h"%char);
            try printed_side.
          f_equal; f_equal; printed_side.
        - rewrite (parseDuration_one _ [] (ms / 1000 / 60 / 60 / 24) "d"%char []);
            try printed_side.
          f_equal; f_equal; printed_side. }
      destruct (Z.ltb_spec ms 604800000); [Z.div_mod_to_equations; lia|].
      destruct (Z.ltb_spec 0 (ms / 1000 / 60 / 60 / 24 / 7));
        [|Z.div_mod_to_equations; lia].
      cbn [app].
      destruct (Z.ltb_spec 0 ((ms / 1000 / 60 / 60 / 24) mod 7)).
      - rewrite (parseDuration_two _ (ms / 1000 / 60 / 60 / 24 / 7)
                   ((ms / 1000 / 60 / 60 / 24) mod 7) "w"%char "d"%char);
          try printed_side.
        f_equal; f_equal; printed_side.
      - rewrite (parseDuration_one _ [] (ms / 1000 / 60 / 60 / 24 / 7) "w"%char []);
          try printed_side.
        f_equal; f_equal; printed_side. }
    split; [exact G|]. unfold kept.
    assert (0 < granularity ms).
    { unfold granularity.
      repeat match goal with |- context [if ?b then _ else _] => destruct b end; lia. }
    pose proof (Z.mul_div_le ms (granularity ms) ltac:(lia)).
    pose proof (Z.mod_pos_bound ms (granularity ms) ltac:(lia)).
    pose proof (Z.div_mod ms (granularity ms) ltac:(lia)). lia.
Qed.

Lemma formatDuration_parseDuration_witness :
  (- 150119987579 <= 500 < 1000 /\ 1000 <= 5400000 <= 2 ^ 53)
  /\ formatDuration 500 = "500ms"%string
  /\ parseDuration (formatDuration 500) = Some 30000000%Q
  /\ formatDuration 5400000 = "1h 30m"%string
  /\ parseDuration (formatDuration 5400000) = Some 5400000%Q.
Proof.
  assert (A : - 150119987579 <= 500 < 1000) by lia.
  assert (B : 1000 <= 5400000 <= 2 ^ 53) by lia.
  split; [split; assumption|].
  split; [vm_compute; reflexivity|].
  split; [exact (proj1 (formatDuration_parseDuration 500) A)|].
  split; [vm_compute; reflexivity|].
  exact (proj1 (proj2 (formatDuration_parseDuration 5400000) B)).
Defined.

Lemma Number_toString_head (n : Z) (rest : string) :
  0 <= n ->
  exists c tail,
    (Text.Number_toString n ++ rest)%string = String c tail /\ is_digit c = true.
Proof.
  intros N. unfold Text.Number_toString. destruct (Z.ltb_spec n 0); [lia|].
  destruct (digits_parseInt n N) as [_ [F E]].
  destruct (Text.digits n) as [|c l]; [congruence|].
  exists c, (string_of_list_ascii l ++ rest)%string.
  split; [reflexivity|]. cbn [forallb] in F.
  apply andb_true_iff in F. exact (proj1 F).
Qed.

(** X2.  [timeAgo] answers "just now" exactly when less than a second has
    passed, which includes every date in the future. *)
Theorem timeAgo_just_now (w : World) (date : Date) :
  timeAgo w date = "just now"%string <-> clock w - date < 1000.
Proof.
  assert (other : forall n rest, 0 <= n ->
             (Text.Number_toString n ++ rest)%string <> "just now"%string).
  { intros n rest N E.
    destruct (Number_toString_head n rest N) as [c [tail [S D]]].
    rewrite S in E. inversion E; subst. discriminate D. }
  unfold timeAgo. cbv zeta. set (d := clock w - date).
  repeat match goal with
    | |- context [Z.ltb ?a ?b] => destruct (Z.ltb_spec a b)
    | |- context [Z.leb ?a ?b] => destruct (Z.leb_spec a b)
    end;
    (split; [intros E; try (apply other in E; [contradiction | lia]);
             Z.div_mod_to_equations; lia
            | intros L; try reflexivity; exfalso; Z.div_mod_to_equations; lia]).
Qed.

(** A run of digits before a character that is not a digit is
    determined by the text it starts. *)
Lemma digit_prefix_unique (ds1 ds2 : list ascii) (c1 c2 : ascii)
    (r1 r2 : list ascii) :
  forallb is_digit ds1 = true -> forallb is_digit ds2 = true ->
  is_digit c1 = false -> is_digit c2 = false ->
  ds1 ++ c1 :: r1 = ds2 ++ c2 :: r2 -> ds1 = ds2.
Proof.
  revert ds2. induction ds1 as [|d ds1 IH]; intros [|e ds2] F1 F2 C1 C2 E;
    simpl in *; try reflexivity.
  - inversion E; subst. apply andb_true_iff in F2. destruct F2. congruence.
  - inversion E; subst. apply andb_true_iff in F1. destruct F1. congruence.
  - inversion E; subst. apply andb_true_iff in F1. apply andb_true_iff in F2.
    f_equal. apply (IH ds2); tauto.
Qed.

(** The label of a positive position: its digits and a two-letter
    ordinal suffix. *)
Lemma formatPosition_shape (position : Z) :
  0 < position ->
  exists c1 c2,
    QueueUtils.formatPosition position
    = (Text.Number_toString position ++ String c1 (String c2 EmptyString))%string
    /\ In (c1, c2) [("s", "t"); ("n", "d"); ("r", "d"); ("t", "h")]%char.
Proof.
  intros P. unfold QueueUtils.formatPosition. cbv zeta.
  destruct (Z.leb_spec position 0); [lia|].
  repeat match goal with |- context [if ?b then _ else _] => destruct b end;
    do 2 eexists; (split; [reflexivity|]); simpl; tauto.
Qed.

(** X3.  [formatPosition] never gives two positions the same label: a
    positive position is recovered from its label, which is never
    "Next"; and the label ends in "th" whenever the last two digits are
    11, 12 or 13. *)
Theorem formatPosition_injective (p q : Z) :
  0 < p ->
  (QueueUtils.formatPosition p = QueueUtils.formatPosition q -> p = q)
  /\ QueueUtils.formatPosition p <> "Next"%string
  /\ (11 <= p mod 100 <= 13 ->
      QueueUtils.formatPosition p = (Text.Number_toString p ++ "th")%string)
  /\ (q <= 0 -> QueueUtils.formatPosition q = "Next"%string).
Proof.
  intros P.
  assert (text : forall n, 0 < n ->
             exists c r, is_digit c = false
               /\ list_ascii_of_string (QueueUtils.formatPosition n)
                  = Text.digits n ++ c :: r).
  { intros n N. destruct (formatPosition_shape n N) as [c1 [c2 [E I]]].
    exists c1, [c2]. split.
    - simpl in I. destruct I as [I|[I|[I|[I|[]]]]]; inversion I; reflexivity.
    - rewrite E, list_ascii_of_string_app, Number_toString_digits by lia.
      reflexivity. }
  assert (next : QueueUtils.formatPosition p <> "Next"%string).
  { destruct (formatPosition_shape p P) as [c1 [c2 [E _]]]. rewrite E.
    intros X. destruct (Number_toString_head p (String c1 (String c2 "")) ltac:(lia))
      as [c [tail [S D]]].
    rewrite S in X. inversion X; subst. discriminate D. }
  assert (low : q <= 0 -> QueueUtils.formatPosition q = "Next"%string).
  { intros Q. unfold QueueUtils.formatPosition.
    destruct (Z.leb_spec q 0); [reflexivity | lia]. }
  split; [|split; [exact next|split; [|exact low]]].
  - intros E. destruct (Z_lt_le_dec 0 q) as [Q|Q].
    + destruct (text p P) as [c1 [r1 [C1 T1]]].
      destruct (text q Q) as [c2 [r2 [C2 T2]]].
      rewrite E, T2 in T1.
      destruct (digits_parseInt p ltac:(lia)) as [Vp [Fp _]].
      destruct (digits_parseInt q ltac:(lia)) as [Vq [Fq _]].
      pose proof (digit_prefix_unique _ _ _ _ _ _ Fq Fp C2 C1 T1) as D.
      rewrite <- Vp, <- Vq, D. reflexivity.
    + exfalso. apply next. rewrite E. apply low. exact Q.
  - intros M. unfold QueueUtils.formatPosition. cbv zeta.
    destruct (Z.leb_spec p 0); [lia|].
    rewrite Z.rem_mod_nonneg by lia.
    destruct (Z.leb_spec 11 (p mod 100)); [|lia].
    destruct (Z.leb_spec (p mod 100) 13); [|lia]. reflexivity.
Qed.

Lemma formatPosition_injective_witness :
  (0 < 11)%Z
  /\ QueueUtils.formatPosition 11 <> "Next"%string
  /\ QueueUtils.formatPosition 11 = "11th"%string.
Proof.
  assert (P : 0 < 11) by lia.
  split; [exact P|].
  split; [exact (proj1 (proj2 (formatPosition_injective 11 1 P))) | reflexivity].
Defined.

End FormatFacts.

(** ** utils/queue.ts: capacity, no-shows, notification time, labels *)

Module CapacityFacts.
Import JS QueueUtils NumberFacts DoubleFacts.
Local Open Scope Q_scope.


(** On whole numbers up to 2^53 the quotient is rounded but its floor
    is the one of the exact quotient. *)
Lemma estimateServedInTime_whole (timePeriod averageServiceTime servers : Z) :
  (0 < averageServiceTime <= 2 ^ 53)%Z ->
  (0 <= timePeriod * servers < 2 ^ 53)%Z ->
  estimateServedInTime (inject_Z timePeriod) (inject_Z averageServiceTime)
    (Some (inject_Z servers))
  = inject_Z (timePeriod * servers / averageServiceTime).
Proof.
  intros [A0 A1] [P0 P1]. unfold estimateServedInTime. simpl orDefault.
  assert (A : 0 < inject_Z averageServiceTime)
    by (change 0 with (inject_Z 0); rewrite <- Zlt_Qlt; exact A0).
  rewrite (proj2 (num_le_false_iff _ _) A).
  rewrite (num_mul_whole _ _ timePeriod servers
             (Qeq_refl _) (Qeq_refl _)) by lia.
  unfold Math_floor.
  destruct (num_div_Z (timePeriod * servers) averageServiceTime) as [F _];
    [lia | lia |].
  rewrite F. reflexivity.
Qed.

(** X5.  On whole numbers (a service time of at most 2^53 s, and fewer
    than 2^53 s of server time), the number served in a period is the
    whole number of service times that fit in the server time available:
    it fits, and one more would not. *)
Theorem estimateServedInTime_fits (timePeriod averageServiceTime : Z)
    (numServers : option Z) :
  let servers := match numServers with Some n => n | None => 1%Z end in
  (0 < averageServiceTime <= 2 ^ 53)%Z ->
  (0 <= timePeriod * servers < 2 ^ 53)%Z ->
  let served :=
    estimateServedInTime (inject_Z timePeriod) (inject_Z averageServiceTime)
      (option_map inject_Z numServers) in
  is_integer served
  /\ served * inject_Z averageServiceTime <= inject_Z (timePeriod * servers)
  /\ inject_Z (timePeriod * servers)
     < (served + 1) * inject_Z averageServiceTime
  /\ 0 <= served.
Proof.
  intros servers A P served.
  assert (E : served
              = inject_Z (timePeriod * servers / averageServiceTime)).
  { unfold served, servers in *. destruct numServers as [n|]; simpl option_map.
    - apply estimateServedInTime_whole; assumption.
    - apply (estimateServedInTime_whole timePeriod averageServiceTime 1);
        assumption. }
  rewrite E.
  pose proof (Z.mul_div_le (timePeriod * servers) averageServiceTime
                ltac:(lia)) as L.
  pose proof (Z.mul_succ_div_gt (timePeriod * servers) averageServiceTime
                ltac:(lia)) as U.
  assert (N : (0 <= timePeriod * servers / averageServiceTime)%Z)
    by (apply Z.div_pos; lia).
  split; [eexists; reflexivity|]. split; [|split].
  - rewrite <- inject_Z_mult, <- Zle_Qle. lia.
  - change 1 with (inject_Z 1). rewrite <- inject_Z_plus, <- inject_Z_mult.
    rewrite <- Zlt_Qlt. lia.
  - change 0 with (inject_Z 0). rewrite <- Zle_Qle. exact N.
Qed.

Lemma estimateServedInTime_fits_witness :
  ((0 < 90 <= 2 ^ 53)%Z /\ (0 <= 600 * 2 < 2 ^ 53)%Z)
  /\ estimateServedInTime 600 90 (Some 2) = 13
  /\ estimateServedInTime 600 90 (Some 2) * inject_Z 90 <= inject_Z (600 * 2)
  /\ inject_Z (600 * 2)
     < (estimateServedInTime 600 90 (Some 2) + 1) * inject_Z 90.
Proof.
  assert (A : (0 < 90 <= 2 ^ 53)%Z) by lia.
  assert (P : (0 <= 600 * 2 < 2 ^ 53)%Z) by lia.
  split; [split; assumption|]. split; [vm_compute; reflexivity|].
  destruct (estimateServedInTime_fits 600 90 (Some 2%Z) A P) as [_ [L [U _]]].
  split; assumption.
Defined.

Lemma Math_max_whole (a b : Z) :
  Math_max (inject_Z a) (inject_Z b) = inject_Z (Z.max a b).
Proof.
  destruct (Math_max_cases (inject_Z a) (inject_Z b)) as [[L ->]|[L ->]].
  - rewrite <- Zlt_Qlt in L. rewrite Z.max_r by lia. reflexivity.
  - rewrite <- Zle_Qle in L. rewrite Z.max_l by lia. reflexivity.
Qed.

(** On whole numbers up to 2^53 the recommended number of servers is the
    ceiling of the exact quotient, floored at 1. *)
Lemma calculateOptimalServers_whole
    (queueLength averageServiceTime targetWaitTime : Z) :
  (0 <= queueLength)%Z -> (0 < averageServiceTime)%Z ->
  (0 < targetWaitTime <= 2 ^ 53)%Z ->
  (queueLength * averageServiceTime < 2 ^ 53)%Z ->
  calculateOptimalServers (inject_Z queueLength) (inject_Z averageServiceTime)
    (inject_Z targetWaitTime)
  = inject_Z (Z.max 1 ((queueLength * averageServiceTime + targetWaitTime - 1)
                       / targetWaitTime)).
Proof.
  intros Q A [T0 T1] B. unfold calculateOptimalServers.
  assert (A' : 0 < inject_Z averageServiceTime)
    by (change 0 with (inject_Z 0); rewrite <- Zlt_Qlt; exact A).
  assert (T' : 0 < inject_Z targetWaitTime)
    by (change 0 with (inject_Z 0); rewrite <- Zlt_Qlt; exact T0).
  rewrite (proj2 (num_le_false_iff _ _) A'), (proj2 (num_le_false_iff _ _) T').
  cbn [orb].
  assert (N : (0 <= queueLength * averageServiceTime)%Z)
    by (apply Z.mul_nonneg_nonneg; lia).
  rewrite (num_mul_whole _ _ queueLength averageServiceTime
             (Qeq_refl _) (Qeq_refl _)) by lia.
  unfold Math_ceil.
  destruct (num_div_Z (queueLength * averageServiceTime) targetWaitTime)
    as [_ C]; [lia | lia |].
  rewrite C. apply (Math_max_whole 1).
Qed.

(** X6.  On whole numbers (a service time of at most 2^53 s, and
    queueLength * averageServiceTime + targetWaitTime below 2^53), the
    recommended number of servers is
    enough, and no more than enough: that many servers serve the whole
    queue within the target wait, and, when more than one is
    recommended, one fewer would not. *)
Theorem calculateOptimalServers_suffices
    (queueLength averageServiceTime targetWaitTime : Z) :
  (0 <= queueLength)%Z -> (0 < averageServiceTime <= 2 ^ 53)%Z ->
  (0 < targetWaitTime)%Z ->
  (queueLength * averageServiceTime + targetWaitTime < 2 ^ 53)%Z ->
  let servers :=
    calculateOptimalServers (inject_Z queueLength)
      (inject_Z averageServiceTime) (inject_Z targetWaitTime) in
  inject_Z queueLength
  <= estimateServedInTime (inject_Z targetWaitTime)
       (inject_Z averageServiceTime) (Some servers)
  /\ (1 < servers ->
      estimateServedInTime (inject_Z targetWaitTime)
        (inject_Z averageServiceTime) (Some (servers - 1))
      < inject_Z queueLength).
Proof.
  intros Q A T B servers.
  assert (N : (0 <= queueLength * averageServiceTime)%Z)
    by (apply Z.mul_nonneg_nonneg; lia).
  set (load := (queueLength * averageServiceTime)%Z) in *.
  set (c := ((load + targetWaitTime - 1) / targetWaitTime)%Z).
  assert (S : servers = inject_Z (Z.max 1 c)).
  { unfold servers, c, load.
    apply calculateOptimalServers_whole; lia. }
  pose proof (Z.mul_div_le (load + targetWaitTime - 1) targetWaitTime T) as C1.
  pose proof (Z.mul_succ_div_gt (load + targetWaitTime - 1) targetWaitTime T)
    as C2.
  fold c in C1, C2.
  assert (C0 : (0 <= c)%Z) by (apply Z.div_pos; lia).
  assert (served : forall n : Z,
             (0 <= targetWaitTime * n < 2 ^ 53)%Z ->
             estimateServedInTime (inject_Z targetWaitTime)
               (inject_Z averageServiceTime) (Some (inject_Z n))
             = inject_Z (targetWaitTime * n / averageServiceTime)).
  { intros n Bn. apply estimateServedInTime_whole; assumption. }
  rewrite S. split.
  - rewrite served by nia. rewrite <- Zle_Qle.
    apply Z.div_le_lower_bound; [lia|]. unfold load in *. nia.
  - intros M. change 1 with (inject_Z 1) in M. rewrite <- Zlt_Qlt in M.
    assert (E' : estimateServedInTime (inject_Z targetWaitTime)
                   (inject_Z averageServiceTime)
                   (Some (inject_Z (Z.max 1 c) - 1))
                 = estimateServedInTime (inject_Z targetWaitTime)
                   (inject_Z averageServiceTime)
                   (Some (inject_Z (Z.max 1 c - 1)))).
    { unfold estimateServedInTime. simpl orDefault.
      destruct (num_le (inject_Z averageServiceTime) 0); [reflexivity|].
      unfold Math_floor, num_div, num_mul. f_equal. f_equal.
      apply double_eq. apply Qdiv_comp; [|reflexivity].
      apply double_comp. unfold Z.sub. rewrite inject_Z_plus, inject_Z_opp.
      reflexivity. }
    rewrite E', served by nia. rewrite <- Zlt_Qlt.
    apply Z.div_lt_upper_bound; [lia|]. unfold load in *. nia.
Qed.

Lemma calculateOptimalServers_suffices_witness :
  ((0 <= 30)%Z /\ (0 < 60 <= 2 ^ 53)%Z /\ (0 < 300)%Z
   /\ (30 * 60 + 300 < 2 ^ 53)%Z)
  /\ calculateOptimalServers (inject_Z 30) (inject_Z 60) (inject_Z 300) = 6
  /\ inject_Z 30
     <= estimateServedInTime (inject_Z 300) (inject_Z 60)
          (Some (calculateOptimalServers (inject_Z 30) (inject_Z 60)
                   (inject_Z 300)))
  /\ estimateServedInTime (inject_Z 300) (inject_Z 60) (Some 5) = 25.
Proof.
  assert (Q : (0 <= 30)%Z) by lia. assert (A : (0 < 60 <= 2 ^ 53)%Z) by lia.
  assert (T : (0 < 300)%Z) by lia.
  assert (B : (30 * 60 + 300 < 2 ^ 53)%Z) by lia.
  split; [repeat split; try assumption; apply A|].
  split; [vm_compute; reflexivity|].
  split; [|vm_compute; reflexivity].
  exact (proj1 (calculateOptimalServers_suffices 30 60 300 Q A T B)).
Defined.

(** X7.  The no-show adjustment never lengthens a wait and never makes it
    negative: for a whole estimate, a probability between 0 and 1 and an
    exponential that maps non-positive numbers into [0, 1], the adjusted
    wait is a whole number between 0 and the estimate. *)
Theorem adjustForNoShowProbability_shortens (Math_exp : Q -> Q)
    (estimatedWaitTime noShowProbability position : Q) :
  (forall x, x <= 0 -> 0 <= Math_exp x <= 1) ->
  is_integer estimatedWaitTime -> 0 <= estimatedWaitTime ->
  0 <= noShowProbability <= 1 ->
  let adjusted :=
    adjustForNoShowProbability Math_exp estimatedWaitTime noShowProbability
      position in
  0 <= adjusted /\ adjusted <= estimatedWaitTime /\ is_integer adjusted.
Proof.
  intros Ex I E0 [P0 P1] adjusted. unfold adjusted, adjustForNoShowProbability.
  destruct (num_le noShowProbability 0 || num_le position 0) eqn:G.
  { split; [exact E0|]. split; [apply Qle_refl | exact I]. }
  apply orb_false_iff in G. destruct G as [_ G]. apply num_le_false_iff in G.
  destruct (Ex (- position / 10)) as [X0 X1].
  { apply Qle_shift_div_r; [reflexivity | lqa]. }
  set (e := Math_exp (- position / 10)) in *.
  set (f := 1 - noShowProbability * (1 - e)).
  assert (A : 0 <= noShowProbability * (1 - e))
    by (apply Qmult_le_0_compat; lqa).
  assert (B : 0 <= (1 - noShowProbability) * (1 - e) )
    by (apply Qmult_le_0_compat; lqa).
  assert (F : 0 <= f /\ f <= 1) by (unfold f; split; lqa).
  assert (C : 0 <= estimatedWaitTime * f) by (apply Qmult_le_0_compat; lqa).
  assert (D : 0 <= estimatedWaitTime * (1 - f)) by (apply Qmult_le_0_compat; lqa).
  split; [apply Math_round_nonneg; exact C|].
  split; [|apply Math_round_is_integer].
  apply Qle_trans with (Math_round estimatedWaitTime).
  - apply Math_round_monotone. lqa.
  - apply Qle_lteq. right. apply Math_round_fixed_iff. exact I.
Qed.

Lemma adjustForNoShowProbability_shortens_witness :
  ((forall x : Q, x <= 0 -> 0 <= (fun _ : Q => 1 # 2) x <= 1)
   /\ is_integer 600 /\ 0 <= 600 /\ 0 <= 1 # 2 <= 1)
  /\ adjustForNoShowProbability (fun _ => 1 # 2) 600 (1 # 2) 100 <= 600.
Proof.
  assert (Ex : forall x : Q, x <= 0 -> 0 <= (fun _ : Q => 1 # 2) x <= 1).
  { intros x _. split; discriminate. }
  assert (I : is_integer 600) by (exists 600%Z; reflexivity).
  assert (E : 0 <= 600) by discriminate.
  assert (P : 0 <= 1 # 2 <= 1) by (split; discriminate).
  split; [repeat split; assumption || apply P|].
  exact (proj1 (proj2 (adjustForNoShowProbability_shortens
                         (fun _ => 1 # 2) 600 (1 # 2) 100 Ex I E P))).
Defined.

(** X8.  The notification delay is never negative, and it is the delay
    [calculateRecommendedLeaveTime] recommends when the notification
    offset is that recommendation's buffer: with no variance and a whole
    product of position and service time, the two functions agree. *)
Theorem calculateNotificationTime_leave_time (w : World)
    (position averageServiceTime travelTime : Q) (options : Options.t)
    (variance : Q) :
  let r := calculateRecommendedLeaveTime w position averageServiceTime
             travelTime options in
  (forall offset,
      0 <= calculateNotificationTime position averageServiceTime travelTime offset)
  /\ (0 <= num_mul position averageServiceTime ->
      is_integer (num_mul position averageServiceTime) ->
      Options.varianceServiceTime options = Some variance -> variance <= 0 ->
      Recommendation.recommendedLeaveIn r
      == calculateNotificationTime position averageServiceTime travelTime
           (Some (Recommendation.bufferTime r))).
Proof.
  intros r. split.
  { intros offset. unfold calculateNotificationTime. apply Math_max_lower. }
  intros N I V L.
  assert (E : Recommendation.estimatedWaitTime r
              == num_mul position averageServiceTime).
  { unfold r, calculateRecommendedLeaveTime. cbv zeta.
    cbn [Recommendation.estimatedWaitTime]. rewrite V. simpl orDefault.
    unfold calculateWaitTime. simpl orDefault.
    rewrite (proj2 (num_gt_false_iff _ _) L).
    rewrite QueueFacts.Math_max_0_round by exact N.
    apply Math_round_fixed_iff. exact I. }
  change (Recommendation.recommendedLeaveIn r)
    with (Math_max 0 (num_sub (num_sub (Recommendation.estimatedWaitTime r)
                                 travelTime)
                        (Recommendation.bufferTime r))).
  unfold calculateNotificationTime. simpl orDefault.
  rewrite !Math_max_Qmax.
  apply Q.max_compat; [reflexivity|]. rewrite E. reflexivity.
Qed.

Lemma calculateNotificationTime_leave_time_witness :
  (0 <= num_mul 25 60 /\ is_integer (num_mul 25 60) /\ 0 <= 0)
  /\ Recommendation.recommendedLeaveIn
       (calculateRecommendedLeaveTime (mkWorld 0 0) 25 60 120
          (Options.mk (Some 0) None None None None))
     == calculateNotificationTime 25 60 120
          (Some (Recommendation.bufferTime
                   (calculateRecommendedLeaveTime (mkWorld 0 0) 25 60 120
                      (Options.mk (Some 0) None None None None)))).
Proof.
  assert (N : 0 <= num_mul 25 60) by (vm_compute; discriminate).
  assert (I : is_integer (num_mul 25 60)) by (exists 1500%Z; reflexivity).
  assert (L : 0 <= 0) by discriminate.
  split; [repeat split; assumption|].
  exact (proj2 (calculateNotificationTime_leave_time (mkWorld 0 0) 25 60 120
                  (Options.mk (Some 0) None None None None) 0)
           N I eq_refl L).
Defined.

End CapacityFacts.

(** ** utils/queue.ts: the order in which the scheduler works *)

Module OrderFacts.
Import JS QueueUtils NumberFacts DoubleFacts SchedulerFacts.
Local Open Scope Q_scope.

Section Order.
Context {T : Type} `{QueueItem T}.

(** [a] may come before [b]: no position of [a] is above one of [b]. *)
Definition position_le (a b : T) : Prop :=
  forall pa pb, position a = Some pa -> position b = Some pb -> pa <= pb.

(** An item with a [position], a whole number as queue positions are. *)
Definition positioned_item (a : T) : Prop :=
  exists pa, position a = Some pa /\ is_integer pa.

Lemma compare_items_positions (a b : T) :
  positioned_item a -> positioned_item b ->
  (num_gt (compare_items a b) 0 = true -> position_le b a)
  /\ (num_gt (compare_items a b) 0 = false -> position_le a b).
Proof.
  unfold positioned_item, position_le, compare_items.
  intros [pa [-> Ia]] [pb [-> Ib]].
  split; intros G x y X Y; inversion X; inversion Y; subst.
  - apply (num_sub_sign_whole _ _ Ia Ib) in G. lqa.
  - destruct (Qlt_le_dec y x) as [L|L]; [|exact L].
    apply (num_sub_sign_whole _ _ Ia Ib) in L. congruence.
Qed.

Lemma position_le_trans (a b c : T) :
  positioned_item b -> position_le a b -> position_le b c -> position_le a c.
Proof.
  unfold positioned_item, position_le. intros [pb [B _]] AB BC pa pc A C.
  apply Qle_trans with pb; [apply AB | apply BC]; auto.
Qed.

Lemma insert_sorted_In (a x : T) (l : list T) :
  In x (insert_sorted a l) -> x = a \/ In x l.
Proof.
  induction l as [|b l IH]; simpl.
  - intros [E|[]]. left. congruence.
  - destruct (num_gt (compare_items a b) 0); simpl.
    + intros [E|I]; [right; left; exact E|]. destruct (IH I); tauto.
    + intros [E|I]; [left; congruence | right; exact I].
Qed.

Lemma insert_sorted_sorted (a : T) (l : list T) :
  positioned_item a -> Forall positioned_item l ->
  StronglySorted position_le l -> StronglySorted position_le (insert_sorted a l).
Proof.
  intros A F S. induction S as [|b l S IH B]; simpl.
  - repeat constructor.
  - inversion F as [|? ? Pb Pl]; subst.
    destruct (compare_items_positions a b A Pb) as [G L].
    destruct (num_gt (compare_items a b) 0).
    + constructor; [apply IH; exact Pl|].
      rewrite Forall_forall in *. intros x I.
      destruct (insert_sorted_In _ _ _ I) as [->|I']; [apply G; reflexivity|].
      apply B. exact I'.
    + constructor; [constructor; assumption|].
      constructor; [apply L; reflexivity|].
      rewrite Forall_forall in *. intros x I.
      apply (position_le_trans a b x Pb); [apply L; reflexivity | apply B; exact I].
Qed.

Lemma sort_items_sorted (l : list T) :
  Forall positioned_item l -> StronglySorted position_le (sort_items l).
Proof.
  induction 1 as [|a l A F IH]; simpl; [constructor|].
  apply insert_sorted_sorted; [exact A | | exact IH].
  apply (Permutation_Forall (Permutation_sym (sort_items_Permutation l))).
  exact F.
Qed.

(** Whatever the next-free times are bounded by from below, every start
    time is. *)
Lemma Greedy_starts_bounded (servers : list Q) (trace : list (nat * Assignment.t T))
    (bound : Q) :
  Greedy servers trace -> Forall is_double servers ->
  Forall nonnegative trace ->
  (forall j, (j < List.length servers)%nat -> bound <= nth j servers 0) ->
  Forall (fun e => bound <= Assignment.startTime (snd e)) trace.
Proof.
  induction 1 as [|servers i a trace B Low First S E G IH]; intros D NN Bd.
  - constructor.
  - inversion NN as [|? ? Na Nt]; subst. constructor.
    + simpl. rewrite S. apply Bd. exact B.
    + assert (D' : Forall is_double
                     (assign_at i (Assignment.endTime a) servers)).
      { apply assign_at_Forall; [|exact D].
        rewrite E. apply double_is_double. }
      apply IH; [exact D' | exact Nt|]. intros j J.
      rewrite assign_at_length in J.
      unfold nonnegative, served_item in Na. simpl in Na.
      destruct (Nat.eq_dec i j) as [->|Dj].
      * rewrite nth_assign_at_same by exact J. rewrite E, S.
        apply Qle_trans with (nth j servers 0); [apply Bd; exact J|].
        apply ends_later; [|exact Na].
        rewrite Forall_forall in D. apply D, nth_In. exact J.
      * rewrite nth_assign_at_other by exact Dj. apply Bd. exact J.
Qed.

Definition starts_before (x y : nat * Assignment.t T) : Prop :=
  Assignment.startTime (snd x) <= Assignment.startTime (snd y).

Lemma Greedy_starts_sorted (servers : list Q) (trace : list (nat * Assignment.t T)) :
  Greedy servers trace -> Forall is_double servers ->
  Forall nonnegative trace ->
  StronglySorted starts_before trace.
Proof.
  intros G.
  induction G as [|servers i a trace B Low First S E G IH]; intros D NN.
  - constructor.
  - inversion NN as [|? ? Na Nt]; subst.
    assert (D' : Forall is_double
                   (assign_at i (Assignment.endTime a) servers)).
    { apply assign_at_Forall; [|exact D].
      rewrite E. apply double_is_double. }
    constructor; [apply IH; assumption|].
    unfold starts_before. simpl. rewrite S.
    apply (Greedy_starts_bounded _ _ _ G D' Nt).
    intros j J. rewrite assign_at_length in J.
    unfold nonnegative, served_item in Na. simpl in Na.
    destruct (Nat.eq_dec i j) as [->|Dj].
    + rewrite nth_assign_at_same by exact J. rewrite E, S.
      apply ends_later; [|exact Na].
      rewrite Forall_forall in D. apply D, nth_In. exact J.
    + rewrite nth_assign_at_other by exact Dj. apply Low. exact J.
Qed.

End Order.

Lemma StronglySorted_map {A B : Type} (f : A -> B) (R : B -> B -> Prop)
    (l : list A) :
  StronglySorted (fun x y => R (f x) (f y)) l -> StronglySorted R (map f l).
Proof.
  induction 1 as [|a l S IH F]; simpl; constructor; [exact IH|].
  rewrite Forall_forall in *. intros y I. apply in_map_iff in I.
  destruct I as [x [<- I]]. apply F. exact I.
Qed.

(** X9.  For a pool of 1 to [MAX_SERVERS] servers, the assignments come
    out in the order of their start times, none before time 0; and when
    every item has a whole-number [position] they come out in ascending
    order of position, whatever the order of the input. *)
Theorem calculateCompletionTimes_order {T : Type} `{QueueItem T}
    (queueData : list T) (numServers : Z) :
  Forall (fun it => 0 <= serviceTime it <= MAX_SERVICE_TIME) queueData ->
  (Z.of_nat (List.length queueData) < 2 ^ 32)%Z ->
  (1 <= numServers <= MAX_SERVERS)%Z ->
  exists assignments : list (Assignment.t T),
    calculateCompletionTimes queueData (Some (inject_Z numServers))
    = Ok (Assignments assignments)
    /\ StronglySorted
         (fun a b => Assignment.startTime a <= Assignment.startTime b)
         assignments
    /\ Forall (fun a => 0 <= Assignment.startTime a) assignments
    /\ (Forall positioned_item queueData ->
        StronglySorted position_le (map Assignment.item assignments)).
Proof.
  intros NN _ L.
  destruct (calculateCompletionTimes_trace queueData numServers)
    as [trace [A [M G]]]; [unfold MAX_SERVERS in L; lia|].
  assert (NT : Forall nonnegative trace).
  { apply Forall_map with (f := served_item) (P := fun it => 0 <= serviceTime it).
    rewrite M.
    apply (Permutation_Forall (Permutation_sym (sort_items_Permutation _))).
    apply Forall_impl with (2 := NN). intros it [N0 _]. exact N0. }
  pose proof (free_servers_doubles (Z.to_nat numServers)) as D0.
  exists (map snd trace). split; [exact A|].
  split.
  { apply StronglySorted_map. exact (Greedy_starts_sorted _ _ G D0 NT). }
  split.
  { apply Forall_map.
    apply (Greedy_starts_bounded _ _ 0 G D0 NT).
    intros j J. rewrite repeat_length in J.
    rewrite nth_repeat_lt by exact J. apply Qle_refl. }
  intros P. rewrite map_map.
  change (map (fun x => Assignment.item (snd x)) trace)
    with (map served_item trace).
  rewrite M. apply sort_items_sorted. exact P.
Qed.

Lemma calculateCompletionTimes_order_witness :
  (Forall (fun it => 0 <= serviceTime it <= MAX_SERVICE_TIME)
     [positioned 10 3; positioned 7 1; positioned 2 2]
   /\ (Z.of_nat (List.length
                   [positioned 10 3; positioned 7 1; positioned 2 2])
       < 2 ^ 32)%Z
   /\ (1 <= 2 <= MAX_SERVERS)%Z)
  /\ calculateCompletionTimes [positioned 10 3; positioned 7 1; positioned 2 2]
       (Some (inject_Z 2))
     = Ok (Assignments [Assignment.mk (positioned 7 1) 0 7;
                        Assignment.mk (positioned 2 2) 0 2;
                        Assignment.mk (positioned 10 3) 2 12])
  /\ exists assignments : list (Assignment.t PositionedItem),
       calculateCompletionTimes [positioned 10 3; positioned 7 1; positioned 2 2]
         (Some (inject_Z 2))
       = Ok (Assignments assignments)
       /\ StronglySorted
            (fun a b => Assignment.startTime a <= Assignment.startTime b)
            assignments.
Proof.
  assert (N : Forall (fun it => 0 <= serviceTime it <= MAX_SERVICE_TIME)
                [positioned 10 3; positioned 7 1; positioned 2 2]).
  { repeat constructor; vm_compute; discriminate. }
  assert (Len : (Z.of_nat (List.length
                             [positioned 10 3; positioned 7 1; positioned 2 2])
                 < 2 ^ 32)%Z) by (simpl; lia).
  assert (L : (1 <= 2 <= MAX_SERVERS)%Z) by (unfold MAX_SERVERS; lia).
  split; [repeat split; try assumption; apply L|].
  split; [vm_compute; reflexivity|].
  destruct (calculateCompletionTimes_order
              [positioned 10 3; positioned 7 1; positioned 2 2] 2 N Len L)
    as [l [A [S _]]].
  exists l. split; assumption.
Defined.

End OrderFacts.

(** ** utils/time.ts: differences of dates and shifted dates *)

Module TimeUnitFacts.
Import JS TimeUtils NumberFacts DoubleFacts.
Local Open Scope Q_scope.

(** The number of milliseconds in a unit, by which [toMilliseconds]
    multiplies and [dateDiff] divides. *)
Definition unit_factor (unit : string) : Z :=
  (if unit =? "milliseconds" then 1
   else if unit =? "seconds" then 1000
   else if unit =? "minutes" then 60000
   else if unit =? "hours" then 3600000
   else if unit =? "days" then 86400000
   else if unit =? "weeks" then 604800000
   else 0)%string%Z.

Lemma unit_factor_positive (unit : string) :
  In unit TimeUnit -> (1 <= unit_factor unit <= 604800000)%Z.
Proof.
  intros I. unfold TimeUnit in I. simpl in I.
  destruct I as [<-|[<-|[<-|[<-|[<-|[<-|[]]]]]]]; vm_compute;
    split; discriminate.
Qed.

Lemma is_double_Qabs (x : Q) : is_double x -> is_double (Qabs x).
Proof.
  intros D. destruct (Qlt_le_dec x 0) as [N|N].
  - unfold is_double.
    rewrite (double_comp (Qabs x) (- x)) by (apply Qabs_neg; lqa).
    pose proof (is_double_opp x D) as D'. unfold is_double in D'.
    rewrite D'. symmetry. apply Qabs_neg. lqa.
  - unfold is_double.
    rewrite (double_comp (Qabs x) x) by (apply Qabs_pos; exact N).
    unfold is_double in D. rewrite D. symmetry. apply Qabs_pos. exact N.
Qed.

(** What the two conversions compute on a supported unit. *)
Lemma toMilliseconds_value (value : Q) (unit : string) :
  In unit TimeUnit -> is_double value ->
  exists ms,
    toMilliseconds value unit = Ok ms
    /\ ms == num_mul value (inject_Z (unit_factor unit)).
Proof.
  intros I D. unfold TimeUnit in I. simpl in I.
  destruct I as [<-|[<-|[<-|[<-|[<-|[<-|[]]]]]]];
    try (eexists; split; [reflexivity|];
         apply num_mul_comp; [reflexivity | vm_compute; reflexivity]).
  exists value. split; [reflexivity|].
  unfold num_mul. unfold is_double in D.
  rewrite (double_comp (value * inject_Z (unit_factor "milliseconds")) value)
    by (change (inject_Z (unit_factor "milliseconds")) with 1; ring).
  symmetry. exact D.
Qed.

Lemma dateDiff_value (w : World) (date1 date2 : Date) (unit : string) :
  In unit TimeUnit ->
  exists gap,
    dateDiff w date1 (Some date2) (Some unit) = Ok gap
    /\ gap == num_div (Qabs (num_sub (getTime date2) (getTime date1)))
                (inject_Z (unit_factor unit)).
Proof.
  intros I. unfold TimeUnit in I. simpl in I.
  destruct I as [<-|[<-|[<-|[<-|[<-|[<-|[]]]]]]];
    try (eexists; split; [reflexivity|];
         apply num_div_comp; [reflexivity | vm_compute; reflexivity]).
  eexists. split; [reflexivity|].
  set (d := Qabs (num_sub (getTime date2) (getTime date1))).
  assert (D : is_double d)
    by (apply is_double_Qabs; unfold num_sub; apply double_is_double).
  unfold num_div. unfold is_double in D.
  rewrite (double_comp (d / inject_Z (unit_factor "milliseconds")) d).
  - symmetry. exact D.
  - change (inject_Z (unit_factor "milliseconds")) with 1.
    unfold Qdiv. change (/ 1) with 1. ring.
Qed.

(** The gap between two dates, to the nearest double: it is 0 between
    equal dates only, and it is the exact gap up to 2^53 ms. *)
Lemma diffMs_facts (date1 date2 : Date) :
  let diffMs := Qabs (num_sub (getTime date2) (getTime date1)) in
  diffMs == Qabs (num_sub (getTime date1) (getTime date2))
  /\ (date1 = date2 -> diffMs == 0)
  /\ (date1 <> date2 -> 1 <= diffMs)
  /\ ((Z.abs (date2 - date1) <= 2 ^ 53)%Z ->
      diffMs == inject_Z (Z.abs (date2 - date1))).
Proof.
  intros diffMs. unfold diffMs, num_sub, getTime.
  assert (E : inject_Z date2 - inject_Z date1 == inject_Z (date2 - date1)).
  { unfold Z.sub. rewrite inject_Z_plus, inject_Z_opp. reflexivity. }
  assert (E' : inject_Z date1 - inject_Z date2 == - inject_Z (date2 - date1)).
  { rewrite <- E. ring. }
  rewrite (double_comp _ _ E), (double_comp _ _ E'), double_opp, Qabs_opp.
  split; [reflexivity|]. split; [|split].
  - intros ->. rewrite Z.sub_diag. reflexivity.
  - intros N. destruct (Z_lt_le_dec date1 date2) as [L|L].
    + rewrite Qabs_pos.
      * apply (double_above _ (inject_Z 1)); [apply is_double_small; lia|].
        rewrite <- Zle_Qle. lia.
      * apply double_nonneg. change 0 with (inject_Z 0). rewrite <- Zle_Qle.
        lia.
    + rewrite Qabs_neg.
      * assert (B : double (inject_Z (date2 - date1)) <= inject_Z (-1)).
        { apply double_below; [apply is_double_small; lia|].
          rewrite <- Zle_Qle. lia. }
        change (inject_Z (-1)) with (-(1)) in B. lqa.
      * apply double_nonpos. change 0 with (inject_Z 0). rewrite <- Zle_Qle.
        lia.
  - intros B. rewrite double_Z by exact B.
    change (Qabs (inject_Z (date2 - date1)))
      with (inject_Z (Z.abs (date2 - date1))).
    reflexivity.
Qed.

(** X10.  For each supported unit, [dateDiff] is a distance between
    instants: it does not depend on the order of the two dates, is never
    negative, and is 0 only between equal instants; and when the dates
    are a whole number [n] of units apart (at most 2^53 ms), it is [n],
    and [toMilliseconds] turns it back into the gap in milliseconds. *)
Theorem dateDiff_distance (w : World) (date1 date2 : Date) (unit : string) :
  In unit TimeUnit ->
  exists gap gap',
    dateDiff w date1 (Some date2) (Some unit) = Ok gap
    /\ dateDiff w date2 (Some date1) (Some unit) = Ok gap'
    /\ gap == gap'
    /\ 0 <= gap
    /\ (gap == 0 <-> date1 = date2)
    /\ (forall n : Z,
          Z.abs (date2 - date1) = (n * unit_factor unit)%Z ->
          (n * unit_factor unit <= 2 ^ 53)%Z ->
          gap == inject_Z n
          /\ exists ms,
               toMilliseconds gap unit = Ok ms
               /\ ms == inject_Z (Z.abs (date2 - date1))).
Proof.
  intros S. pose proof (unit_factor_positive unit S) as [K0 K1].
  destruct (dateDiff_value w date1 date2 unit S) as [gap [E G]].
  destruct (dateDiff_value w date2 date1 unit S) as [gap' [E' G']].
  destruct (diffMs_facts date1 date2) as [Sym [Same [Apart Exact]]].
  cbv zeta in *.
  set (d := Qabs (num_sub (getTime date2) (getTime date1))) in *.
  set (k := unit_factor unit) in *.
  assert (K : 0 < inject_Z k)
    by (change 0 with (inject_Z 0); rewrite <- Zlt_Qlt; lia).
  assert (D0 : 0 <= d) by apply Qabs_nonneg.
  exists gap, gap'. split; [exact E|]. split; [exact E'|].
  split.
  { rewrite G, G'. apply num_div_comp; [exact Sym | reflexivity]. }
  split.
  { rewrite G. unfold num_div. apply double_nonneg.
    apply Qle_shift_div_l; [exact K | lqa]. }
  split.
  { rewrite G. split.
    - intros Z0. destruct (Z.eq_dec date1 date2) as [Q|N]; [exact Q|].
      exfalso. specialize (Apart N).
      assert (P : pow2 (-30) <= d / inject_Z k).
      { apply Qle_shift_div_l; [exact K|].
        apply Qle_trans with (pow2 (-30) * inject_Z 604800000).
        - apply Qmult_le_l; [apply pow2_pos|]. rewrite <- Zle_Qle. exact K1.
        - apply Qle_trans with 1; [vm_compute; discriminate | exact Apart]. }
      assert (R : pow2 (-30) <= num_div d (inject_Z k)).
      { unfold num_div. apply double_above; [|exact P].
        unfold is_double.
        rewrite (double_comp (pow2 (-30)) (inject_Z 1 * pow2 (-30)))
          by (change (inject_Z 1) with 1; ring).
        rewrite double_representable by lia.
        change (inject_Z 1) with 1. ring. }
      pose proof (pow2_pos (-30)). lqa.
    - intros Q. unfold num_div.
      rewrite (double_comp (d / inject_Z k) 0); [reflexivity|].
      rewrite (Same Q). unfold Qdiv. ring. }
  intros n N B.
  assert (Dn : d == inject_Z (n * k)).
  { rewrite Exact by lia. rewrite N. reflexivity. }
  assert (N0 : (0 <= n)%Z) by nia.
  assert (Gn : gap == inject_Z n).
  { rewrite G. unfold num_div.
    rewrite (double_comp (d / inject_Z k) (inject_Z n)).
    - apply double_Z. nia.
    - rewrite Dn, inject_Z_mult. field. lqa. }
  split; [exact Gn|].
  assert (Dg : is_double gap).
  { unfold is_double. rewrite G. apply double_idempotent. }
  destruct (toMilliseconds_value gap unit S Dg) as [ms [M Mv]].
  exists ms. split; [exact M|].
  rewrite Mv. fold k. unfold num_mul.
  rewrite (double_comp (gap * inject_Z k) (inject_Z (n * k)))
    by (rewrite Gn, inject_Z_mult; reflexivity).
  rewrite double_Z by lia. rewrite N. reflexivity.
Qed.

Lemma dateDiff_distance_witness :
  In "minutes"%string TimeUnit
  /\ dateDiff (mkWorld 0 0) 0%Z (Some 90000%Z) (Some "minutes"%string)
     = Ok (3 # 2)
  /\ exists gap gap',
       dateDiff (mkWorld 0 0) 0%Z (Some 90000%Z) (Some "minutes"%string) = Ok gap
       /\ dateDiff (mkWorld 0 0) 90000%Z (Some 0%Z) (Some "minutes"%string) = Ok gap'
       /\ gap == gap' /\ 0 <= gap.
Proof.
  assert (S : In "minutes"%string TimeUnit) by (simpl; tauto).
  split; [exact S|]. split; [vm_compute; reflexivity|].
  destruct (dateDiff_distance (mkWorld 0 0) 0%Z 90000%Z "minutes" S)
    as [gap [gap' [A [B [C [D _]]]]]].
  exists gap, gap'. repeat split; assumption.
Defined.

(** An hour is not always given back: the hours between two dates one
    millisecond apart, turned into milliseconds again, are
    0.9999999999999999 ms. *)
Example dateDiff_not_inverted :
  dateDiff (mkWorld 0 0) 0%Z (Some 1%Z) (Some "hours"%string)
  = Ok (double (1 # 3600000))
  /\ toMilliseconds (double (1 # 3600000)) "hours"
     = Ok (9007199254740991 # 9007199254740992).
Proof. split; vm_compute; reflexivity. Qed.

(** X11.  In milliseconds, for dates within 2^51 ms of the epoch,
    [isBetween] says when a date splits the gap between [start] and
    [end]: the date is between them (both ends included) exactly when
    [start] is not after [end] and the gaps on its two sides, as
    [dateDiff] measures them, add up to the whole gap. *)
Theorem isBetween_splits_gap (w : World) (date start end_ : Date) :
  (Z.abs date <= 2 ^ 51)%Z -> (Z.abs start <= 2 ^ 51)%Z ->
  (Z.abs end_ <= 2 ^ 51)%Z ->
  exists before after whole,
    dateDiff w start (Some date) (Some "milliseconds"%string) = Ok before
    /\ dateDiff w date (Some end_) None = Ok after
    /\ dateDiff w start (Some end_) None = Ok whole
    /\ (isBetween date start end_ = true
        <-> (start <= end_)%Z /\ num_add before after == whole).
Proof.
  intros Bd Bs Be.
  destruct (diffMs_facts start date) as [_ [_ [_ Ea]]].
  destruct (diffMs_facts date end_) as [_ [_ [_ Eb]]].
  destruct (diffMs_facts start end_) as [_ [_ [_ Ec]]].
  cbv zeta in *.
  specialize (Ea ltac:(lia)). specialize (Eb ltac:(lia)).
  specialize (Ec ltac:(lia)).
  exists (Qabs (num_sub (getTime date) (getTime start))),
    (Qabs (num_sub (getTime end_) (getTime date))),
    (Qabs (num_sub (getTime end_) (getTime start))).
  split; [reflexivity|]. split; [reflexivity|]. split; [reflexivity|].
  rewrite (num_add_comp _ _ Ea _ _ Eb), Ec.
  rewrite num_add_Z by lia.
  unfold isBetween. cbv zeta.
  rewrite Bool.andb_true_iff, !Z.leb_le. split.
  - intros [L U]. split; [lia|]. apply inject_Z_injective. lia.
  - intros [L E]. pose proof (proj1 (inject_Z_injective _ _) E) as E'. lia.
Qed.

Lemma isBetween_splits_gap_witness :
  ((Z.abs 3600000 <= 2 ^ 51)%Z /\ (Z.abs 0 <= 2 ^ 51)%Z
   /\ (Z.abs 9000000 <= 2 ^ 51)%Z)
  /\ exists before after whole,
       dateDiff (mkWorld 0 0) 0%Z (Some 3600000%Z) (Some "milliseconds"%string)
         = Ok before
       /\ dateDiff (mkWorld 0 0) 3600000%Z (Some 9000000%Z) None = Ok after
       /\ dateDiff (mkWorld 0 0) 0%Z (Some 9000000%Z) None = Ok whole
       /\ (isBetween 3600000%Z 0%Z 9000000%Z = true
           <-> (0 <= 9000000)%Z /\ num_add before after == whole).
Proof.
  assert (A : (Z.abs 3600000 <= 2 ^ 51)%Z) by (simpl; lia).
  assert (B : (Z.abs 0 <= 2 ^ 51)%Z) by (simpl; lia).
  assert (C : (Z.abs 9000000 <= 2 ^ 51)%Z) by (simpl; lia).
  split; [repeat split; assumption|].
  exact (isBetween_splits_gap (mkWorld 0 0) 3600000%Z 0%Z 9000000%Z A B C).
Defined.

(** X12.  [subtractTime] after [addTime], same amount and unit, for a
    whole amount: when the time added is at most 2^53 ms and the later
    date is a date (within [MAX_TIME] of the epoch), [addTime] returns
    the date that much later and [subtractTime] returns the first date
    again. *)
Theorem addTime_subtractTime (date : Date) (amount : Z) (unit : string) :
  In unit TimeUnit ->
  let ms := (amount * unit_factor unit)%Z in
  (Z.abs ms <= 2 ^ 53)%Z ->
  (Z.abs date <= MAX_TIME)%Z -> (Z.abs (date + ms) <= MAX_TIME)%Z ->
  toMilliseconds (inject_Z amount) unit = Ok (inject_Z ms)
  /\ addTime date (inject_Z amount) unit = Ok (date + ms)%Z
  /\ subtractTime (date + ms)%Z (inject_Z amount) unit = Ok date.
Proof.
  intros S ms B Bd Bl.
  assert (TM : forall a : Z,
             (Z.abs (a * unit_factor unit) <= 2 ^ 53)%Z ->
             toMilliseconds (inject_Z a) unit
             = Ok (inject_Z (a * unit_factor unit))).
  { intros a Ba. unfold TimeUnit in S. simpl in S.
    destruct S as [<-|[<-|[<-|[<-|[<-|[<-|[]]]]]]];
      try (unfold toMilliseconds; cbn [String.eqb Ascii.eqb Bool.eqb andb];
           f_equal; apply num_mul_whole;
           [reflexivity | vm_compute; reflexivity | exact Ba]).
    unfold toMilliseconds. cbn [String.eqb Ascii.eqb Bool.eqb andb].
    f_equal. f_equal. change (unit_factor "milliseconds") with 1%Z. lia. }
  assert (AT : forall (d : Date) (a : Z),
             (Z.abs (a * unit_factor unit) <= 2 ^ 53)%Z ->
             (Z.abs (d + a * unit_factor unit) <= MAX_TIME)%Z ->
             addTime d (inject_Z a) unit = Ok (d + a * unit_factor unit)%Z).
  { intros d a Ba Bs. unfold addTime. rewrite (TM a Ba). f_equal.
    unfold getTime.
    rewrite (num_add_whole _ _ d (a * unit_factor unit)
               (Qeq_refl _) (Qeq_refl _))
      by (unfold MAX_TIME in Bs; lia).
    apply QueueFacts.new_Date_whole. }
  split; [apply TM; exact B|]. split; [apply AT; assumption|].
  unfold subtractTime.
  replace (- inject_Z amount) with (inject_Z (- amount)) by reflexivity.
  rewrite AT.
  - f_equal. unfold ms. lia.
  - rewrite Z.mul_opp_l, Z.abs_opp. exact B.
  - replace (date + ms + - amount * unit_factor unit)%Z with date
      by (unfold ms; lia).
    exact Bd.
Qed.

Lemma addTime_subtractTime_witness :
  (In "minutes"%string TimeUnit
   /\ (Z.abs (90 * unit_factor "minutes") <= 2 ^ 53)%Z
   /\ (Z.abs 1000 <= MAX_TIME)%Z
   /\ (Z.abs (1000 + 90 * unit_factor "minutes") <= MAX_TIME)%Z)
  /\ addTime 1000%Z (inject_Z 90) "minutes" = Ok 5401000%Z
  /\ subtractTime 5401000%Z (inject_Z 90) "minutes" = Ok 1000%Z.
Proof.
  assert (S : In "minutes"%string TimeUnit) by (simpl; tauto).
  assert (B : (Z.abs (90 * unit_factor "minutes") <= 2 ^ 53)%Z)
    by (vm_compute; discriminate).
  assert (Bd : (Z.abs 1000 <= MAX_TIME)%Z) by (vm_compute; discriminate).
  assert (Bl : (Z.abs (1000 + 90 * unit_factor "minutes") <= MAX_TIME)%Z)
    by (vm_compute; discriminate).
  split; [repeat split; assumption|].
  exact (proj2 (addTime_subtractTime 1000%Z 90 "minutes" S B Bd Bl)).
Defined.

(** A fraction of a millisecond is dropped by each [new Date]: half a
    millisecond added to and taken from date 1 gives date 0, and from
    date -1 gives date 0. *)
Example addTime_subtractTime_drift :
  addTime 1%Z (1 # 2) "milliseconds" = Ok 1%Z
  /\ subtractTime 1%Z (1 # 2) "milliseconds" = Ok 0%Z
  /\ addTime (-1)%Z (- (1 # 2)) "milliseconds" = Ok (-1)%Z
  /\ subtractTime (-1)%Z (- (1 # 2)) "milliseconds" = Ok 0%Z.
Proof. vm_compute. repeat split. Qed.

(** *** Leap years *)

Local Open Scope Z_scope.

(** The years counted by [isLeapYear] among the [n] years from [year]
    on. *)
Definition leap_years (year : Z) (n : nat) : nat :=
  List.length
    (filter isLeapYear (map (fun i => year + Z.of_nat i) (seq 0 n))).

(** The remainder of JavaScript is 0 exactly when the modulus is, also
    for a negative year. *)
Lemma rem_zero (a b : Z) : 0 < b -> (Z.rem a b =? 0) = (a mod b =? 0).
Proof.
  intros B. apply eq_true_iff_eq. rewrite !Z.eqb_eq.
  rewrite Z.rem_divide, Z.mod_divide by lia. reflexivity.
Qed.

Lemma isLeapYear_mod (year : Z) :
  isLeapYear year
  = ((year mod 4 =? 0) && negb (year mod 100 =? 0) || (year mod 400 =? 0)).
Proof.
  unfold isLeapYear. rewrite !rem_zero by lia. reflexivity.
Qed.

Lemma isLeapYear_period (year : Z) :
  isLeapYear (year + 400) = isLeapYear year.
Proof.
  rewrite !isLeapYear_mod.
  replace ((year + 400) mod 4) with (year mod 4)
    by (Z.div_mod_to_equations; lia).
  replace ((year + 400) mod 100) with (year mod 100)
    by (Z.div_mod_to_equations; lia).
  replace ((year + 400) mod 400) with (year mod 400)
    by (Z.div_mod_to_equations; lia).
  reflexivity.
Qed.

Lemma leap_years_first (year : Z) (n : nat) :
  leap_years year (S n)
  = ((if isLeapYear year then 1 else 0) + leap_years (year + 1) n)%nat.
Proof.
  unfold leap_years. cbn [seq map filter].
  rewrite <- seq_shift, map_map, Z.add_0_r.
  replace (map (fun i => year + Z.of_nat (S i)) (seq 0 n))
    with (map (fun i => year + 1 + Z.of_nat i) (seq 0 n)).
  - destruct (isLeapYear year); reflexivity.
  - apply map_ext. intros i. lia.
Qed.

Lemma leap_years_last (year : Z) (n : nat) :
  leap_years year (S n)
  = (leap_years year n
     + (if isLeapYear (year + Z.of_nat n) then 1 else 0))%nat.
Proof.
  unfold leap_years. rewrite seq_S, map_app, filter_app, length_app.
  cbn [map filter Nat.add].
  destruct (isLeapYear (year + Z.of_nat n)); reflexivity.
Qed.

Lemma leap_years_shift (year : Z) :
  leap_years (year + 1) 400 = leap_years year 400.
Proof.
  rewrite (leap_years_last (year + 1) 399), (leap_years_first year 399).
  replace (year + 1 + Z.of_nat 399) with (year + 400) by lia.
  rewrite isLeapYear_period. lia.
Qed.

(** X13.  [isLeapYear] is the Gregorian rule on every integer year, negative
    ones included: a year is a leap year exactly when 4 divides it and
    100 does not, or 400 divides it; the answer repeats every 400 years,
    and any 400 consecutive years hold 97 leap years. *)
Theorem isLeapYear_gregorian (year : Z) :
  (isLeapYear year = true
   <-> ((4 | year) /\ ~ (100 | year)) \/ (400 | year))
  /\ isLeapYear (year + 400) = isLeapYear year
  /\ leap_years year 400 = 97%nat.
Proof.
  split; [|split; [apply isLeapYear_period|]].
  - unfold isLeapYear.
    rewrite Bool.orb_true_iff, Bool.andb_true_iff, Bool.negb_true_iff.
    rewrite Z.eqb_neq, !Z.eqb_eq, !Z.rem_divide by lia. reflexivity.
  - pattern year. apply Z.peano_ind.
    + vm_compute. reflexivity.
    + intros y E. unfold Z.succ. rewrite leap_years_shift. exact E.
    + intros y E. rewrite <- leap_years_shift.
      replace (Z.pred y + 1) with y by lia. exact E.
Qed.

Local Close Scope Z_scope.

End TimeUnitFacts.

(** ** utils/geo.ts: distances *)

Module DistanceFacts.
Import GeoUtils GeoFacts.
Local Open Scope R_scope.

(** The quantity [a] of [calculateDistance]. *)
Definition haversine (coord1 coord2 : Coordinates) : R :=
  let dLat := toRad (lat coord2 - lat coord1) in
  let dLon := toRad (lng coord2 - lng coord1) in
  sin (dLat / 2) * sin (dLat / 2)
  + cos (toRad (lat coord1)) * cos (toRad (lat coord2))
    * sin (dLon / 2) * sin (dLon / 2).

(** The factors of the [switch] that closes [calculateDistance]. *)
Definition per_km (unit : option DistanceUnit) : R :=
  match unit with
  | Some m => 1000
  | Some mi => 0.621371
  | Some ft => 3280.84
  | Some km | None => 1
  end.

Lemma calculateDistance_formula (coord1 coord2 : Coordinates)
    (unit : option DistanceUnit) :
  calculateDistance coord1 coord2 unit
  = EARTH_RADIUS_KM
    * (2 * Math_atan2 (sqrt (haversine coord1 coord2))
                      (sqrt (1 - haversine coord1 coord2)))
    * per_km unit.
Proof.
  unfold calculateDistance, haversine, per_km. cbv zeta.
  destruct unit as [[]|]; ring.
Qed.

Lemma haversine_sym (coord1 coord2 : Coordinates) :
  haversine coord1 coord2 = haversine coord2 coord1.
Proof.
  unfold haversine. cbv zeta.
  replace (toRad (lat coord1 - lat coord2) / 2)
    with (- (toRad (lat coord2 - lat coord1) / 2)) by (unfold toRad; field).
  replace (toRad (lng coord1 - lng coord2) / 2)
    with (- (toRad (lng coord2 - lng coord1) / 2)) by (unfold toRad; field).
  rewrite !sin_neg. ring.
Qed.

Lemma haversine_same (coord : Coordinates) : haversine coord coord = 0.
Proof.
  unfold haversine. cbv zeta.
  replace (toRad (lat coord - lat coord) / 2) with 0 by (unfold toRad; field).
  replace (toRad (lng coord - lng coord) / 2) with 0 by (unfold toRad; field).
  rewrite sin_0. ring.
Qed.










Lemma distance_swap (coord1 coord2 : Coordinates)
    (unit : option DistanceUnit) :
  calculateDistance coord1 coord2 unit = calculateDistance coord2 coord1 unit.
Proof.
  rewrite !calculateDistance_formula, (haversine_sym coord1 coord2).
  reflexivity.
Qed.

Lemma distance_self (coord : Coordinates) (unit : option DistanceUnit) :
  calculateDistance coord coord unit = 0.
Proof.
  rewrite calculateDistance_formula, haversine_same.
  replace (1 - 0) with 1 by ring.
  rewrite sqrt_0, sqrt_1, Math_atan2_0_positive by lra. ring.
Qed.

(** X15.  The distance does not depend on the order of the two points, and a
    point is at distance 0 from itself, in every unit. *)
Theorem calculateDistance_symmetric (coord1 coord2 : Coordinates)
    (unit : option DistanceUnit) :
  calculateDistance coord1 coord2 unit = calculateDistance coord2 coord1 unit
  /\ calculateDistance coord1 coord1 unit = 0.
Proof.
  split; [apply distance_swap | apply distance_self].
Qed.

Lemma isWithinRadius_iff (point center : Coordinates) (radius : R)
    (unit : option DistanceUnit) :
  isWithinRadius point center radius unit = true
  <-> calculateDistance point center unit <= radius.
Proof.
  unfold isWithinRadius. cbv zeta.
  destruct (Rle_dec (calculateDistance point center unit) radius);
    split; intros; try assumption; try reflexivity; try discriminate;
    contradiction.
Qed.

(** X16.  [isWithinRadius] does not depend on which of the two points is
    called the centre, keeps saying yes when the radius grows, and puts a
    point within every non-negative radius of itself and within no
    negative one. *)
Theorem isWithinRadius_facts (point center : Coordinates) (radius : R)
    (unit : option DistanceUnit) :
  isWithinRadius point center radius unit
  = isWithinRadius center point radius unit
  /\ (forall radius', radius <= radius' ->
        isWithinRadius point center radius unit = true ->
        isWithinRadius point center radius' unit = true)
  /\ (isWithinRadius point point radius unit = true <-> 0 <= radius).
Proof.
  split; [|split].
  - unfold isWithinRadius. cbv zeta.
    rewrite (distance_swap point center unit). reflexivity.
  - intros radius' L. rewrite !isWithinRadius_iff. lra.
  - rewrite isWithinRadius_iff.
    rewrite distance_self. reflexivity.
Qed.

(** *** Units *)




(** X19.  [calculateDestination] and [getBoundingBox] have no case for
    feet: a length given in feet is read as the same number of miles, so
    that the result for feet is the result for miles; and kilometres are
    the unit when none is given. *)
Theorem feet_read_as_miles (start : Coordinates) (distance bearing : R) :
  calculateDestination start distance bearing (Some ft)
  = calculateDestination start distance bearing (Some mi)
  /\ getBoundingBox start distance (Some ft)
     = getBoundingBox start distance (Some mi)
  /\ calculateDestination start distance bearing (Some km)
     = calculateDestination start distance bearing None
  /\ getBoundingBox start distance (Some km)
     = getBoundingBox start distance None.
Proof.
  repeat split; reflexivity.
Qed.

(** *** The bounding box *)









(** *** Bearings and destinations *)









(** *** The midpoint *)








End DistanceFacts.

(** ** utils/notifications.ts: grouping, sorting, labels and data *)

Module NotificationFacts.
Import JS QueueUtils NotificationUtils NumberFacts DoubleFacts.
Local Open Scope Q_scope.

Lemma type_eqb_eq (a b : NotificationType) : type_eqb a b = true <-> a = b.
Proof. destruct a, b; simpl; split; intros; congruence. Qed.

Lemma type_eqb_neq (a b : NotificationType) : type_eqb a b = false <-> a <> b.
Proof. destruct a, b; simpl; split; intros; congruence. Qed.

(** *** groupNotifications *)

Lemma group_of_set_group (type type' : NotificationType)
    (group : list Payload.t) (groups : Groups) :
  group_of type (set_group type' group groups)
  = if type_eqb type' type then Some group else group_of type groups.
Proof.
  induction groups as [|[t g] rest IH]; simpl.
  - destruct (type_eqb type' type); reflexivity.
  - destruct (type_eqb t type') eqn:E; simpl.
    + apply type_eqb_eq in E. subst t.
      destruct (type_eqb type' type); reflexivity.
    + rewrite IH. destruct (type_eqb t type) eqn:E1; [|reflexivity].
      destruct (type_eqb type' type) eqn:E2; [|reflexivity].
      apply type_eqb_eq in E1, E2. apply type_eqb_neq in E. congruence.
Qed.

Lemma set_group_keys (type k : NotificationType) (group : list Payload.t)
    (groups : Groups) :
  In k (map fst (set_group type group groups))
  <-> k = type \/ In k (map fst groups).
Proof.
  induction groups as [|[t g] rest IH]; simpl.
  - intuition congruence.
  - destruct (type_eqb t type) eqn:E; simpl.
    + apply type_eqb_eq in E. subst t. intuition congruence.
    + rewrite IH. intuition congruence.
Qed.

Lemma set_group_NoDup (type : NotificationType) (group : list Payload.t)
    (groups : Groups) :
  NoDup (map fst groups) -> NoDup (map fst (set_group type group groups)).
Proof.
  induction groups as [|[t g] rest IH]; simpl; intros N.
  - constructor; [simpl; tauto | constructor].
  - inversion N as [|? ? N1 N2]; subst.
    destruct (type_eqb t type) eqn:E; simpl.
    + constructor; assumption.
    + constructor; [|apply IH; exact N2].
      rewrite set_group_keys. apply type_eqb_neq in E.
      intros [X|X]; [congruence | exact (N1 X)].
Qed.

Lemma groupNotifications_snoc (notifications : list Payload.t)
    (notification : Payload.t) :
  groupNotifications (notifications ++ [notification])
  = set_group (Payload.type notification)
      (orDefault (group_of (Payload.type notification)
                    (groupNotifications notifications)) []
       ++ [notification])%list
      (groupNotifications notifications).
Proof. unfold groupNotifications. rewrite fold_left_app. reflexivity. Qed.

(** X25.  [groupNotifications] files every notification under its type, and
    keeps the order: the group of a type is the list of the
    notifications of that type, in the order they came in, a type
    without notification has no group, and no type has two groups. *)
Theorem groupNotifications_by_type (notifications : list Payload.t)
    (type : NotificationType) :
  let groups := groupNotifications notifications in
  let of_type :=
    filter (fun n => type_eqb (Payload.type n) type) notifications in
  group_of type groups
  = match of_type with [] => None | _ :: _ => Some of_type end
  /\ NoDup (map fst groups).
Proof.
  cbv zeta. split.
  - revert type.
    induction notifications as [|n l IH] using rev_ind; intros type;
      [reflexivity|].
    rewrite groupNotifications_snoc, group_of_set_group, filter_app.
    cbn [filter]. destruct (type_eqb (Payload.type n) type) eqn:E.
    + apply type_eqb_eq in E. subst type. rewrite IH.
      destruct (filter (fun n0 => type_eqb (Payload.type n0) (Payload.type n)) l);
        reflexivity.
    + rewrite app_nil_r. apply IH.
  - induction notifications as [|n l IH] using rev_ind; [constructor|].
    rewrite groupNotifications_snoc. apply set_group_NoDup. exact IH.
Qed.

(** *** sortNotifications *)

Section SortFacts.
Context {A : Type} (compare : A -> A -> option Q).
Context (P : A -> Prop) (R : A -> A -> Prop).
Hypothesis R_trans : forall a b c, R a b -> R b c -> R a c.
Hypothesis R_compare :
  forall a b, P a -> P b ->
    (comes_after compare a b = true -> R b a)
    /\ (comes_after compare a b = false -> R a b).

Lemma insert_by_Permutation (a : A) (l : list A) :
  Permutation (a :: l) (insert_by compare a l).
Proof.
  induction l as [|b rest IH]; simpl; [apply Permutation_refl|].
  destruct (comes_after compare a b); [|apply Permutation_refl].
  eapply perm_trans; [apply perm_swap|]. apply perm_skip. exact IH.
Qed.

Lemma Array_sort_Permutation (l : list A) :
  Permutation l (Array_sort compare l).
Proof.
  induction l as [|a rest IH]; simpl; [constructor|].
  eapply perm_trans; [apply perm_skip; exact IH|].
  apply insert_by_Permutation.
Qed.

Lemma insert_by_sorted (a : A) (l : list A) :
  P a -> Forall P l ->
  StronglySorted R l -> StronglySorted R (insert_by compare a l).
Proof.
  intros Pa. induction l as [|b rest IH]; simpl; intros Pl S.
  - constructor; constructor.
  - inversion S as [|? ? S' F]; subst.
    inversion Pl as [|? ? Pb Prest]; subst.
    destruct (R_compare a b Pa Pb) as [Gt Le].
    destruct (comes_after compare a b).
    + constructor; [apply IH; assumption|].
      apply (Permutation_Forall (insert_by_Permutation a rest)).
      constructor; [apply Gt; reflexivity | exact F].
    + constructor; [exact S|].
      constructor; [apply Le; reflexivity|].
      apply Forall_forall. intros x I.
      apply (R_trans a b x); [apply Le; reflexivity|].
      rewrite Forall_forall in F. apply F. exact I.
Qed.

Lemma Array_sort_sorted (l : list A) :
  Forall P l -> StronglySorted R (Array_sort compare l).
Proof.
  induction l as [|a rest IH]; simpl; intros Pl; [constructor|].
  inversion Pl as [|? ? Pa Prest]; subst.
  apply insert_by_sorted; [exact Pa | | apply IH; exact Prest].
  apply (Permutation_Forall (Array_sort_Permutation rest)). exact Prest.
Qed.

End SortFacts.

Lemma priorityOrder_eq (p q : Priority) :
  priorityOrder p == priorityOrder q <-> p = q.
Proof.
  destruct p, q; simpl; split; intros E; try reflexivity; try discriminate;
    exfalso; revert E; unfold Qeq; simpl; lia.
Qed.

Definition priority_rank (p : Priority) : Z :=
  match p with
  | priority_max => 0
  | priority_high => 1
  | priority_default => 2
  end.

Lemma priorityOrder_rank (p : Priority) :
  priorityOrder p = inject_Z (priority_rank p).
Proof. destruct p; reflexivity. Qed.

(** The time a notification is sorted by, when its timestamp is absent
    (time 0) or is read as a valid date. *)
Definition dated (Date_parse : JSValue -> option Z) (n : Payload.t) (t : Z)
    : Prop :=
  timestamp_of Date_parse n = Some (inject_Z t)
  /\ (- MAX_TIME <= t <= MAX_TIME)%Z.

(** X26.  [sortNotifications] returns the same notifications; when every
    timestamp present is read as a valid date, those of priority [max]
    come first, then [high], then [default], and within one priority
    the newest timestamp first (a notification without timestamp
    counting as time 0). *)
Theorem sortNotifications_order (Date_parse : JSValue -> option Z)
    (notifications : list Payload.t) :
  let sorted := sortNotifications Date_parse notifications in
  Permutation notifications sorted
  /\ (Forall (fun n => exists t, dated Date_parse n t) notifications ->
      StronglySorted
        (fun a b =>
           priorityOrder (Payload.priority a)
           < priorityOrder (Payload.priority b)
           \/ (Payload.priority a = Payload.priority b
               /\ exists ta tb,
                    dated Date_parse a ta /\ dated Date_parse b tb
                    /\ (tb <= ta)%Z))
        sorted).
Proof.
  cbv zeta. unfold sortNotifications.
  split; [apply Array_sort_Permutation|].
  apply Array_sort_sorted.
  - intros a b c [L1|[E1 T1]] [L2|[E2 T2]].
    + left. lqa.
    + left. rewrite <- E2. exact L1.
    + left. rewrite E1. exact L2.
    + right. split; [congruence|].
      destruct T1 as [ta [tb [Da [Db L1]]]].
      destruct T2 as [tb' [tc [Db' [Dc L2]]]].
      exists ta, tc. split; [exact Da|]. split; [exact Dc|].
      destruct Db as [Eb _], Db' as [Eb' _]. rewrite Eb in Eb'.
      assert (Q : tb' = tb) by (unfold inject_Z in Eb'; congruence). lia.
  - intros a b [ta Da] [tb Db]. unfold comes_after, compare_notifications.
    cbv zeta. unfold strict_eq.
    destruct (Qeq_bool (priorityOrder (Payload.priority a))
                (priorityOrder (Payload.priority b))) eqn:E; cbn [negb].
    + apply Qeq_bool_iff in E. pose proof E as E'.
      apply priorityOrder_eq in E'.
      rewrite (proj1 Da), (proj1 Db).
      split; intros G.
      * apply num_sub_sign in G. right. split; [congruence|].
        exists tb, ta. split; [exact Db|]. split; [exact Da|]. lia.
      * right. split; [congruence|].
        exists ta, tb. split; [exact Da|]. split; [exact Db|].
        destruct (Z_lt_le_dec ta tb) as [L|L]; [|exact L].
        apply num_sub_sign in L. rewrite L in G. discriminate.
    + apply Qeq_bool_neq in E. rewrite !priorityOrder_rank in *.
      assert (N : priority_rank (Payload.priority a)
                  <> priority_rank (Payload.priority b)).
      { intros Q. apply E. rewrite Q. reflexivity. }
      split; intros G.
      * apply num_sub_sign in G. left. rewrite <- Zlt_Qlt. exact G.
      * left. rewrite <- Zlt_Qlt.
        destruct (Z_lt_le_dec (priority_rank (Payload.priority b))
                    (priority_rank (Payload.priority a))) as [L|L]; [|lia].
        apply num_sub_sign in L. rewrite L in G. discriminate.
Qed.

(** [new Date(value).getTime()] on a number within the range of time
    values: its integer part. *)
Definition Date_of_number (value : JSValue) : option Z :=
  match value with
  | VNumber n =>
      if (Z.abs (truncate n) <=? MAX_TIME)%Z then Some (truncate n) else None
  | _ => None
  end.

Definition stamped (time : Q) : Payload.t :=
  Payload.mk CUSTOM_MESSAGE "title"%string "message"%string
    [("timestamp"%string, VNumber time)] priority_default None.

Lemma sortNotifications_order_witness :
  let notifications := [stamped 5; stamped 9] in
  Forall (fun n => exists t, dated Date_of_number n t) notifications
  /\ sortNotifications Date_of_number notifications = [stamped 9; stamped 5]
  /\ StronglySorted
       (fun a b =>
          priorityOrder (Payload.priority a)
          < priorityOrder (Payload.priority b)
          \/ (Payload.priority a = Payload.priority b
              /\ exists ta tb,
                   dated Date_of_number a ta /\ dated Date_of_number b tb
                   /\ (tb <= ta)%Z))
       (sortNotifications Date_of_number notifications).
Proof.
  intros notifications.
  assert (D : Forall (fun n => exists t, dated Date_of_number n t)
                notifications).
  { constructor; [exists 5%Z | constructor; [exists 9%Z | constructor]];
      (split; [reflexivity | unfold MAX_TIME; lia]). }
  split; [exact D|]. split; [vm_compute; reflexivity|].
  exact (proj2 (sortNotifications_order Date_of_number notifications) D).
Defined.

(** *** Labels and colours *)

(** X27.  Two different statuses never share a label or a colour. *)
Theorem status_display_distinct (s1 s2 : QueueEntryStatus) :
  (getStatusDisplayText s1 = getStatusDisplayText s2 -> s1 = s2)
  /\ (getStatusColor s1 = getStatusColor s2 -> s1 = s2).
Proof.
  split; destruct s1, s2; simpl; intros E; try reflexivity; discriminate.
Qed.

(** *** The data of a payload *)

Local Open Scope string_scope.

Lemma get_set_property (k k' : string) (v : JSValue) (o : Object) :
  get_property k (set_property k' v o)
  = if k' =? k then v else get_property k o.
Proof.
  induction o as [|[k0 v0] rest IH]; simpl.
  - destruct (k' =? k); reflexivity.
  - destruct (String.eqb_spec k0 k') as [->|N]; simpl.
    + destruct (String.eqb_spec k' k); reflexivity.
    + rewrite IH. destruct (String.eqb_spec k0 k) as [->|N0]; [|reflexivity].
      destruct (String.eqb_spec k' k) as [->|N1]; [congruence | reflexivity].
Qed.

Lemma get_property_app (k : string) (o1 o2 : Object) :
  get_property k (o1 ++ o2)%list
  = if existsb (String.eqb k) (map fst o1) then get_property k o1
    else get_property k o2.
Proof.
  induction o1 as [|[k0 v0] rest IH]; simpl; [reflexivity|].
  rewrite (String.eqb_sym k k0).
  destruct (k0 =? k); simpl; [reflexivity | exact IH].
Qed.

Lemma existsb_key (k : string) (keys : list string) :
  existsb (String.eqb k) keys = true <-> In k keys.
Proof.
  rewrite existsb_exists. split.
  - intros [x [I E]]. apply String.eqb_eq in E. subst x. exact I.
  - intros I. exists k. split; [exact I | apply String.eqb_refl].
Qed.

(** Reading [k] after the writes of [...data]: the value [data] holds
    for [k], or what was there before when [data] has no [k]. *)
Lemma get_after_spread (k : string) (data o : Object) :
  NoDup (map fst data) ->
  get_property k
    (fold_left (fun o kv => set_property (fst kv) (snd kv) o) data o)
  = if existsb (String.eqb k) (map fst data) then get_property k data
    else get_property k o.
Proof.
  intros N. induction data as [|[k' v] l IH] using rev_ind; [reflexivity|].
  rewrite fold_left_app. cbn [fold_left fst snd].
  rewrite get_set_property, get_property_app, map_app, existsb_app.
  rewrite map_app in N. apply NoDup_app_remove_r in N as N'.
  rewrite (IH N'). cbn [map fst existsb get_property].
  rewrite (String.eqb_sym k k'), Bool.orb_false_r.
  destruct (String.eqb_spec k' k) as [->|D].
  - destruct (existsb (String.eqb k) (map fst l)) eqn:E; [|reflexivity].
    exfalso. apply existsb_key in E.
    apply NoDup_remove_2 in N. rewrite app_nil_r in N. exact (N E).
  - destruct (existsb (String.eqb k) (map fst l)); reflexivity.
Qed.

(** X28.  What [payload.data[k]] holds, for the three builders that stamp
    their payload and a key [k] other than the names inherited from
    [Object.prototype]: the value of [k] in the [data] passed, when it
    has one (so that [data] can replace the timestamp and every other
    property the builder writes), and the builder's own value
    otherwise. *)
Theorem payload_data_lookup (w : World) (data : Object) (k : string) :
  NoDup (map fst data) ->
  ~ In k Object_prototype_keys ->
  let supplied := existsb (String.eqb k) (map fst data) in
  (forall queueName,
      get_property k
        (Payload.data (createYourTurnNowNotification w queueName (Some data)))
      = if supplied then get_property k data
        else if k =? "timestamp" then VString (ISO.toISOString (clock w))
        else if k =? "queueName" then VString queueName
        else VUndefined)
  /\ (forall status queueName reason,
         get_property k
           (Payload.data
              (createQueueStatusNotification w status queueName reason
                 (Some data)))
         = if supplied then get_property k data
           else if k =? "timestamp" then VString (ISO.toISOString (clock w))
           else if k =? "reason" then optional_string reason
           else if k =? "status" then VString (status_name status)
           else if k =? "queueName" then VString queueName
           else VUndefined)
  /\ (forall title message,
         get_property k
           (Payload.data (createCustomNotification w title message (Some data)))
         = if supplied then get_property k data
           else if k =? "timestamp" then VString (ISO.toISOString (clock w))
           else VUndefined).
Proof.
  intros N _ supplied. unfold supplied.
  split; [|split]; intros.
  - unfold createYourTurnNowNotification, createQueueStatusNotification,
      createCustomNotification, literal. cbv zeta.
    cbn [Payload.data orDefault]. rewrite fold_left_app, get_after_spread by exact N.
    cbn [fold_left fst snd]. rewrite !get_set_property.
    rewrite !(String.eqb_sym k). reflexivity.
  - unfold createQueueStatusNotification, literal. cbv zeta.
    destruct status; cbn [Payload.data orDefault];
      rewrite fold_left_app, get_after_spread by exact N;
      cbn [fold_left fst snd]; rewrite !get_set_property;
      rewrite !(String.eqb_sym k); reflexivity.
  - unfold createCustomNotification, literal. cbv zeta.
    cbn [Payload.data orDefault]. rewrite fold_left_app, get_after_spread by exact N.
    cbn [fold_left fst snd]. rewrite !get_set_property.
    rewrite !(String.eqb_sym k). reflexivity.
Qed.

Lemma payload_data_lookup_witness :
  NoDup (map fst [("timestamp", VNumber 5)])
  /\ ~ In "timestamp" Object_prototype_keys
  /\ get_property "timestamp"
       (Payload.data
          (createCustomNotification (mkWorld 0 0) "title" "message"
             (Some [("timestamp", VNumber 5)])))
     = VNumber 5.
Proof.
  assert (N : NoDup (map fst [("timestamp", VNumber 5)])).
  { simpl. constructor; [simpl; tauto | constructor]. }
  assert (O : ~ In "timestamp" Object_prototype_keys).
  { unfold Object_prototype_keys. simpl. intuition discriminate. }
  split; [exact N|]. split; [exact O|].
  exact (proj2 (proj2 (payload_data_lookup (mkWorld 0 0)
                         [("timestamp", VNumber 5)] "timestamp" N O))
           "title" "message").
Defined.

End NotificationFacts.
